(** * UV-atlas packing of mcblend: [operator_func/uv.py]

    A shallow embedding of the classes [UvBox] and [UvMcCube], of the packer
    [plan_uv] and of the grouping adapter [get_uv_mc_cubes], together with
    the properties of the packing engine.

    Python integers are unbounded, so every coordinate and size is a [Z].
    Objects live in a store indexed by references (object identities):
    [plan_uv] deduplicates by identity, tests membership in [authors] by
    identity and mutates the boxes in place.

    The development also covers [set_uv], which writes the corners of a
    face into the loops of a mesh, and from [operator_func/common.py] the
    accessors of the custom properties, the names of the wrapped objects
    and the construction of a [McblendObjectGroup]. *)

From stdpp Require Import gmap strings list sorting.

Local Open Scope Z_scope.

(** ** Data model *)

(** [class UvCorner(Enum)] *)
Inductive UvCorner := TOP_RIGHT | TOP_LEFT | BOTTOM_RIGHT | BOTTOM_LEFT.

Abbreviation point := (Z * Z)%type (only parsing).
Abbreviation suggestion := ((Z * Z) * UvCorner)%type (only parsing).

(** [class UvBox]: the attributes [is_mapped], [size] and [uv]. *)
Module UvBox.

Record t := Build { is_mapped : bool; size : Z * Z; uv : Z * Z }.

(** [__init__(self, size, uv=None)] *)
Definition init (sz : point) (p : option point) : t :=
  match p with
  | None => {| is_mapped := false; size := sz; uv := (0, 0) |}
  | Some q => {| is_mapped := true; size := sz; uv := q |}
  end.

(** The property setter [uv]. *)
Definition set_uv (self : t) (p : point) : t :=
  {| is_mapped := is_mapped self; size := size self; uv := p |}.

Definition set_is_mapped (self : t) (m : bool) : t :=
  {| is_mapped := m; size := size self; uv := uv self |}.

(** [collides(self, other)] *)
Definition collides (self other : t) : bool :=
  let self_x := ((uv self).1, (uv self).1 + (size self).1) in
  let self_y := ((uv self).2, (uv self).2 + (size self).2) in
  let other_x := ((uv other).1, (uv other).1 + (size other).1) in
  let other_y := ((uv other).2, (uv other).2 + (size other).2) in
  (self_x.1 <? other_x.2) && (other_x.1 <? self_x.2) &&
  (self_y.1 <? other_y.2) && (other_y.1 <? self_y.2).

(** [suggest_positions(self)] *)
Definition suggest_positions (self : t) : list suggestion :=
  let ss := ((size self).1 - 1, (size self).2 - 1) in
  let uv := uv self in
  [ ((uv.1, uv.2 - 1), BOTTOM_LEFT);
    ((uv.1 + ss.1, uv.2 - 1), BOTTOM_RIGHT);
    ((uv.1 + ss.1 + 1, uv.2), TOP_LEFT);
    ((uv.1 + ss.1 + 1, uv.2 + ss.2), BOTTOM_LEFT);
    ((uv.1 + ss.1, uv.2 + ss.2 + 1), TOP_RIGHT);
    ((uv.1, uv.2 + ss.2 + 1), TOP_LEFT);
    ((uv.1 - 1, uv.2 + ss.2), BOTTOM_RIGHT);
    ((uv.1 - 1, uv.2), TOP_RIGHT) ].

(** The position that [apply_suggestion] assigns to [self.uv]. *)
Definition suggested_uv (self : t) (s : suggestion) : point :=
  let ss := ((size self).1 - 1, (size self).2 - 1) in
  match s.2 with
  | TOP_LEFT => s.1
  | TOP_RIGHT => (s.1.1 - ss.1, s.1.2)
  | BOTTOM_LEFT => (s.1.1, s.1.2 - ss.2)
  | BOTTOM_RIGHT => (s.1.1 - ss.1, s.1.2 - ss.2)
  end.

(** [apply_suggestion(self, suggestion)] *)
Definition apply_suggestion (self : t) (s : suggestion) : t :=
  set_uv self (suggested_uv self s).

End UvBox.

(** [class UvMcCube(UvBox)]: the inherited attributes are the field [base];
    the six faces are objects owned by the cube. *)
Module UvMcCube.

Record t := Build {
  base : UvBox.t;
  depth : Z; height : Z; width : Z;
  right : UvBox.t; front : UvBox.t; left : UvBox.t;
  back : UvBox.t; top : UvBox.t; bottom : UvBox.t }.

(** The overriding setter [@UvBox.uv.setter]. *)
Definition set_uv (self : t) (p : point) : t :=
  {| base := UvBox.set_uv (base self) p;
     depth := depth self; height := height self; width := width self;
     right := UvBox.set_uv (right self) (p.1, p.2 + depth self);
     front := UvBox.set_uv (front self) (p.1 + depth self, p.2 + depth self);
     left := UvBox.set_uv (left self)
               (p.1 + depth self + width self, p.2 + depth self);
     back := UvBox.set_uv (back self)
               (p.1 + 2 * depth self + width self, p.2 + depth self);
     top := UvBox.set_uv (top self) (p.1 + depth self, p.2);
     bottom := UvBox.set_uv (bottom self) (p.1 + depth self + width self, p.2) |}.

Definition set_is_mapped (self : t) (m : bool) : t :=
  {| base := UvBox.set_is_mapped (base self) m;
     depth := depth self; height := height self; width := width self;
     right := right self; front := front self; left := left self;
     back := back self; top := top self; bottom := bottom self |}.

(** [__init__(self, width, depth, height, uv=None)]: the faces are built
    first, then [super().__init__(size, uv)] stores [is_mapped] and [size]
    and assigns [self.uv] through the overriding setter. *)
Definition init (w d h : Z) (p : option point) : t :=
  let sz := (2 * d + 2 * w, h + d) in
  let super := UvBox.init sz p in
  set_uv
    {| base := super; depth := d; height := h; width := w;
       right := UvBox.init (d, h) (Some (0, d));
       front := UvBox.init (w, h) (Some (d, d));
       left := UvBox.init (d, h) (Some (d + w, d));
       back := UvBox.init (w, h) (Some (2 * d + w, d));
       top := UvBox.init (w, d) (Some (d, 0));
       bottom := UvBox.init (w, d) (Some (d + w, 0)) |}
    (UvBox.uv super).

Definition faces (self : t) : list UvBox.t :=
  [right self; front self; left self; back self; top self; bottom self].

(** [collides(self, other)]: the first face that collides with [other]
    returns [True]. *)
Definition collides (self : t) (other : UvBox.t) : bool :=
  existsb (λ i, UvBox.collides i other) (faces self).

(** [s for i, s in enumerate(l) if i in idx] *)
Definition pick (idx : list nat) (l : list suggestion) : list suggestion :=
  (imap pair l ≫= λ '(i, s), if bool_decide (i ∈ idx) then [s] else []).

(** [suggest_positions(self)] *)
Definition suggest_positions (self : t) : list suggestion :=
  pick [0; 5; 6]%nat (UvBox.suggest_positions (right self)) ++
  pick [0; 6; 7]%nat (UvBox.suggest_positions (top self)) ++
  pick [1; 2; 3]%nat (UvBox.suggest_positions (bottom self)) ++
  pick [1; 3; 4]%nat (UvBox.suggest_positions (back self)).

(** [apply_suggestion] is inherited from [UvBox]; the assignment to
    [self.uv] goes through the overriding setter. *)
Definition apply_suggestion (self : t) (s : suggestion) : t :=
  set_uv self (UvBox.suggested_uv (base self) s).

End UvMcCube.

#[global] Instance UvMcCube_inhabited : Inhabited UvMcCube.t :=
  populate (UvMcCube.init 0 0 0 None).

(** ** The store *)

(** A reference is the identity of a [UvMcCube] object ([plan_uv] takes a
    [List[UvMcCube]]); a Python reference always denotes a live object, so
    the store is read with the total lookup [!!!]. *)
Abbreviation ref := positive (only parsing).
Abbreviation heap := (gmap positive UvMcCube.t) (only parsing).

(** ** The packer [plan_uv] *)

(** [boxes.sort(key=lambda box: box.size[0], reverse=True)]: Python's sort
    is stable, also with [reverse=True]. *)
Definition sort_key (h : heap) (r : ref) : Z :=
  (UvBox.size (UvMcCube.base (h !!! r))).1.

Fixpoint insert_desc (h : heap) (x : ref) (l : list ref) : list ref :=
  match l with
  | [] => [x]
  | y :: l' =>
      if sort_key h y <=? sort_key h x then x :: l
      else y :: insert_desc h x l'
  end.

Definition sort_desc (h : heap) (l : list ref) : list ref :=
  foldr (insert_desc h) [] l.

(** The local state of one run: the queue [suggestions], the list
    [authors], the list [mapped_boxes], and the store holding the boxes. *)
Record run := Run {
  suggestions : list suggestion;
  authors : list ref;
  mapped_boxes : list ref;
  store : gmap positive UvMcCube.t }.

(** [_is_out_of_bounds(uv, size=(0, 0))], a closure over [width] and
    [height]. *)
Definition _is_out_of_bounds (width : Z) (height : option Z)
    (uv : point) (size : point) : bool :=
  (uv.1 <? 0) || (uv.2 <? 0) || (width <? uv.1 + size.1) ||
  match height with
  | None => false
  | Some hg => hg <? uv.2 + size.2
  end.

(** [for other_box in mapped_boxes: if box.collides(other_box): ... break]:
    the first box of [mapped_boxes] that [box] collides with. *)
Fixpoint first_collision (h : heap) (box : UvMcCube.t) (others : list ref)
    : option ref :=
  match others with
  | [] => None
  | other_box :: rest =>
      if UvMcCube.collides box (UvMcCube.base (h !!! other_box))
      then Some other_box
      else first_collision h box rest
  end.

(** What one pass through the body of the [while] loop does. *)
Inductive step :=
  | Continue (suggestion_i : nat) (st : run)  (* next index to look at *)
  | Break (st : run).                         (* the box was accepted *)

(** The body of the [while] loop for the box [box], looking at
    [suggestions[i]] (the value of [suggestion_i] after its increment). *)
Definition scan_body (width : Z) (height : option Z) (box : ref)
    (i : nat) (s : suggestion) (st : run) : step :=
  (* box.apply_suggestion(suggestions[suggestion_i]) *)
  let h := <[box := UvMcCube.apply_suggestion (store st !!! box) s]> (store st) in
  let b := h !!! box in
  if _is_out_of_bounds width height s.1 (0, 0) then
    (* del suggestions[suggestion_i]; suggestion_i -= 1 *)
    Continue i (Run (delete i (suggestions st)) (authors st) (mapped_boxes st) h)
  else if negb (_is_out_of_bounds width height
                  (UvBox.uv (UvMcCube.base b)) (UvBox.size (UvMcCube.base b))) then
    match first_collision h b (mapped_boxes st) with
    | Some other_box =>
        if bool_decide (other_box ∈ authors st) then
          Continue (S i) (Run (suggestions st) (authors st) (mapped_boxes st) h)
        else
          Continue (S i)
            (Run (suggestions st ++ UvMcCube.suggest_positions (h !!! other_box))
                 (authors st ++ [other_box]) (mapped_boxes st) h)
    | None =>
        let h' := <[box := UvMcCube.set_is_mapped b true]> h in
        Break (Run (delete i (suggestions st ++
                                UvMcCube.suggest_positions (h' !!! box)))
                   (authors st) (mapped_boxes st ++ [box]) h')
    end
  else Continue (S i) (Run (suggestions st) (authors st) (mapped_boxes st) h).

(** The [while ... else] loop: [Some (true, st)] when the loop was left by
    [break], [Some (false, st)] when its condition became false, [None] when
    the fuel ran out. *)
Fixpoint scan (fuel : nat) (width : Z) (height : option Z) (box : ref)
    (i : nat) (st : run) : option (bool * run) :=
  match fuel with
  | O => None
  | S fuel' =>
      match suggestions st !! i with
      | None => Some (false, st)
      | Some s =>
          match scan_body width height box i s st with
          | Continue i' st' => scan fuel' width height box i' st'
          | Break st' => Some (true, st')
          end
      end
  end.

(** Passes of the [while] loop that are enough for one box: every pass
    consumes a queue entry or moves past one, and the queue grows only when
    a box of [mapped_boxes] becomes an author. *)
Definition scan_fuel (st : run) : nat :=
  S (length (suggestions st) + 12 * length (mapped_boxes st)).

(** [for box in unmapped_boxes: ...] *)
Fixpoint place_all (width : Z) (height : option Z) (unmapped_boxes : list ref)
    (st : run) : option (bool * run) :=
  match unmapped_boxes with
  | [] => Some (true, st)
  | box :: rest =>
      match scan (scan_fuel st) width height box 0 st with
      | None => None
      | Some (true, st') => place_all width height rest st'
      | Some (false, st') =>
          (* box.uv = (0, 0); return False *)
          Some (false,
                Run (suggestions st') (authors st') (mapped_boxes st')
                    (<[box := UvMcCube.set_uv (store st' !!! box) (0, 0)]>
                       (store st')))
      end
  end.

Section plan_uv.

(** [list(set(boxes))]: the boxes hash by identity, so the order in which
    a set yields them is a function of the references. *)
Variable set_iter : list ref → list ref.

Definition sorted_boxes (boxes : list ref) (h : heap) : list ref :=
  sort_desc h (set_iter boxes).

Definition mapped_on_entry (boxes : list ref) (h : heap) : list ref :=
  filter (λ r, UvBox.is_mapped (UvMcCube.base (h !!! r)) = true)
         (sorted_boxes boxes h).

Definition unmapped_on_entry (boxes : list ref) (h : heap) : list ref :=
  filter (λ r, UvBox.is_mapped (UvMcCube.base (h !!! r)) ≠ true)
         (sorted_boxes boxes h).

Definition plan_uv_run (boxes : list ref) (width : Z) (height : option Z)
    (h : heap) : option (bool * run) :=
  place_all width height (unmapped_on_entry boxes h)
    (Run [((0, 0), TOP_LEFT)] [] (mapped_on_entry boxes h) h).

(** [plan_uv(boxes, width, height=None)]: the returned boolean and the
    store it leaves. *)
Definition plan_uv (boxes : list ref) (width : Z) (height : option Z)
    (h : heap) : option (bool * gmap positive UvMcCube.t) :=
  prod_map id store <$> plan_uv_run boxes width height h.

End plan_uv.

(** An iteration order for the examples: every box once, where it occurs
    last in the input. *)
Definition last_seen (l : list ref) : list ref := remove_dups l.

Definition cube_uv (h : heap) (r : ref) : point :=
  UvBox.uv (UvMcCube.base (h !!! r)).

(** *** Notions used to state the properties of the packer *)

(** What [list(set(boxes))] guarantees: every box once, in some order. *)
Record set_iteration (set_iter : list ref → list ref) : Prop := {
  set_iter_NoDup : ∀ l, NoDup (set_iter l);
  set_iter_elem : ∀ l x, x ∈ set_iter l ↔ x ∈ l }.

(** Between two states of the [while] loop of [box]: the store differs at
    [box] only, where the size is kept, and [mapped_boxes] is the same. *)
Definition same_but_box (box : ref) (st st' : run) : Prop :=
  mapped_boxes st' = mapped_boxes st ∧
  (∀ r, r ≠ box → store st' !!! r = store st !!! r) ∧
  UvBox.size (UvMcCube.base (store st' !!! box)) =
  UvBox.size (UvMcCube.base (store st !!! box)).

(** The state of a box that was accepted. *)
Definition placed (width : Z) (height : option Z) (h0 h : heap) (r : ref)
    : Prop :=
  let b := UvMcCube.base (h !!! r) in
  UvBox.is_mapped b = true ∧
  UvBox.size b = UvBox.size (UvMcCube.base (h0 !!! r)) ∧
  _is_out_of_bounds width height (UvBox.uv b) (UvBox.size b) = false.

(** Boxes of [mapped_boxes] that are not authors yet: each of them can
    still add its twelve suggestions to the queue, once. *)
Definition unauthored (st : run) : nat :=
  length (filter (λ m, m ∉ authors st) (mapped_boxes st)).

Definition scan_measure (i : nat) (st : run) : nat :=
  (length (suggestions st) - i + 12 * unauthored st)%nat.

(** [a] comes before [b] in the list [l]. *)
Definition precedes (l : list ref) (a b : ref) : Prop :=
  ∃ i j, (i < j)%nat ∧ l !! i = Some a ∧ l !! j = Some b.

(** The order that the stable sort makes of the list [l]: by descending
    bounding width, and as in [l] among boxes of the same bounding width. *)
Definition stable_order (h : heap) (l : list ref) (a b : ref) : Prop :=
  sort_key h b < sort_key h a ∨
  sort_key h a = sort_key h b ∧ precedes l a b.

(** Two runs on boxes that are equal up to their identities: [f] sends the
    references of the first run, those of [X], to the references of the
    second, and the stores hold the same objects at them. *)
Definition ren_agree (f : ref → ref) (X : ref → Prop) (h1 h2 : heap) : Prop :=
  ∀ r, X r → h2 !!! f r = h1 !!! r.

Definition ren_inj (f : ref → ref) (X : ref → Prop) : Prop :=
  ∀ x y, X x → X y → f x = f y → x = y.

Definition run_ren (f : ref → ref) (X : ref → Prop) (st1 st2 : run) : Prop :=
  suggestions st2 = suggestions st1 ∧
  authors st2 = f <$> authors st1 ∧
  mapped_boxes st2 = f <$> mapped_boxes st1 ∧
  ren_agree f X (store st1) (store st2) ∧
  (∀ o, o ∈ mapped_boxes st1 → X o) ∧
  (∀ o, o ∈ authors st1 → X o).

(** The outcomes of two passes, or of two loops, that went the same way. *)
Definition step_ren (f : ref → ref) (X : ref → Prop) (x y : step) : Prop :=
  match x, y with
  | Continue i1 a, Continue i2 b => i1 = i2 ∧ run_ren f X a b
  | Break a, Break b => run_ren f X a b
  | _, _ => False
  end.

Definition result_ren (f : ref → ref) (X : ref → Prop)
    (x y : option (bool * run)) : Prop :=
  match x, y with
  | Some (ok1, a), Some (ok2, b) => ok1 = ok2 ∧ run_ren f X a b
  | None, None => True
  | _, _ => False
  end.

(** The cell of [self] in the corner [c]; [suggest_positions] and
    [apply_suggestion] reach the far corners with the offsets [size - 1]. *)
Definition corner_cell (self : UvBox.t) (c : UvCorner) : point :=
  let ss := ((UvBox.size self).1 - 1, (UvBox.size self).2 - 1) in
  let uv := UvBox.uv self in
  match c with
  | TOP_LEFT => uv
  | TOP_RIGHT => (uv.1 + ss.1, uv.2)
  | BOTTOM_LEFT => (uv.1, uv.2 + ss.2)
  | BOTTOM_RIGHT => (uv.1 + ss.1, uv.2 + ss.2)
  end.

(** ** Construction *)

(** How a call ends: with a value, or with an exception. *)
Inductive outcome (A : Type) :=
  | Returned (a : A)
  | Raised.
Arguments Returned {A} a.
Arguments Raised {A}.

(** The calls [UvBox(size, uv)] and [UvMcCube(width, depth, height, uv)]:
    neither [__init__] has a [raise] or an [assert]. *)
Definition UvBox_new (size : point) (uv : option point) : outcome UvBox.t :=
  Returned (UvBox.init size uv).

Definition UvMcCube_new (width depth height : Z) (uv : option point)
    : outcome UvMcCube.t :=
  Returned (UvMcCube.init width depth height uv).

(** ** The grouping adapter [get_uv_mc_cubes] *)

(** What [get_uv_mc_cubes] reads from an object of the scene. The triple
    [w, h, d] is the one the code obtains by rounding the scaled size (less
    the inflation); the floating point computation before the rounding is
    not modelled. *)
Record Object := {
  name : string;
  rounded_scale : Z * Z * Z;                (* w, h, d *)
  mc_uv : option (Z * Z);                   (* obj['mc_uv'] *)
  mc_uv_group : option string }.            (* obj['mc_uv_group'] *)

(** The locals [uv_groups] and [result], and the store in which the new
    cubes are allocated. *)
Record adapter := Adapter {
  uv_groups : gmap string (gmap (Z * Z * Z) positive);
  result : gmap string positive;
  cubes : gmap positive UvMcCube.t }.

(** A constructor call yields an object with a new identity. *)
Definition new_cube (h : heap) (c : UvMcCube.t) : ref * heap :=
  let r := fresh (dom h) in (r, <[r := c]> h).

(** The body of [for obj in objects]. *)
Definition get_uv_mc_cubes_body (read_existing_uvs : bool) (st : adapter)
    (obj : Object) : adapter :=
  let '(w, h, d) := rounded_scale obj in
  match (if read_existing_uvs then mc_uv obj else None) with
  | Some p =>
      let '(r, hp) := new_cube (cubes st) (UvMcCube.init w d h (Some p)) in
      Adapter (uv_groups st) (<[name obj := r]> (result st)) hp
  | None =>
      match mc_uv_group obj with
      | Some g =>
          let items := default ∅ (uv_groups st !! g) in
          match items !! (w, d, h) with
          | Some r =>
              Adapter (uv_groups st) (<[name obj := r]> (result st)) (cubes st)
          | None =>
              let '(r, hp) := new_cube (cubes st) (UvMcCube.init w d h None) in
              Adapter (<[g := <[(w, d, h) := r]> items]> (uv_groups st))
                      (<[name obj := r]> (result st)) hp
          end
      | None =>
          let '(r, hp) := new_cube (cubes st) (UvMcCube.init w d h None) in
          Adapter (uv_groups st) (<[name obj := r]> (result st)) hp
      end
  end.

Definition get_uv_mc_cubes_run (objects : list Object)
    (read_existing_uvs : bool) (h : heap) : adapter :=
  foldl (get_uv_mc_cubes_body read_existing_uvs) (Adapter ∅ ∅ h) objects.

(** [get_uv_mc_cubes(objects, read_existing_uvs)]: the returned dictionary,
    and the store with the cubes it created. *)
Definition get_uv_mc_cubes (objects : list Object) (read_existing_uvs : bool)
    (h : heap) : gmap string positive * gmap positive UvMcCube.t :=
  let st := get_uv_mc_cubes_run objects read_existing_uvs h in
  (result st, cubes st).

(** An object whose cube comes from its group: it has a group, and no
    placement is read from it. *)
Definition grouped (read_existing_uvs : bool) (g : string) (obj : Object)
    : Prop :=
  mc_uv_group obj = Some g ∧ (read_existing_uvs = false ∨ mc_uv obj = None).

(** The key of an object in the dictionary [items] of its group. *)
Definition items_key (obj : Object) : Z * Z * Z :=
  let '(w, h, d) := rounded_scale obj in (w, d, h).

(** Once the objects [l] are processed: a grouped object resolves to the
    cube registered for its group and size. *)
Definition group_inv (read_existing_uvs : bool) (l : list Object)
    (st : adapter) : Prop :=
  ∀ obj g, obj ∈ l → grouped read_existing_uvs g obj →
    ∃ r, result st !! name obj = Some r ∧
         default ∅ (uv_groups st !! g) !! items_key obj = Some r.

(** ** Concrete scenes *)

Definition two_cubes : gmap positive UvMcCube.t :=
  <[1%positive := UvMcCube.init 3 1 1 None]>
    (<[2%positive := UvMcCube.init 1 2 1 None]> ∅).

Definition two_small_cubes : gmap positive UvMcCube.t :=
  <[1%positive := UvMcCube.init 1 1 1 None]>
    (<[2%positive := UvMcCube.init 1 1 1 None]> ∅).

(** Another iteration order: the reverse of [last_seen]. *)
Definition reversed_order (l : list ref) : list ref :=
  reverse (remove_dups l).

(** A third iteration order: [last_seen] with its first two boxes
    exchanged. *)
Definition second_first (l : list ref) : list ref :=
  match remove_dups l with
  | a :: b :: rest => b :: a :: rest
  | short => short
  end.

(** Three cubes, (2, 2, 2), (4, 2, 2) and (2, 2, 4): the first and the
    third have the same bounding width. *)
Definition three_cubes : gmap positive UvMcCube.t :=
  <[1%positive := UvMcCube.init 2 2 2 None]>
    (<[2%positive := UvMcCube.init 4 2 2 None]>
       (<[3%positive := UvMcCube.init 2 2 4 None]> ∅)).

(** The same three cubes in a store that holds a fourth cube, which is not
    given to the packer. *)
Definition three_cubes_and_other : gmap positive UvMcCube.t :=
  <[7%positive := UvMcCube.init 1 1 1 None]> three_cubes.

(** Two objects of the group "A" and one without a group, all (3, 3, 3);
    and a scene in which a name is used twice. *)
Definition group_and_single : list Object :=
  [ {| name := "p"; rounded_scale := (3, 3, 3); mc_uv := None;
       mc_uv_group := Some "A"%string |};
    {| name := "q"; rounded_scale := (3, 3, 3); mc_uv := None;
       mc_uv_group := Some "A"%string |};
    {| name := "r"; rounded_scale := (3, 3, 3); mc_uv := None;
       mc_uv_group := None |} ].

Definition name_twice : list Object :=
  [ {| name := "p"; rounded_scale := (3, 3, 3); mc_uv := None;
       mc_uv_group := Some "A"%string |};
    {| name := "q"; rounded_scale := (3, 3, 3); mc_uv := None;
       mc_uv_group := Some "A"%string |};
    {| name := "p"; rounded_scale := (1, 1, 1); mc_uv := None;
       mc_uv_group := None |} ].

(** The store that [plan_uv] leaves for [two_cubes] in an atlas of width 13
    and height 3. *)
Definition two_cubes_packed : gmap positive UvMcCube.t :=
  default ∅ (snd <$> plan_uv last_seen [2; 1]%positive 13 (Some 3) two_cubes).

(** The store that [plan_uv] leaves for [two_cubes] in an atlas of width 8
    and height 2, where the second cube finds no place. *)
Definition two_cubes_failed : gmap positive UvMcCube.t :=
  default ∅ (snd <$> plan_uv last_seen [2; 1]%positive 8 (Some 2) two_cubes).

(** A cube with a placement of its own and a free cube. *)
Definition fixed_and_free : gmap positive UvMcCube.t :=
  <[1%positive := UvMcCube.init 3 3 3 (Some (5, 5))]>
    (<[2%positive := UvMcCube.init 3 3 3 None]> ∅).

(** A cube of bounding width 10. *)
Definition wide_cube : gmap positive UvMcCube.t :=
  <[1%positive := UvMcCube.init 3 2 4 None]>
    (<[2%positive := UvMcCube.init 1 1 1 None]> ∅).

Definition group_A : list Object :=
  [ {| name := "a"; rounded_scale := (3, 3, 3); mc_uv := Some (5, 5);
       mc_uv_group := Some "A"%string |};
    {| name := "b"; rounded_scale := (3, 3, 3); mc_uv := None;
       mc_uv_group := Some "A"%string |};
    {| name := "c"; rounded_scale := (3, 3, 3); mc_uv := None;
       mc_uv_group := Some "A"%string |} ].

(** Packing the cubes of a scene: the adapter, then the packer on the
    cubes of the given names. *)
Definition pack_scene (objects : list Object) (read_existing_uvs : bool)
    (names : list string) (width : Z) (height : option Z)
    : gmap string positive * option (bool * gmap positive UvMcCube.t) :=
  let '(res, h) := get_uv_mc_cubes objects read_existing_uvs ∅ in
  (res, plan_uv last_seen (omap (λ n, res !! n) names) width height h).

(** ** Notions used to state further properties of the classes *)

(** The cells of a box: [u <= x < u + size[0]], [v <= y < v + size[1]]. *)
Definition has_cell (b : UvBox.t) (x y : Z) : Prop :=
  (UvBox.uv b).1 ≤ x < (UvBox.uv b).1 + (UvBox.size b).1 ∧
  (UvBox.uv b).2 ≤ y < (UvBox.uv b).2 + (UvBox.size b).2.

(** The rectangle of [f] lies within the rectangle of [b]. *)
Definition inside (f b : UvBox.t) : Prop :=
  (UvBox.uv b).1 ≤ (UvBox.uv f).1 ∧
  (UvBox.uv f).1 + (UvBox.size f).1 ≤ (UvBox.uv b).1 + (UvBox.size b).1 ∧
  (UvBox.uv b).2 ≤ (UvBox.uv f).2 ∧
  (UvBox.uv f).2 + (UvBox.size f).2 ≤ (UvBox.uv b).2 + (UvBox.size b).2.

(** A side of [a] lies on the line of the opposite side of [b]. *)
Definition touches (a b : UvBox.t) : Prop :=
  (UvBox.uv a).1 + (UvBox.size a).1 = (UvBox.uv b).1 ∨
  (UvBox.uv b).1 + (UvBox.size b).1 = (UvBox.uv a).1 ∨
  (UvBox.uv a).2 + (UvBox.size a).2 = (UvBox.uv b).2 ∨
  (UvBox.uv b).2 + (UvBox.size b).2 = (UvBox.uv a).2.

(** The layout of a cube, as [__init__] and the setter of [uv] make it:
    the bounding size and the sizes of the faces come from the three
    dimensions, the positions of the faces from the position of the cube. *)
Definition cube_layout (c : UvMcCube.t) : Prop :=
  let p := UvBox.uv (UvMcCube.base c) in
  let w := UvMcCube.width c in
  let d := UvMcCube.depth c in
  let h := UvMcCube.height c in
  UvBox.size (UvMcCube.base c) = (2 * d + 2 * w, h + d) ∧
  (UvBox.size (UvMcCube.right c) = (d, h) ∧
   UvBox.uv (UvMcCube.right c) = (p.1, p.2 + d)) ∧
  (UvBox.size (UvMcCube.front c) = (w, h) ∧
   UvBox.uv (UvMcCube.front c) = (p.1 + d, p.2 + d)) ∧
  (UvBox.size (UvMcCube.left c) = (d, h) ∧
   UvBox.uv (UvMcCube.left c) = (p.1 + d + w, p.2 + d)) ∧
  (UvBox.size (UvMcCube.back c) = (w, h) ∧
   UvBox.uv (UvMcCube.back c) = (p.1 + 2 * d + w, p.2 + d)) ∧
  (UvBox.size (UvMcCube.top c) = (w, d) ∧
   UvBox.uv (UvMcCube.top c) = (p.1 + d, p.2)) ∧
  (UvBox.size (UvMcCube.bottom c) = (w, d) ∧
   UvBox.uv (UvMcCube.bottom c) = (p.1 + d + w, p.2)).

(** A cube in its layout, of dimensions that are not negative. *)
Definition cube_ok (c : UvMcCube.t) : Prop :=
  cube_layout c ∧
  0 ≤ UvMcCube.width c ∧ 0 ≤ UvMcCube.depth c ∧ 0 ≤ UvMcCube.height c.

(** What no method changes after the construction: the dimensions, the
    bounding size and the sizes of the faces. *)
Definition shape (c : UvMcCube.t) : (Z * Z * Z) * (Z * Z) * list (Z * Z) :=
  ((UvMcCube.width c, UvMcCube.depth c, UvMcCube.height c),
   UvBox.size (UvMcCube.base c),
   UvBox.size <$> UvMcCube.faces c).

(** Between two states of a run: every object keeps its shape, and its
    layout if it has it. *)
Definition keeps_shape (st st' : run) : Prop :=
  ∀ r, shape (store st' !!! r) = shape (store st !!! r) ∧
       (cube_layout (store st !!! r) → cube_layout (store st' !!! r)).

(** Between two states of a run: every object keeps its flag [is_mapped]. *)
Definition keeps_flags (st st' : run) : Prop :=
  ∀ r, UvBox.is_mapped (UvMcCube.base (store st' !!! r)) =
       UvBox.is_mapped (UvMcCube.base (store st !!! r)).

(** A face inside the atlas. *)
Definition in_atlas (width : Z) (height : option Z) (f : UvBox.t) : Prop :=
  0 ≤ (UvBox.uv f).1 ∧ 0 ≤ (UvBox.uv f).2 ∧
  (UvBox.uv f).1 + (UvBox.size f).1 ≤ width ∧
  ∀ hg, height = Some hg → (UvBox.uv f).2 + (UvBox.size f).2 ≤ hg.

(** A list of boxes by descending bounding width, read in the store [h]. *)
Definition descending (h : heap) (l : list ref) : Prop :=
  ∀ i j a b, (i < j)%nat → l !! i = Some a → l !! j = Some b →
    sort_key h b ≤ sort_key h a.

(** ** Notions used to state further properties of the adapter *)

(** The placement that [get_uv_mc_cubes] reads from an object. *)
Definition read_uv (read_existing_uvs : bool) (obj : Object) : option point :=
  if read_existing_uvs then mc_uv obj else None.

(** The cube that the constructor builds for an object. *)
Definition cube_of (read_existing_uvs : bool) (obj : Object) : UvMcCube.t :=
  let '(w, h, d) := rounded_scale obj in
  UvMcCube.init w d h (read_uv read_existing_uvs obj).

(** Once the objects [l] are processed, starting from the store [h0]: the
    objects of [h0] are as they were; every object of [l] resolves to a new
    cube, built for it or for an object of its group and size; the cubes
    registered in the groups are those of grouped objects; and two objects
    resolve to one cube only through their group. *)
Definition adapter_inv (read_existing_uvs : bool) (h0 : heap)
    (l : list Object) (st : adapter) : Prop :=
  (∀ r, is_Some (h0 !! r) → cubes st !! r = h0 !! r) ∧
  (∀ obj, obj ∈ l →
     ∃ r, result st !! name obj = Some r ∧
          cubes st !! r = Some (cube_of read_existing_uvs obj) ∧
          h0 !! r = None) ∧
  (∀ g k r, default ∅ (uv_groups st !! g) !! k = Some r →
     ∃ obj, obj ∈ l ∧ grouped read_existing_uvs g obj ∧
            items_key obj = k ∧ result st !! name obj = Some r) ∧
  (∀ o1 o2 r, o1 ∈ l → o2 ∈ l →
     result st !! name o1 = Some r → result st !! name o2 = Some r →
     name o1 = name o2 ∨
     ∃ g, grouped read_existing_uvs g o1 ∧ grouped read_existing_uvs g o2 ∧
          items_key o1 = items_key o2).

(** ** Writing the coordinates of a face: [set_uv] *)

Section set_uv.

(** The coordinates are floating point numbers; the function only adds
    them, and the model takes the numbers and their addition as they
    come. *)
Variable T : Type.
Variable add : T → T → T.

(** [uv_data[uv_face[key]].uv = val]: [None] for the [KeyError] of a missing
    key and for the [IndexError] of a loop index out of range. *)
Definition write_loop (uv_face : gmap string nat) (key : string)
    (val : T * T) (uv_data : list (T * T)) : option (list (T * T)) :=
  idx ← uv_face !! key;
  if decide (idx < length uv_data)%nat then Some (<[idx := val]> uv_data)
  else None.

(** [order], after the two tests on [mirror_x] and [mirror_y]. *)
Definition loop_order (mirror_y mirror_x : bool) : list string :=
  let order := ["LD"; "RD"; "RU"; "LU"]%string in
  let order :=
    if mirror_x then (λ i, order !!! i) <$> [1; 0; 3; 2]%nat else order in
  let order :=
    if mirror_y then (λ i, order !!! i) <$> [2; 3; 0; 1]%nat else order in
  order.

(** [set_uv(obj, uv_face, crds, size, mirror_y, mirror_x)], on the loops
    [uv_data] of the active layer of [obj]. *)
Definition set_uv (uv_data : list (T * T)) (uv_face : gmap string nat)
    (crds size : T * T) (mirror_y mirror_x : bool) : option (list (T * T)) :=
  let order := loop_order mirror_y mirror_x in
  d1 ← write_loop uv_face (order !!! 0%nat) crds uv_data;
  d2 ← write_loop uv_face (order !!! 1%nat) (add crds.1 size.1, crds.2) d1;
  d3 ← write_loop uv_face (order !!! 2%nat)
         (add crds.1 size.1, add crds.2 size.2) d2;
  write_loop uv_face (order !!! 3%nat) (crds.1, add crds.2 size.2) d3.

(** The corners of the rectangle [crds], [size]: left or right, down or
    up. *)
Definition corner_uv (crds size : T * T) (key : string) : T * T :=
  if decide (key = "LD"%string) then crds
  else if decide (key = "RD"%string) then (add crds.1 size.1, crds.2)
  else if decide (key = "RU"%string)
       then (add crds.1 size.1, add crds.2 size.2)
  else (crds.1, add crds.2 size.2).

(** The corner whose coordinates the loop of [key] receives. *)
Definition mirrored (mirror_y mirror_x : bool) (key : string) : string :=
  let swap (a b c d : string) :=
    if decide (key = a) then b else if decide (key = b) then a
    else if decide (key = c) then d else if decide (key = d) then c
    else key in
  match mirror_y, mirror_x with
  | false, false => key
  | false, true => swap "LD" "RD" "LU" "RU"
  | true, false => swap "LD" "RU" "RD" "LU"
  | true, true => swap "LD" "LU" "RD" "RU"
  end%string.

End set_uv.

(** ** Wrapped Blender objects: [operator_func/common.py] *)

Module common.

Import Stdlib.Strings.Ascii.
Local Open Scope string_scope.

(** [class MCObjType(Enum)] *)
Inductive MCObjType := CUBE | BONE | BOTH | LOCATOR.

#[global] Instance MCObjType_eq_dec : EqDecision MCObjType.
Proof. solve_decision. Defined.

(** [class ObjectId(NamedTuple)]: the tuple [(name, bone_name)]. *)
Abbreviation ObjectId := (string * string)%type (only parsing).

(** How a call ends: with a value or with one of the exceptions of the
    module. *)
Inductive result (A : Type) :=
  | Ok (a : A)
  | KeyError
  | NameConflictException (name : string)
  | Exception (parent_type : string).
Arguments Ok {A} a.
Arguments KeyError {A}.
Arguments NameConflictException {A} name.
Arguments Exception {A} parent_type.

(** The values the setters below store in the custom properties of a
    Blender object: a list of integers, a string, and the empty
    dictionary. *)
Inductive IDProp := IDArray (l : list Z) | IDString (s : string) | IDGroup.

(** The items of the tuple that [tuple(value)] builds. *)
Inductive item := IInt (z : Z) | IChar (c : ascii).

Definition tuple (v : IDProp) : list item :=
  match v with
  | IDArray l => IInt <$> l
  | IDString s => IChar <$> String.list_ascii_of_string s
  | IDGroup => []
  end.

(** A bone of [obj.data.bones]: its name, the name of [bone.parent] and
    [len(bone.children)]. *)
Record Bone := {
  bone_name : string;
  bone_parent : option string;
  bone_children : nat }.

(** What the module reads from a Blender object: [obj.name], [obj.type],
    the custom properties ([key in obj], [obj[key]]), [obj.parent],
    [obj.parent_type], [obj.parent_bone], [len(obj.children)], the bones of
    [obj.data.bones] and the names of the bones of [obj.pose.bones]. *)
#[local] Unset Elimination Schemes.
Inductive Object := Build_Object {
  obj_name : string;
  obj_type : string;
  props : gmap string IDProp;
  obj_parent : option Object;
  parent_type : string;
  parent_bone : string;
  children : nat;
  bones : list Bone;
  pose_bones : list string }.
#[local] Set Elimination Schemes.

(** *** The accessors of the custom properties

    They read and write the custom properties of [self.thisobj], here the
    dictionary [thisobj]. *)

Definition mc_uv (thisobj : gmap string IDProp) : option (list item) :=
  match thisobj !! "mc_uv" with
  | Some value => Some (tuple value)
  | None => None
  end.

Definition set_mc_uv (uv : option (Z * Z)) (thisobj : gmap string IDProp)
    : gmap string IDProp :=
  match uv with
  | Some uv => <["mc_uv" := IDArray [uv.1; uv.2]]> thisobj
  | None =>
      if decide ("mc_uv" ∈ dom thisobj) then delete "mc_uv" thisobj
      else thisobj
  end.

Definition mc_mirror (thisobj : gmap string IDProp) : bool :=
  bool_decide ("mc_mirror" ∈ dom thisobj).

Definition set_mc_mirror (mc_mirror : bool) (thisobj : gmap string IDProp)
    : gmap string IDProp :=
  if mc_mirror then <["mc_mirror" := IDGroup]> thisobj
  else if decide ("mc_mirror" ∈ dom thisobj) then delete "mc_mirror" thisobj
  else thisobj.

Definition mc_is_bone (thisobj : gmap string IDProp) : bool :=
  bool_decide ("mc_is_bone" ∈ dom thisobj).

Definition set_mc_is_bone (mc_is_bone : bool) (thisobj : gmap string IDProp)
    : gmap string IDProp :=
  if mc_is_bone then <["mc_is_bone" := IDGroup]> thisobj
  else if decide ("mc_is_bone" ∈ dom thisobj)
       then delete "mc_is_bone" thisobj
  else thisobj.

Definition mc_uv_group (thisobj : gmap string IDProp) : option IDProp :=
  match thisobj !! "mc_uv_group" with
  | Some value => Some value
  | None => None
  end.

Definition set_mc_uv_group (mc_uv_group : option string)
    (thisobj : gmap string IDProp) : gmap string IDProp :=
  match mc_uv_group with
  | Some g => <["mc_uv_group" := IDString g]> thisobj
  | None =>
      if decide ("mc_uv_group" ∈ dom thisobj)
      then delete "mc_uv_group" thisobj
      else thisobj
  end.

(** *** [class McblendObject] *)

Record McblendObject := {
  thisobj_id : ObjectId;
  thisobj : Object;
  parentobj_id : option ObjectId;
  mcchildren : list ObjectId;
  mctype : MCObjType }.

(** [s.split('.')[0]]: the text before the first dot, all of [s] when it has
    none. *)
Fixpoint split_first (s : string) : string :=
  match s with
  | EmptyString => EmptyString
  | String c s' =>
      if decide (c = "."%char) then EmptyString else String c (split_first s')
  end.

(** [collection[key]] for a Blender collection of named items: the first
    item of that name, or [KeyError]. *)
Definition by_name {A} (item_name : A → string) (key : string)
    (collection : list A) : result A :=
  match list_find (λ x, item_name x = key) collection with
  | Some (_, x) => Ok x
  | None => KeyError
  end.

(** [McblendObject.name(self)] *)
Definition name (self : McblendObject) : result string :=
  if decide (obj_type (thisobj self) = "ARMATURE") then
    match by_name id (thisobj_id self).2 (pose_bones (thisobj self)) with
    | Ok bone => Ok bone
    | _ => KeyError
    end
  else Ok (split_first (obj_name (thisobj self))).

(** *** [class McblendObjectGroup] *)

(** The dictionary [self.data], in insertion order. *)
Abbreviation data := (list ((string * string) * McblendObject)) (only parsing).

(** [self.data[key]] *)
Definition getitem (d : data) (key : ObjectId) : result McblendObject :=
  match list_find (λ kv, kv.1 = key) d with
  | Some (_, kv) => Ok kv.2
  | None => KeyError
  end.

(** [self.data[key] = value]: a key already there keeps its place. *)
Definition setitem (key : ObjectId) (value : McblendObject) (d : data)
    : data :=
  if decide (key ∈ d.*1)
  then (λ kv, if decide (kv.1 = key) then (key, value) else kv) <$> d
  else d ++ [(key, value)].

(** The property [McblendObject.parent], in the group [d]. *)
Definition parent (d : data) (self : McblendObject)
    : option McblendObject :=
  match parentobj_id self with
  | None => None
  | Some p => match getitem d p with Ok o => Some o | _ => None end
  end.

(** [_loop_objects(objects)]: what the generator yields, in order. *)
Definition _loop_objects (objects : list Object)
    : list (ObjectId * Object) :=
  objects ≫= λ obj,
    if decide (obj_type obj ∈ ["MESH"; "EMPTY"])
    then [((obj_name obj, ""), obj)]
    else if decide (obj_type obj = "ARMATURE")
    then (λ bone, ((obj_name obj, bone_name bone), obj)) <$> bones obj
    else [].

(** [_get_parent_mc_bone(obj)]: the loop, from [obj] and [obj_id]. Every
    turn goes to the parent of [obj], which is how the recursion ends. *)
Fixpoint get_parent_mc_bone_loop (obj : Object) (obj_id : option ObjectId)
    : result (option ObjectId) :=
  match obj with
  | Build_Object _ _ _ None _ _ _ _ _ => Ok obj_id
  | Build_Object _ _ _ (Some p) parent_type parent_bone _ _ _ =>
      if decide (parent_type = "BONE")
      then Ok (Some (obj_name p, parent_bone))
      else if decide (parent_type = "OBJECT")
      then
        let obj_id := (obj_name p, "") in
        if decide (obj_type p = "EMPTY" ∨ "mc_is_bone" ∈ dom (props p))
        then Ok (Some obj_id)
        else get_parent_mc_bone_loop p (Some obj_id)
      else Exception parent_type
  end.

Definition _get_parent_mc_bone (obj : Object) : result (option ObjectId) :=
  get_parent_mc_bone_loop obj None.

(** The objects above [obj]: its parent, the parent of its parent and so
    on. *)
Fixpoint ancestors (obj : Object) : list Object :=
  match obj with
  | Build_Object _ _ _ None _ _ _ _ _ => []
  | Build_Object _ _ _ (Some p) _ _ _ _ _ => p :: ancestors p
  end.

(** One turn of the first loop of [_load_objects]. *)
Definition load_object (d : data) (yielded : ObjectId * Object)
    : result data :=
  let '(obj_id, obj) := yielded in
  let store curr_obj_mc_parent curr_obj_mc_type :=
    setitem obj_id
      {| thisobj_id := obj_id; thisobj := obj;
         parentobj_id := curr_obj_mc_parent; mcchildren := [];
         mctype := curr_obj_mc_type |} d in
  if decide (obj_type obj = "EMPTY") then
    let curr_obj_mc_type :=
      if decide (obj_parent obj ≠ None ∧ children obj = 0%nat ∧
                 "mc_is_bone" ∉ dom (props obj))
      then LOCATOR else BONE in
    if decide (obj_parent obj ≠ None) then
      match _get_parent_mc_bone obj with
      | Ok curr_obj_mc_parent =>
          Ok (store curr_obj_mc_parent curr_obj_mc_type)
      | KeyError => KeyError
      | NameConflictException n => NameConflictException n
      | Exception t => Exception t
      end
    else Ok (store None curr_obj_mc_type)
  else if decide (obj_type obj = "MESH") then
    if decide (obj_parent obj = None ∨ "mc_is_bone" ∈ dom (props obj))
    then Ok (store None BOTH)
    else
      match _get_parent_mc_bone obj with
      | Ok curr_obj_mc_parent => Ok (store curr_obj_mc_parent CUBE)
      | KeyError => KeyError
      | NameConflictException n => NameConflictException n
      | Exception t => Exception t
      end
  else if decide (obj_type obj = "ARMATURE") then
    match by_name bone_name obj_id.2 (bones obj) with
    | Ok bone =>
        if decide (bone_parent bone = None ∧ bone_children bone = 0%nat)
        then Ok d
        else
          Ok (store
                (match bone_parent bone with
                 | Some parent_name => Some (obj_name obj, parent_name)
                 | None => None
                 end) BONE)
    | _ => KeyError
    end
  else Ok d.

(** The first loop of [_load_objects], which stops at the first
    exception. *)
Fixpoint load_objects_loop (d : data) (yielded : list (ObjectId * Object))
    : result data :=
  match yielded with
  | [] => Ok d
  | y :: rest =>
      match load_object d y with
      | Ok d' => load_objects_loop d' rest
      | err => err
      end
  end.

(** [self.data[key].mcchildren.append(objid)] *)
Definition append_child (key objid : ObjectId) (d : data) : data :=
  (λ kv, if decide (kv.1 = key)
         then (kv.1, {| thisobj_id := thisobj_id kv.2;
                        thisobj := thisobj kv.2;
                        parentobj_id := parentobj_id kv.2;
                        mcchildren := mcchildren kv.2 ++ [objid];
                        mctype := mctype kv.2 |})
         else kv) <$> d.

(** The second loop of [_load_objects], over the items of [self.data]. *)
Definition fill_children (d : data) : data :=
  foldl (λ acc kv,
           match parentobj_id kv.2 with
           | Some p => if decide (p ∈ acc.*1) then append_child p kv.1 acc
                       else acc
           | None => acc
           end) d d.

(** [_load_objects(context)], on [context.selected_objects]. *)
Definition _load_objects (selected_objects : list Object) : result data :=
  match load_objects_loop [] (_loop_objects selected_objects) with
  | Ok d => Ok (fill_children d)
  | err => err
  end.

(** [_check_name_conflicts()]: the loop over [self.values()], from
    [names]. *)
Fixpoint check_name_conflicts_loop (values : list McblendObject)
    (names : list string) : result unit :=
  match values with
  | [] => Ok tt
  | objprop :: rest =>
      if decide (mctype objprop ∉ [BONE; BOTH])
      then check_name_conflicts_loop rest names
      else
        match name objprop with
        | Ok n =>
            if decide (n ∈ names) then NameConflictException n
            else check_name_conflicts_loop rest (names ++ [n])
        | KeyError => KeyError
        | NameConflictException n => NameConflictException n
        | Exception t => Exception t
        end
  end.

Definition _check_name_conflicts (d : data) : result unit :=
  check_name_conflicts_loop d.*2 [].

(** [McblendObjectGroup(context)]: the constructor. *)
Definition McblendObjectGroup (selected_objects : list Object)
    : result data :=
  match _load_objects selected_objects with
  | Ok d =>
      match _check_name_conflicts d with
      | Ok _ => Ok d
      | KeyError => KeyError
      | NameConflictException n => NameConflictException n
      | Exception t => Exception t
      end
  | err => err
  end.

(** The text [s] has no dot. *)
Definition no_dot (s : string) : Prop :=
  "."%char ∉ String.list_ascii_of_string s.

(** An object that counts in the test of the names. *)
Definition is_bone (objprop : McblendObject) : Prop :=
  mctype objprop ∈ [BONE; BOTH].

(** [objprop] with the list [l] for its children. *)
Definition with_children (l : list ObjectId) (objprop : McblendObject)
    : McblendObject :=
  {| thisobj_id := thisobj_id objprop; thisobj := thisobj objprop;
     parentobj_id := parentobj_id objprop; mcchildren := l;
     mctype := mctype objprop |}.

(** The keys of the objects of [d] whose parent id is [key], in the order
    of [d]. *)
Definition children_of (d : data) (key : ObjectId) : list ObjectId :=
  (filter (λ kv, parentobj_id kv.2 = Some key) d).*1.

(** What [_load_objects] makes of a Blender object, kind by kind. *)
Definition classified (objprop : McblendObject) : Prop :=
  let obj := thisobj objprop in
  match mctype objprop with
  | LOCATOR =>
      obj_type obj = "EMPTY" ∧ obj_parent obj ≠ None ∧
      children obj = 0%nat ∧ ("mc_is_bone" ∉ dom (props obj)) ∧
      parentobj_id objprop ≠ None
  | CUBE =>
      obj_type obj = "MESH" ∧ obj_parent obj ≠ None ∧
      ("mc_is_bone" ∉ dom (props obj)) ∧ parentobj_id objprop ≠ None
  | BOTH =>
      obj_type obj = "MESH" ∧
      (obj_parent obj = None ∨ "mc_is_bone" ∈ dom (props obj)) ∧
      parentobj_id objprop = None
  | BONE =>
      obj_type obj = "EMPTY" ∧
      (obj_parent obj = None ∨ children obj ≠ 0%nat ∨
       "mc_is_bone" ∈ dom (props obj)) ∧
      (parentobj_id objprop = None ↔ obj_parent obj = None) ∨
      obj_type obj = "ARMATURE" ∧
      ∃ bone, bone ∈ bones obj ∧ bone_name bone = (thisobj_id objprop).2 ∧
        (bone_parent bone ≠ None ∨ bone_children bone ≠ 0%nat) ∧
        parentobj_id objprop =
          (λ parent_name, (obj_name obj, parent_name)) <$> bone_parent bone
  end.

#[global] Instance is_bone_dec objprop : Decision (is_bone objprop).
Proof. unfold is_bone. apply _. Defined.

(** *** A scene

    A mesh [body] without parent, a mesh [arm] and below it an empty
    [holder], both parented by object, and an armature [rig] of two
    bones. *)

Definition body : Object :=
  Build_Object "body" "MESH" ∅ None "OBJECT" "" 1 [] [].

Definition arm : Object :=
  Build_Object "arm" "MESH" ∅ (Some body) "OBJECT" "" 1 [] [].

Definition holder : Object :=
  Build_Object "holder" "EMPTY" ∅ (Some arm) "OBJECT" "" 0 [] [].

Definition rig : Object :=
  Build_Object "rig" "ARMATURE" ∅ None "OBJECT" "" 0
    [ {| bone_name := "root"; bone_parent := None; bone_children := 1 |};
      {| bone_name := "tip"; bone_parent := Some "root";
         bone_children := 0 |} ]
    ["root"; "tip"].

Definition skeleton : list Object := [body; arm; holder; rig].

Definition skeleton_group : data :=
  [ (("body", ""),
     {| thisobj_id := ("body", ""); thisobj := body; parentobj_id := None;
        mcchildren := [("arm", ""); ("holder", "")]; mctype := BOTH |});
    (("arm", ""),
     {| thisobj_id := ("arm", ""); thisobj := arm;
        parentobj_id := Some ("body", ""); mcchildren := [];
        mctype := CUBE |});
    (("holder", ""),
     {| thisobj_id := ("holder", ""); thisobj := holder;
        parentobj_id := Some ("body", ""); mcchildren := [];
        mctype := LOCATOR |});
    (("rig", "root"),
     {| thisobj_id := ("rig", "root"); thisobj := rig; parentobj_id := None;
        mcchildren := [("rig", "tip")]; mctype := BONE |});
    (("rig", "tip"),
     {| thisobj_id := ("rig", "tip"); thisobj := rig;
        parentobj_id := Some ("rig", "root"); mcchildren := [];
        mctype := BONE |}) ].

(** A cube and its copy, as Blender names them. *)
Definition cube : McblendObject :=
  {| thisobj_id := ("Cube", "");
     thisobj := Build_Object "Cube" "MESH" ∅ None "OBJECT" "" 0 [] [];
     parentobj_id := None; mcchildren := []; mctype := BOTH |}.

Definition cube_copy : McblendObject :=
  {| thisobj_id := ("Cube.001", "");
     thisobj := Build_Object "Cube.001" "MESH" ∅ None "OBJECT" "" 0 [] [];
     parentobj_id := None; mcchildren := []; mctype := BOTH |}.

Definition cube_and_copy : data :=
  [(("Cube", ""), cube); (("Cube.001", ""), cube_copy)].

End common.

(** ** The model at work *)

Example suggest_positions_example :
  UvMcCube.suggest_positions (UvMcCube.init 3 1 1 None) =
  [((0, 0), BOTTOM_LEFT); ((0, 2), TOP_LEFT); ((-1, 1), BOTTOM_RIGHT);
   ((1, -1), BOTTOM_LEFT); ((0, 0), BOTTOM_RIGHT); ((0, 0), TOP_RIGHT);
   ((6, -1), BOTTOM_RIGHT); ((7, 0), TOP_LEFT); ((7, 0), BOTTOM_LEFT);
   ((7, 0), BOTTOM_RIGHT); ((8, 1), BOTTOM_LEFT); ((7, 2), TOP_RIGHT)].
Proof. reflexivity. Qed.

(** Three cubes in an atlas of width 16 and of any height: all are placed,
    stacked at the left edge, widest first. *)
Example three_cubes_run :
  (λ x, (x.1, cube_uv x.2 1%positive, cube_uv x.2 2%positive,
         cube_uv x.2 3%positive)) <$>
    plan_uv last_seen [1; 2; 3]%positive 16 None three_cubes =
  Some (true, (0, 4), (0, 0), (0, 8)).
Proof. vm_compute. reflexivity. Qed.

(** Among boxes of the same bounding width, the order of placement is the
    order in which the set yields them. *)
Example three_cubes_other_order :
  (λ x, (x.1, cube_uv x.2 1%positive, cube_uv x.2 2%positive,
         cube_uv x.2 3%positive)) <$>
    plan_uv reversed_order [1; 2; 3]%positive 16 None three_cubes =
  Some (true, (0, 10), (0, 0), (0, 4)).
Proof. vm_compute. reflexivity. Qed.

(** The two objects of the group share a cube; two positions in all. *)
Example group_and_single_run :
  let x := pack_scene group_and_single true ["p"; "q"; "r"]%string 64 None in
  (x.1 !! "p"%string, x.1 !! "q"%string, x.1 !! "r"%string,
   (λ y, (y.1, cube_uv y.2 1%positive, cube_uv y.2 2%positive)) <$> x.2) =
  (Some 1%positive, Some 1%positive, Some 2%positive,
   Some (true, (0, 0), (0, 6))).
Proof. vm_compute. reflexivity. Qed.

(** [result] is keyed by name: a later object of the same name replaces
    the cube of an earlier one. *)
Example name_twice_run :
  (get_uv_mc_cubes name_twice true ∅).1 !! "p"%string = Some 2%positive ∧
  (get_uv_mc_cubes name_twice true ∅).1 !! "q"%string = Some 1%positive.
Proof. vm_compute. done. Qed.

(** ** Basic facts on the classes *)

Lemma suggest_positions_length (c : UvMcCube.t) :
  length (UvMcCube.suggest_positions c) = 12%nat.
Proof. reflexivity. Qed.

Lemma first_collision_None (h : heap) (b : UvMcCube.t) (l : list ref) :
  first_collision h b l = None →
  ∀ o, o ∈ l → UvMcCube.collides b (UvMcCube.base (h !!! o)) = false.
Proof.
  induction l as [|x l IH]; simpl; intros Hn o Ho.
  - by apply elem_of_nil in Ho.
  - destruct (UvMcCube.collides b (UvMcCube.base (h !!! x))) eqn:E; [done|].
    apply elem_of_cons in Ho as [->|Ho]; auto.
Qed.

Lemma first_collision_Some (h : heap) (b : UvMcCube.t) (l : list ref) (o : ref) :
  first_collision h b l = Some o →
  o ∈ l ∧ UvMcCube.collides b (UvMcCube.base (h !!! o)) = true.
Proof.
  induction l as [|x l IH]; simpl; intros Hs; [done|].
  destruct (UvMcCube.collides b (UvMcCube.base (h !!! x))) eqn:E.
  - simplify_eq. split; [left|done].
  - destruct (IH Hs) as [? ?]. split; [by right|done].
Qed.

(** ** The [while] loop: what its passes preserve *)

Section scan_facts.

Variables (width : Z) (height : option Z) (box : ref).

(** Any reflexive and transitive relation kept by the passes that stay in
    the loop holds between the state on entry and the state in which the
    loop ends; when the loop ends by [break], the last pass is exhibited. *)
Lemma scan_inversion (R : run → run → Prop) :
  (∀ st, R st st) →
  (∀ a b c, R a b → R b c → R a c) →
  (∀ i s st i' st', suggestions st !! i = Some s →
     scan_body width height box i s st = Continue i' st' → R st st') →
  ∀ fuel i st ok st',
    scan fuel width height box i st = Some (ok, st') →
    if ok
    then ∃ j s st0, R st st0 ∧ suggestions st0 !! j = Some s ∧
                    scan_body width height box j s st0 = Break st'
    else R st st'.
Proof.
  intros Hrefl Htrans Hbody fuel.
  induction fuel as [|fuel IH]; intros i st ok st' Hscan; [done|].
  simpl in Hscan.
  destruct (suggestions st !! i) as [s|] eqn:Hs.
  - destruct (scan_body width height box i s st) as [i1 st1|st1] eqn:Hb.
    + specialize (IH _ _ _ _ Hscan). pose proof (Hbody _ _ _ _ _ Hs Hb) as H1.
      destruct ok.
      * destruct IH as (j & s' & st0 & HR & Hj & Hbr).
        exists j, s', st0. eauto.
      * eauto.
    + injection Hscan as <- <-. exists i, s, st. auto.
  - injection Hscan as <- <-. apply Hrefl.
Qed.

Lemma same_but_box_refl st : same_but_box box st st.
Proof. by split_and!. Qed.

Lemma same_but_box_trans a b c :
  same_but_box box a b → same_but_box box b c → same_but_box box a c.
Proof.
  intros (Hm1 & Hs1 & Hz1) (Hm2 & Hs2 & Hz2). split_and!; [congruence| |congruence].
  intros r Hr. rewrite Hs2; auto.
Qed.

Lemma scan_body_continue i s st i' st' :
  scan_body width height box i s st = Continue i' st' →
  same_but_box box st st'.
Proof.
  unfold scan_body. intros Hb.
  repeat case_match; simplify_eq; split_and!; simpl; try done;
    try (intros r Hr; by rewrite lookup_total_insert_ne);
    by rewrite lookup_total_insert_eq.
Qed.

(** The pass that accepts the box. *)
Lemma scan_body_break i s st st' :
  scan_body width height box i s st = Break st' →
  let b := UvMcCube.base (store st' !!! box) in
  mapped_boxes st' = mapped_boxes st ++ [box] ∧
  (∀ r, r ≠ box → store st' !!! r = store st !!! r) ∧
  UvBox.is_mapped b = true ∧
  UvBox.size b = UvBox.size (UvMcCube.base (store st !!! box)) ∧
  _is_out_of_bounds width height (UvBox.uv b) (UvBox.size b) = false ∧
  (∀ o, o ∈ mapped_boxes st → o ≠ box →
     UvMcCube.collides (store st' !!! box)
       (UvMcCube.base (store st' !!! o)) = false).
Proof.
  unfold scan_body. intros Hb.
  repeat case_match; simplify_eq. simpl.
  rewrite !lookup_total_insert_eq in *. simpl.
  split_and!; try done.
  - intros r Hr. by rewrite !lookup_total_insert_ne.
  - by apply negb_true_iff.
  - intros o Ho Hne. rewrite !lookup_total_insert_ne; [|done..].
    match goal with H : first_collision _ _ _ = None |- _ =>
      pose proof (first_collision_None _ _ _ H o Ho) as Hc end.
    by rewrite lookup_total_insert_ne in Hc.
Qed.

Lemma scan_continue_run fuel i st st' :
  scan fuel width height box i st = Some (false, st') →
  same_but_box box st st'.
Proof.
  intros Hscan.
  apply (scan_inversion (same_but_box box) same_but_box_refl same_but_box_trans
           (λ i s st i' st' _ H, scan_body_continue i s st i' st' H)
           _ _ _ _ _ Hscan).
Qed.

Lemma scan_accept_run fuel i st st' :
  scan fuel width height box i st = Some (true, st') →
  let b := UvMcCube.base (store st' !!! box) in
  mapped_boxes st' = mapped_boxes st ++ [box] ∧
  (∀ r, r ≠ box → store st' !!! r = store st !!! r) ∧
  UvBox.is_mapped b = true ∧
  UvBox.size b = UvBox.size (UvMcCube.base (store st !!! box)) ∧
  _is_out_of_bounds width height (UvBox.uv b) (UvBox.size b) = false ∧
  (∀ o, o ∈ mapped_boxes st → o ≠ box →
     UvMcCube.collides (store st' !!! box)
       (UvMcCube.base (store st' !!! o)) = false).
Proof.
  intros Hscan.
  pose proof (scan_inversion (same_but_box box) same_but_box_refl same_but_box_trans
           (λ i s st i' st' _ H, scan_body_continue i s st i' st' H)
           _ _ _ _ _ Hscan) as (j & s & st0 & (Hm & Hs & Hz) & Hj & Hbr).
  apply scan_body_break in Hbr as (Hm' & Hs' & Hmap & Hz' & Hin & Hcol).
  split_and!; try done.
  - by rewrite Hm', Hm.
  - intros r Hr. rewrite Hs'; auto.
  - congruence.
  - intros o Ho Hne. apply Hcol; [by rewrite Hm|done].
Qed.

End scan_facts.

(** ** Termination of the [while] loop *)

Lemma new_author_fewer (a m : list ref) (o : ref) :
  o ∈ m → o ∉ a →
  (length (filter (λ x, x ∉ a ++ [o]) m) <
   length (filter (λ x, x ∉ a) m))%nat.
Proof.
  intros Hm Ha.
  rewrite (list_filter_iff _ (λ x, x ≠ o ∧ x ∉ a)).
  - rewrite <- (list_filter_filter (λ x, x ≠ o) (λ x, x ∉ a)).
    apply (length_filter_lt _ _ o); [|by intros Hne].
    by apply list_elem_of_filter.
  - intros x. rewrite elem_of_app, list_elem_of_singleton. tauto.
Qed.

Lemma scan_body_measure width height box i s st i' st' :
  suggestions st !! i = Some s →
  scan_body width height box i s st = Continue i' st' →
  (scan_measure i' st' < scan_measure i st)%nat.
Proof.
  intros Hs Hb. pose proof (lookup_lt_Some _ _ _ Hs) as Hlt.
  unfold scan_body in Hb. unfold scan_measure, unauthored.
  repeat case_match; simplify_eq;
    cbn [suggestions authors mapped_boxes store]; try lia.
  - rewrite length_delete by eauto. lia.
  - match goal with H : first_collision _ _ _ = Some _ |- _ =>
      apply first_collision_Some in H as [Hin _] end.
    match goal with H : bool_decide _ = false |- _ =>
      apply bool_decide_eq_false in H;
      pose proof (new_author_fewer (authors st) (mapped_boxes st) _ Hin H)
    end.
    rewrite length_app, suggest_positions_length. lia.
Qed.

Lemma scan_total width height box fuel i st :
  (scan_measure i st < fuel)%nat →
  is_Some (scan fuel width height box i st).
Proof.
  revert i st. induction fuel as [|fuel IH]; intros i st Hm; [lia|].
  simpl. destruct (suggestions st !! i) as [s|] eqn:Hs; [|eauto].
  destruct (scan_body width height box i s st) as [i' st'|] eqn:Hb; [|eauto].
  pose proof (scan_body_measure _ _ _ _ _ _ _ _ Hs Hb). apply IH. lia.
Qed.

Lemma scan_fuel_enough (st : run) : (scan_measure 0 st < scan_fuel st)%nat.
Proof.
  unfold scan_measure, scan_fuel, unauthored.
  pose proof (length_filter (λ m, m ∉ authors st) (mapped_boxes st)). lia.
Qed.

Lemma place_all_total width height (l : list ref) (st : run) :
  is_Some (place_all width height l st).
Proof.
  revert st. induction l as [|box rest IH]; intros st; [simpl; eauto|].
  destruct (scan_total width height box (scan_fuel st) 0 st
              (scan_fuel_enough st)) as [[ok st'] Hscan].
  cbn [place_all]. rewrite Hscan. destruct ok; eauto.
Qed.

(** [plan_uv] always returns: the fuel of the model never runs out. *)
Lemma plan_uv_total set_iter boxes width height (h : heap) :
  is_Some (plan_uv set_iter boxes width height h).
Proof.
  unfold plan_uv, plan_uv_run.
  destruct (place_all_total width height (unmapped_on_entry set_iter boxes h)
    (Run [((0, 0), TOP_LEFT)] [] (mapped_on_entry set_iter boxes h) h))
    as [x ->].
  simpl. eauto.
Qed.

(** ** The [for] loop over the unmapped boxes *)

Section place_all_facts.

Variables (width : Z) (height : option Z).

(** Only the boxes the loop goes through are written. *)
Lemma place_all_frame (l : list ref) (st : run) ok st' :
  place_all width height l st = Some (ok, st') →
  ∀ r, r ∉ l → store st' !!! r = store st !!! r.
Proof.
  revert st. induction l as [|box rest IH]; intros st Hp r Hr.
  - simpl in Hp. by simplify_eq.
  - apply not_elem_of_cons in Hr as [Hne Hr]. cbn [place_all] in Hp.
    destruct (scan (scan_fuel st) width height box 0 st)
      as [[[] st1]|] eqn:Hscan; [| |done].
    + apply scan_accept_run in Hscan as (_ & Hs & _).
      rewrite (IH _ Hp r Hr). auto.
    + apply scan_continue_run in Hscan as (_ & Hs & _).
      simplify_eq. simpl. rewrite lookup_total_insert_ne by done. auto.
Qed.

Lemma place_all_app (l1 l2 : list ref) (st : run) :
  place_all width height (l1 ++ l2) st =
  match place_all width height l1 st with
  | Some (true, st1) => place_all width height l2 st1
  | other => other
  end.
Proof.
  revert st. induction l1 as [|box rest IH]; intros st; [done|].
  cbn [place_all app].
  destruct (scan (scan_fuel st) width height box 0 st)
    as [[[] st1]|]; auto.
Qed.

Lemma place_all_success (l : list ref) (st st' : run) :
  place_all width height l st = Some (true, st') →
  NoDup l →
  (∀ x, x ∈ l → x ∉ mapped_boxes st) →
  (∀ a, a ∈ l →
     placed width height (store st) (store st') a ∧
     ∀ o, o ∈ mapped_boxes st →
       UvMcCube.collides (store st' !!! a)
         (UvMcCube.base (store st' !!! o)) = false) ∧
  (∀ i j a b, (i < j)%nat → l !! i = Some b → l !! j = Some a →
     UvMcCube.collides (store st' !!! a)
       (UvMcCube.base (store st' !!! b)) = false).
Proof.
  revert st. induction l as [|box rest IH]; intros st Hp Hnd Hfresh.
  { split; [intros a Ha; by apply elem_of_nil in Ha|].
    intros i j a b _ Hi. by rewrite lookup_nil in Hi. }
  cbn [place_all] in Hp.
  destruct (scan (scan_fuel st) width height box 0 st)
    as [[[] st1]|] eqn:Hscan; [|done..].
  apply scan_accept_run in Hscan as (Hm & Hs & Hmap & Hz & Hin & Hcol).
  apply NoDup_cons in Hnd as [Hbox Hnd].
  assert (Hfresh1 : ∀ x, x ∈ rest → x ∉ mapped_boxes st1).
  { intros x Hx. rewrite Hm, elem_of_app, list_elem_of_singleton.
    intros [Hx'| ->]; [|done]. apply (Hfresh x); [by right|done]. }
  destruct (IH st1 Hp Hnd Hfresh1) as [IHa IHb].
  pose proof (place_all_frame _ _ _ _ Hp) as Hframe.
  assert (Hboxm : box ∈ mapped_boxes st1).
  { rewrite Hm, elem_of_app, list_elem_of_singleton. by right. }
  unfold placed in *. split.
  - intros a [->|Ha]%elem_of_cons.
    + rewrite (Hframe box Hbox). split; [done|].
      intros o Ho.
      assert (o ≠ box) by (intros ->; apply (Hfresh box); [left|done]).
      assert (o ∉ rest) by (intros Hor; apply (Hfresh o); [by right|done]).
      rewrite (Hframe o) by done. auto.
    + destruct (IHa a Ha) as [(P1 & P2 & P3) Hc]. split.
      * split_and!; try done. rewrite P2, Hs; [done|]. by intros ->.
      * intros o Ho. apply Hc. rewrite Hm, elem_of_app. by left.
  - intros i j a b Hij Hi Hj. destruct j as [|j]; [lia|].
    simpl in Hj. destruct i as [|i]; simpl in Hi.
    + simplify_eq. apply (IHa a); [by eapply list_elem_of_lookup_2|done].
    + apply (IHb i j); [lia|done..].
Qed.

End place_all_facts.

(** ** Deduplication, sorting and partition *)

Lemma last_seen_set_iteration : set_iteration last_seen.
Proof.
  split; intros l.
  - apply NoDup_remove_dups.
  - intros x. apply elem_of_remove_dups.
Qed.

Lemma reversed_order_set_iteration : set_iteration reversed_order.
Proof.
  split; intros l; unfold reversed_order.
  - rewrite reverse_Permutation. apply NoDup_remove_dups.
  - intros x. rewrite elem_of_reverse. apply elem_of_remove_dups.
Qed.

Lemma insert_desc_perm (h : heap) (x : ref) (l : list ref) :
  insert_desc h x l ≡ₚ x :: l.
Proof.
  induction l as [|y l IH]; simpl; [done|].
  case_match; [done|]. rewrite IH. apply Permutation_swap.
Qed.

Lemma sort_desc_perm (h : heap) (l : list ref) : sort_desc h l ≡ₚ l.
Proof.
  induction l as [|x l IH]; simpl; [done|].
  by rewrite insert_desc_perm, IH.
Qed.

Section partition_facts.

Context (set_iter : list ref → list ref) (Hset : set_iteration set_iter).
Variables (boxes : list ref) (h : heap).

Lemma sorted_boxes_NoDup : NoDup (sorted_boxes set_iter boxes h).
Proof.
  unfold sorted_boxes. rewrite sort_desc_perm. apply (set_iter_NoDup _ Hset).
Qed.

Lemma elem_of_sorted_boxes r : r ∈ sorted_boxes set_iter boxes h ↔ r ∈ boxes.
Proof.
  unfold sorted_boxes. rewrite sort_desc_perm. apply (set_iter_elem _ Hset).
Qed.

Lemma unmapped_on_entry_NoDup : NoDup (unmapped_on_entry set_iter boxes h).
Proof. apply NoDup_filter, sorted_boxes_NoDup. Qed.

Lemma elem_of_unmapped_on_entry r :
  r ∈ unmapped_on_entry set_iter boxes h ↔
  r ∈ boxes ∧ UvBox.is_mapped (UvMcCube.base (h !!! r)) = false.
Proof.
  unfold unmapped_on_entry.
  rewrite list_elem_of_filter, elem_of_sorted_boxes, not_true_iff_false.
  tauto.
Qed.

End partition_facts.

Lemma unmapped_not_mapped set_iter boxes (h : heap) r :
  r ∈ unmapped_on_entry set_iter boxes h →
  r ∉ mapped_on_entry set_iter boxes h.
Proof.
  unfold unmapped_on_entry, mapped_on_entry.
  rewrite !list_elem_of_filter. tauto.
Qed.

Lemma mapped_not_unmapped set_iter boxes (h : heap) r :
  UvBox.is_mapped (UvMcCube.base (h !!! r)) = true →
  r ∉ unmapped_on_entry set_iter boxes h.
Proof.
  unfold unmapped_on_entry. rewrite list_elem_of_filter. tauto.
Qed.

Lemma plan_uv_Some set_iter boxes width height (h : heap) ok h' :
  plan_uv set_iter boxes width height h = Some (ok, h') →
  ∃ st', plan_uv_run set_iter boxes width height h = Some (ok, st') ∧
         store st' = h'.
Proof.
  unfold plan_uv. destruct (plan_uv_run _ _ _ _ _) as [[ok1 st1]|]; simpl;
    intros ?; simplify_eq. eauto.
Qed.

Lemma in_bounds_iff width height (p sz : point) :
  _is_out_of_bounds width height p sz = false ↔
  0 ≤ p.1 ∧ 0 ≤ p.2 ∧ p.1 + sz.1 ≤ width ∧
  ∀ hg, height = Some hg → p.2 + sz.2 ≤ hg.
Proof.
  unfold _is_out_of_bounds.
  rewrite !orb_false_iff, !Z.ltb_ge.
  destruct height as [hg|].
  - rewrite Z.ltb_ge. split.
    + intros (((? & ?) & ?) & ?). split_and!; try done. by intros ? [= <-].
    + intros (? & ? & ? & Hh). split_and!; try done. by apply Hh.
  - split; [|tauto]. intros (((? & ?) & ?) & _). split_and!; try done.
Qed.

(** ** Two runs on boxes that are equal up to their identities *)

Section renaming.

Variables (width : Z) (height : option Z) (f : ref → ref) (X : ref → Prop).
Hypothesis Hinj : ren_inj f X.

Lemma ren_agree_insert (h1 h2 : heap) r c :
  X r → ren_agree f X h1 h2 → ren_agree f X (<[r:=c]> h1) (<[f r:=c]> h2).
Proof.
  intros Hr Ha x Hx. destruct (decide (r = x)) as [->|Hne].
  - by rewrite !lookup_total_insert_eq.
  - rewrite !lookup_total_insert_ne; [by apply Ha|done|].
    intros Heq. apply Hne. by apply Hinj.
Qed.

Lemma elem_of_fmap_ren o (l : list ref) :
  X o → (∀ x, x ∈ l → X x) → f o ∈ f <$> l ↔ o ∈ l.
Proof.
  intros Ho Hl. split.
  - intros (y & Heq & Hy)%list_elem_of_fmap.
    by rewrite (Hinj o y Ho (Hl y Hy) Heq).
  - apply list_elem_of_fmap_2.
Qed.

Lemma first_collision_ren (h1 h2 : heap) b (l : list ref) :
  ren_agree f X h1 h2 → (∀ o, o ∈ l → X o) →
  first_collision h2 b (f <$> l) = f <$> first_collision h1 b l.
Proof.
  intros Ha. induction l as [|x l IH]; intros Hl; [done|].
  rewrite fmap_cons. cbn [first_collision].
  rewrite (Ha x) by (apply Hl; left).
  destruct (UvMcCube.collides b (UvMcCube.base (h1 !!! x))); [done|].
  apply IH. intros o Ho. apply Hl. by right.
Qed.

Lemma scan_body_ren box i s st1 st2 :
  X box → run_ren f X st1 st2 →
  step_ren f X (scan_body width height box i s st1)
               (scan_body width height (f box) i s st2).
Proof.
  destruct st1 as [sg au mp h1], st2 as [sg2 au2 mp2 h2].
  intros HX (E1 & E2 & E3 & Ha & Hm & Hau). simpl in *. subst sg2 au2 mp2.
  unfold scan_body. cbn [suggestions authors mapped_boxes store].
  rewrite !lookup_total_insert_eq. rewrite (Ha box HX).
  set (b := UvMcCube.apply_suggestion (h1 !!! box) s).
  pose proof (ren_agree_insert h1 h2 box b HX Ha) as Hb.
  rewrite (first_collision_ren _ _ b mp Hb Hm).
  destruct (_is_out_of_bounds width height s.1 (0, 0)).
  { simpl. by split_and!. }
  destruct (negb _); [|simpl; by split_and!].
  destruct (first_collision (<[box:=b]> h1) b mp) as [o|] eqn:Hfc;
    cbn [fmap option_fmap option_map].
  - apply first_collision_Some in Hfc as [Ho _].
    rewrite (Hb o (Hm o Ho)).
    rewrite (bool_decide_ext _ _ (elem_of_fmap_ren o au (Hm o Ho) Hau)).
    destruct (bool_decide (o ∈ au)); simpl; unfold run_ren;
      cbn [suggestions authors mapped_boxes store]; split_and!; try done.
    + by rewrite fmap_app.
    + intros x [Hx| ->%list_elem_of_singleton]%elem_of_app; auto.
  - simpl. unfold run_ren. cbn [suggestions authors mapped_boxes store].
    split_and!; try done.
    + by rewrite fmap_app.
    + by apply ren_agree_insert.
    + intros x [Hx| ->%list_elem_of_singleton]%elem_of_app; auto.
Qed.

Lemma scan_ren box fuel i st1 st2 :
  X box → run_ren f X st1 st2 →
  result_ren f X (scan fuel width height box i st1)
                 (scan fuel width height (f box) i st2).
Proof.
  intros HX. revert i st1 st2.
  induction fuel as [|fuel IH]; intros i st1 st2 Hr; [done|].
  simpl. rewrite (proj1 Hr).
  destruct (suggestions st1 !! i) as [s|]; [|by split].
  pose proof (scan_body_ren box i s st1 st2 HX Hr) as Hs.
  destruct (scan_body width height box i s st1),
           (scan_body width height (f box) i s st2); simpl in Hs; try done.
  destruct Hs as [<- Hr1]. by apply IH.
Qed.

Lemma place_all_ren (l : list ref) st1 st2 :
  (∀ x, x ∈ l → X x) → run_ren f X st1 st2 →
  result_ren f X (place_all width height l st1)
                 (place_all width height (f <$> l) st2).
Proof.
  revert st1 st2. induction l as [|box rest IH]; intros st1 st2 Hl Hr.
  { by split. }
  rewrite fmap_cons. cbn [place_all].
  assert (Hf : scan_fuel st2 = scan_fuel st1).
  { destruct Hr as (E1 & _ & E3 & _). unfold scan_fuel.
    by rewrite E1, E3, length_fmap. }
  pose proof (scan_ren box (scan_fuel st1) 0 st1 st2
                (Hl box ltac:(left)) Hr) as Hs.
  rewrite Hf.
  destruct (scan (scan_fuel st1) width height box 0 st1) as [[ok1 a]|],
           (scan (scan_fuel st1) width height (f box) 0 st2) as [[ok2 b]|];
    simpl in Hs; try done.
  destruct Hs as [<- Hr1]. destruct ok1.
  - apply IH; [|done]. intros x Hx. apply Hl. by right.
  - destruct Hr1 as (E1 & E2 & E3 & Ha & Hm & Hau). simpl.
    rewrite (Ha box) by (apply Hl; left).
    split; [done|]. unfold run_ren. cbn [suggestions authors mapped_boxes store].
    split_and!; try done. apply ren_agree_insert; [|done]. apply Hl. left.
Qed.

Lemma insert_desc_ren (h1 h2 : heap) x (l : list ref) :
  sort_key h2 (f x) = sort_key h1 x →
  (∀ y, y ∈ l → sort_key h2 (f y) = sort_key h1 y) →
  insert_desc h2 (f x) (f <$> l) = f <$> insert_desc h1 x l.
Proof.
  intros Hx. induction l as [|y l IH]; intros Hl; [done|].
  rewrite fmap_cons. cbn [insert_desc]. rewrite Hx, (Hl y) by left.
  destruct (sort_key h1 y <=? sort_key h1 x); [done|].
  rewrite fmap_cons, IH; [done|]. intros z Hz. apply Hl. by right.
Qed.

Lemma sort_desc_ren (h1 h2 : heap) (l : list ref) :
  (∀ y, y ∈ l → sort_key h2 (f y) = sort_key h1 y) →
  sort_desc h2 (f <$> l) = f <$> sort_desc h1 l.
Proof.
  induction l as [|x l IH]; intros Hl; [done|].
  rewrite fmap_cons. cbn [sort_desc foldr].
  change (foldr (insert_desc h2) [] (f <$> l)) with (sort_desc h2 (f <$> l)).
  change (foldr (insert_desc h1) [] l) with (sort_desc h1 l).
  rewrite IH by (intros y Hy; apply Hl; by right).
  apply insert_desc_ren; [apply Hl; left|].
  intros y Hy. apply Hl. right. by rewrite <- (sort_desc_perm h1 l).
Qed.

Lemma filter_fmap_ren (P Q : ref → Prop) `{!∀ x, Decision (P x)}
    `{!∀ x, Decision (Q x)} (l : list ref) :
  (∀ x, x ∈ l → Q (f x) ↔ P x) →
  filter Q (f <$> l) = f <$> filter P l.
Proof.
  induction l as [|x l IH]; intros Hl; [done|].
  rewrite fmap_cons, !filter_cons.
  rewrite IH by (intros y Hy; apply Hl; by right).
  rewrite (decide_ext (Q (f x)) (P x)) by (apply Hl; left).
  by destruct (decide (P x)).
Qed.

End renaming.

(** The two runs of [plan_uv]: equal boxes that the two runs walk in the
    same order, once deduplicated and sorted, are left equal. *)
Lemma plan_uv_up_to_identity set_iter1 set_iter2 f boxes width height
    (h1 h2 : heap) :
  (∀ x, x ∈ set_iter1 boxes → x ∈ boxes) →
  ren_inj f (λ r, r ∈ boxes) →
  sorted_boxes set_iter2 (f <$> boxes) h2 =
    f <$> sorted_boxes set_iter1 boxes h1 →
  ren_agree f (λ r, r ∈ boxes) h1 h2 →
  ∃ ok h1' h2',
    plan_uv set_iter1 boxes width height h1 = Some (ok, h1') ∧
    plan_uv set_iter2 (f <$> boxes) width height h2 = Some (ok, h2') ∧
    ren_agree f (λ r, r ∈ boxes) h1' h2'.
Proof.
  intros Hsub Hinj Hsorted Hag.
  assert (Hin : ∀ x, x ∈ sorted_boxes set_iter1 boxes h1 → x ∈ boxes).
  { intros x. unfold sorted_boxes. rewrite sort_desc_perm. apply Hsub. }
  assert (Hun : unmapped_on_entry set_iter2 (f <$> boxes) h2 =
                f <$> unmapped_on_entry set_iter1 boxes h1).
  { unfold unmapped_on_entry. rewrite Hsorted. apply filter_fmap_ren.
    intros x Hx. by rewrite Hag by auto. }
  assert (Hmp : mapped_on_entry set_iter2 (f <$> boxes) h2 =
                f <$> mapped_on_entry set_iter1 boxes h1).
  { unfold mapped_on_entry. rewrite Hsorted. apply filter_fmap_ren.
    intros x Hx. by rewrite Hag by auto. }
  pose proof (place_all_ren width height f (λ r, r ∈ boxes) Hinj
    (unmapped_on_entry set_iter1 boxes h1)
    (Run [((0, 0), TOP_LEFT)] [] (mapped_on_entry set_iter1 boxes h1) h1)
    (Run [((0, 0), TOP_LEFT)] [] (f <$> mapped_on_entry set_iter1 boxes h1) h2))
    as Hp.
  unfold plan_uv, plan_uv_run. rewrite Hun, Hmp.
  destruct (place_all_total width height (unmapped_on_entry set_iter1 boxes h1)
    (Run [((0, 0), TOP_LEFT)] [] (mapped_on_entry set_iter1 boxes h1) h1))
    as [[ok1 a] Ea].
  rewrite Ea in Hp |- *.
  assert (Hres : result_ren f (λ r, r ∈ boxes) (Some (ok1, a))
            (place_all width height (f <$> unmapped_on_entry set_iter1 boxes h1)
               (Run [((0, 0), TOP_LEFT)] []
                    (f <$> mapped_on_entry set_iter1 boxes h1) h2))).
  { apply Hp.
    - intros x Hx. unfold unmapped_on_entry in Hx.
      apply list_elem_of_filter in Hx as [_ Hx]. auto.
    - split_and!; simpl; try done.
      + intros o Ho. unfold mapped_on_entry in Ho.
        apply list_elem_of_filter in Ho as [_ Ho]. auto.
      + intros o Ho. by apply elem_of_nil in Ho. }
  destruct (place_all width height (f <$> unmapped_on_entry set_iter1 boxes h1)
    (Run [((0, 0), TOP_LEFT)] [] (f <$> mapped_on_entry set_iter1 boxes h1) h2))
    as [[ok2 b]|]; [|done].
  destruct Hres as (<- & _ & _ & _ & Hst & _).
  exists ok1, (store a), (store b). by split_and!.
Qed.

(** ** The stable sort and the order of the set *)

Lemma precedes_cons_head (x : ref) l b : b ∈ l → precedes (x :: l) x b.
Proof.
  intros (j & Hj)%list_elem_of_lookup_1. exists 0%nat, (S j).
  split_and!; [lia|done..].
Qed.

Lemma precedes_cons (x : ref) l a b : precedes l a b → precedes (x :: l) a b.
Proof.
  intros (i & j & Hij & Hi & Hj). exists (S i), (S j).
  split_and!; [lia|done..].
Qed.

Lemma precedes_asym (l : list ref) a b :
  NoDup l → precedes l a b → precedes l b a → False.
Proof.
  intros Hnd (i & j & Hij & Hi & Hj) (i' & j' & Hij' & Hi' & Hj').
  assert (i = j') by (by apply (proj1 (NoDup_alt l) Hnd i j' a)).
  assert (j = i') by (by apply (proj1 (NoDup_alt l) Hnd j i' b)).
  lia.
Qed.

Lemma precedes_total (l : list ref) a b :
  a ∈ l → b ∈ l → a ≠ b → precedes l a b ∨ precedes l b a.
Proof.
  intros (i & Hi)%list_elem_of_lookup_1 (j & Hj)%list_elem_of_lookup_1 Hne.
  destruct (Nat.lt_total i j) as [Hlt|[->|Hlt]].
  - left. by exists i, j.
  - congruence.
  - right. by exists j, i.
Qed.

Lemma precedes_fmap_inj (f : ref → ref) (l : list ref) a b :
  (∀ x y, x ∈ l → y ∈ l → f x = f y → x = y) →
  a ∈ l → b ∈ l →
  precedes (f <$> l) (f a) (f b) → precedes l a b.
Proof.
  intros Hinj Ha Hb (i & j & Hij & Hi & Hj).
  rewrite list_lookup_fmap in Hi, Hj.
  destruct (l !! i) as [a'|] eqn:Ei; [|done].
  destruct (l !! j) as [b'|] eqn:Ej; [|done].
  injection Hi as Hi. injection Hj as Hj.
  apply Hinj in Hi; [|by eapply list_elem_of_lookup_2|done].
  apply Hinj in Hj; [|by eapply list_elem_of_lookup_2|done].
  subst. by exists i, j.
Qed.

Lemma StronglySorted_on {A} (R R' : A → A → Prop) (l : list A) :
  (∀ a b, a ∈ l → b ∈ l → R a b → R' a b) →
  StronglySorted R l → StronglySorted R' l.
Proof.
  intros HR Hs. induction Hs as [|x l Hl IH Hx]; [constructor|].
  constructor.
  - apply IH. intros a b Ha Hb. apply HR; by right.
  - apply Forall_forall. intros y Hy. apply HR; [by left|by right|].
    by apply (proj1 (Forall_forall _ _) Hx).
Qed.

Lemma insert_desc_stable (h : heap) (R : ref → ref → Prop) x (s : list ref) :
  StronglySorted R s →
  (∀ a b, R a b → sort_key h b ≤ sort_key h a) →
  (∀ y, y ∈ s → sort_key h y ≤ sort_key h x → R x y) →
  (∀ y, y ∈ s → sort_key h x < sort_key h y → R y x) →
  StronglySorted R (insert_desc h x s).
Proof.
  intros Hs Hkey. induction Hs as [|y l Hl IH Hy]; intros Hle Hgt;
    cbn [insert_desc].
  { repeat constructor. }
  destruct (sort_key h y <=? sort_key h x) eqn:E.
  - apply Z.leb_le in E. constructor; [by constructor|].
    apply Forall_forall. intros z Hz. apply Hle; [done|].
    apply elem_of_cons in Hz as [->|Hz]; [done|].
    pose proof (Hkey y z (proj1 (Forall_forall _ _) Hy z Hz)). lia.
  - apply Z.leb_gt in E. constructor.
    + apply IH.
      * intros z Hz. apply Hle. by right.
      * intros z Hz. apply Hgt. by right.
    + rewrite insert_desc_perm. constructor; [|done].
      apply Hgt; [by left|done].
Qed.

(** The sort is stable: boxes of the same bounding width keep the order
    they have in the list that is sorted. *)
Lemma sort_desc_stable (h : heap) (l : list ref) :
  NoDup l → StronglySorted (stable_order h l) (sort_desc h l).
Proof.
  induction l as [|x l IH]; intros Hnd; [constructor|].
  apply NoDup_cons in Hnd as [Hx Hnd]. cbn [sort_desc foldr].
  change (foldr (insert_desc h) [] l) with (sort_desc h l).
  apply insert_desc_stable.
  - apply (StronglySorted_on (stable_order h l)); [|by apply IH].
    intros a b _ _ [Hlt|[Heq Hp]]; [by left|].
    right. split; [done|by apply precedes_cons].
  - intros a b [Hlt|[Heq _]]; lia.
  - intros y Hy Hle. rewrite sort_desc_perm in Hy.
    destruct (decide (sort_key h y = sort_key h x)) as [Heq|Hne].
    + right. split; [done|by apply precedes_cons_head].
    + left. lia.
  - intros y _ Hlt. by left.
Qed.

(** Two lists of the same boxes in which the boxes of the same bounding
    width come in the same order are sorted into the same list. *)
Lemma sort_desc_same_ties (h : heap) (l l' : list ref) :
  NoDup l → l ≡ₚ l' →
  (∀ a b, a ∈ l → b ∈ l → a ≠ b → sort_key h a = sort_key h b →
     precedes l a b → precedes l' a b) →
  sort_desc h l = sort_desc h l'.
Proof.
  intros Hnd Hperm Hties.
  assert (Hnd' : NoDup l') by (by rewrite <- Hperm).
  apply (StronglySorted_unique_strong (stable_order h l)).
  - intros a b _ _ [Hlt|[Heq Hp]] [Hlt'|[Heq' Hp']]; try lia.
    destruct (precedes_asym l a b Hnd Hp Hp').
  - by apply sort_desc_stable.
  - apply (StronglySorted_on (stable_order h l'));
      [|by apply sort_desc_stable].
    intros a b Ha Hb [Hlt|[Heq Hp]]; [by left|]. right. split; [done|].
    rewrite sort_desc_perm, <- Hperm in Ha, Hb.
    assert (a ≠ b) as Hne.
    { intros ->. destruct (precedes_asym l' b b Hnd' Hp Hp). }
    destruct (precedes_total l a b Ha Hb Hne) as [Hab|Hba]; [done|].
    apply Hties in Hba; [|done|done|congruence|congruence].
    destruct (precedes_asym l' a b Hnd' Hp Hba).
  - by rewrite !sort_desc_perm.
Qed.

(** The lists that two runs walk: the sets may yield the boxes in any two
    orders that agree on the boxes of the same bounding width. *)
Lemma sorted_boxes_up_to_ties set_iter1 set_iter2 f boxes (h1 h2 : heap) :
  set_iteration set_iter1 → set_iteration set_iter2 →
  ren_inj f (λ r, r ∈ boxes) →
  ren_agree f (λ r, r ∈ boxes) h1 h2 →
  (∀ a b, a ∈ boxes → b ∈ boxes → a ≠ b →
     sort_key h1 a = sort_key h1 b →
     precedes (set_iter1 boxes) a b →
     precedes (set_iter2 (f <$> boxes)) (f a) (f b)) →
  sorted_boxes set_iter2 (f <$> boxes) h2 =
    f <$> sorted_boxes set_iter1 boxes h1.
Proof.
  intros Hset1 Hset2 Hinj Hag Hties. unfold sorted_boxes.
  assert (Hin : ∀ x, x ∈ set_iter1 boxes ↔ x ∈ boxes)
    by (intros x; apply (set_iter_elem _ Hset1)).
  assert (Hkey : ∀ y, y ∈ boxes → sort_key h2 (f y) = sort_key h1 y).
  { intros y Hy. unfold sort_key. by rewrite Hag. }
  rewrite <- (sort_desc_ren f h1 h2)
    by (intros y Hy; apply Hkey; by apply Hin).
  symmetry. apply sort_desc_same_ties.
  - apply NoDup_fmap_2_strong; [|apply (set_iter_NoDup _ Hset1)].
    intros x y Hx Hy. apply Hinj; by apply Hin.
  - apply NoDup_Permutation.
    + apply NoDup_fmap_2_strong; [|apply (set_iter_NoDup _ Hset1)].
      intros x y Hx Hy. apply Hinj; by apply Hin.
    + apply (set_iter_NoDup _ Hset2).
    + intros x. rewrite (set_iter_elem _ Hset2), !list_elem_of_fmap.
      split; intros (y & -> & Hy); exists y; (split; [done|]);
        by apply Hin.
  - intros a' b' (a & -> & Ha)%list_elem_of_fmap
      (b & -> & Hb)%list_elem_of_fmap Hne Heq Hp.
    apply Hin in Ha as Ha'. apply Hin in Hb as Hb'.
    apply Hties; [done|done|congruence| |].
    + by rewrite <- !Hkey.
    + apply (precedes_fmap_inj f); [|done..].
      intros x y Hx Hy. apply Hinj; by apply Hin.
Qed.

Lemma second_first_set_iteration : set_iteration second_first.
Proof.
  split; intros l; unfold second_first.
  - pose proof (NoDup_remove_dups l) as Hnd.
    destruct (remove_dups l) as [|a [|b rest]]; [done..|].
    by rewrite (Permutation_swap a b rest).
  - intros x. rewrite <- (elem_of_remove_dups l).
    destruct (remove_dups l) as [|a [|b rest]]; [done..|].
    by rewrite (Permutation_swap a b rest).
Qed.

(** ** Properties of [plan_uv] *)

Lemma plan_uv_success set_iter boxes width height (h h' : heap) :
  set_iteration set_iter →
  plan_uv set_iter boxes width height h = Some (true, h') →
  (∀ a, a ∈ unmapped_on_entry set_iter boxes h → placed width height h h' a) ∧
  (∀ i j a b, (i < j)%nat →
     unmapped_on_entry set_iter boxes h !! i = Some b →
     unmapped_on_entry set_iter boxes h !! j = Some a →
     UvMcCube.collides (h' !!! a) (UvMcCube.base (h' !!! b)) = false).
Proof.
  intros Hset (st' & Hrun & <-)%plan_uv_Some. unfold plan_uv_run in Hrun.
  apply place_all_success in Hrun as [Ha Hb].
  - split; [|exact Hb]. intros a Hin. by apply Ha.
  - by apply unmapped_on_entry_NoDup.
  - intros x. apply unmapped_not_mapped.
Qed.

(** C1, as amended. After a successful [plan_uv], of two boxes that the call
    placed, the one placed later does not collide with the one placed
    earlier: none of its six faces overlaps the bounding rectangle of the
    earlier box. The boxes are placed in the order of
    [unmapped_on_entry]: the boxes of the input that were unmapped on entry,
    each once, by descending bounding width. So of two distinct placed
    boxes, [collides] is false in one direction at least. *)
Theorem plan_uv_later_box_avoids_earlier set_iter boxes width height
    (h h' : heap) :
  set_iteration set_iter →
  plan_uv set_iter boxes width height h = Some (true, h') →
  (∀ r, r ∈ unmapped_on_entry set_iter boxes h ↔
        r ∈ boxes ∧ UvBox.is_mapped (UvMcCube.base (h !!! r)) = false) ∧
  (∀ i j a b, (i < j)%nat →
     unmapped_on_entry set_iter boxes h !! i = Some b →
     unmapped_on_entry set_iter boxes h !! j = Some a →
     UvMcCube.collides (h' !!! a) (UvMcCube.base (h' !!! b)) = false) ∧
  (∀ a b, a ∈ boxes → b ∈ boxes → a ≠ b →
     UvBox.is_mapped (UvMcCube.base (h !!! a)) = false →
     UvBox.is_mapped (UvMcCube.base (h !!! b)) = false →
     UvMcCube.collides (h' !!! a) (UvMcCube.base (h' !!! b)) = false ∨
     UvMcCube.collides (h' !!! b) (UvMcCube.base (h' !!! a)) = false).
Proof.
  intros Hset Hplan.
  destruct (plan_uv_success _ _ _ _ _ _ Hset Hplan) as [_ Hord].
  split_and!; [by apply elem_of_unmapped_on_entry|exact Hord|].
  intros a b Ha Hb Hne Hua Hub.
  assert (Hina : a ∈ unmapped_on_entry set_iter boxes h)
    by by apply elem_of_unmapped_on_entry.
  assert (Hinb : b ∈ unmapped_on_entry set_iter boxes h)
    by by apply elem_of_unmapped_on_entry.
  apply list_elem_of_lookup in Hina as [j Hj].
  apply list_elem_of_lookup in Hinb as [i Hi].
  destruct (Nat.lt_trichotomy i j) as [Hlt|[->|Hgt]].
  - left. by apply (Hord i j).
  - congruence.
  - right. by apply (Hord j i).
Qed.

(** C2. After a successful [plan_uv], every box of the input that was
    unmapped on entry keeps its size, is mapped, and lies inside the atlas:
    [0 <= u], [0 <= v], [u + size[0] <= width] and, when a height is given,
    [v + size[1] <= height]. *)
Theorem plan_uv_placed_in_bounds set_iter boxes width height (h h' : heap) r :
  set_iteration set_iter →
  plan_uv set_iter boxes width height h = Some (true, h') →
  r ∈ boxes →
  UvBox.is_mapped (UvMcCube.base (h !!! r)) = false →
  UvBox.size (UvMcCube.base (h' !!! r)) = UvBox.size (UvMcCube.base (h !!! r)) ∧
  UvBox.is_mapped (UvMcCube.base (h' !!! r)) = true ∧
  0 ≤ (cube_uv h' r).1 ∧ 0 ≤ (cube_uv h' r).2 ∧
  (cube_uv h' r).1 + (UvBox.size (UvMcCube.base (h' !!! r))).1 ≤ width ∧
  ∀ hg, height = Some hg →
    (cube_uv h' r).2 + (UvBox.size (UvMcCube.base (h' !!! r))).2 ≤ hg.
Proof.
  intros Hset Hplan Hin Hun.
  destruct (plan_uv_success _ _ _ _ _ _ Hset Hplan) as [Hpl _].
  destruct (Hpl r) as (Hm & Hz & Hb).
  { by apply elem_of_unmapped_on_entry. }
  apply in_bounds_iff in Hb. unfold cube_uv. tauto.
Qed.

(** C6. Whatever [plan_uv] returns, a box that was mapped on entry is the
    same object afterwards: same position, same faces. And [plan_uv] does
    return. *)
Theorem plan_uv_keeps_mapped_boxes set_iter boxes width height (h : heap) r :
  UvBox.is_mapped (UvMcCube.base (h !!! r)) = true →
  ∃ ok h', plan_uv set_iter boxes width height h = Some (ok, h') ∧
           h' !!! r = h !!! r ∧ cube_uv h' r = cube_uv h r.
Proof.
  intros Hm.
  destruct (plan_uv_total set_iter boxes width height h) as [[ok h'] Hplan].
  exists ok, h'. split; [done|].
  apply plan_uv_Some in Hplan as (st' & Hrun & <-).
  unfold plan_uv_run in Hrun.
  apply place_all_frame with (r := r) in Hrun.
  - simpl in Hrun. unfold cube_uv. by rewrite Hrun.
  - by apply mapped_not_unmapped.
Qed.

(** C4. Two runs of [plan_uv] on equal inputs: boxes that are equal up to
    their identities ([f] sends the boxes of the first run to those of the
    second), in the same order in the two lists, and the same bounds. The
    two identity sets may yield the boxes in any two orders; when these
    agree on the boxes of the same bounding width (no condition at all
    when the bounding widths of the boxes differ), the two runs return the
    same boolean and leave the same object, so the same position, at every
    box. *)
Theorem plan_uv_deterministic set_iter1 set_iter2 f boxes width height
    (h1 h2 : heap) :
  set_iteration set_iter1 → set_iteration set_iter2 →
  ren_inj f (λ r, r ∈ boxes) →
  ren_agree f (λ r, r ∈ boxes) h1 h2 →
  (∀ a b, a ∈ boxes → b ∈ boxes → a ≠ b →
     sort_key h1 a = sort_key h1 b →
     precedes (set_iter1 boxes) a b →
     precedes (set_iter2 (f <$> boxes)) (f a) (f b)) →
  ∃ ok h1' h2',
    plan_uv set_iter1 boxes width height h1 = Some (ok, h1') ∧
    plan_uv set_iter2 (f <$> boxes) width height h2 = Some (ok, h2') ∧
    ∀ r, r ∈ boxes →
      h2' !!! f r = h1' !!! r ∧ cube_uv h2' (f r) = cube_uv h1' r.
Proof.
  intros Hset1 Hset2 Hinj Hag Hties.
  destruct (plan_uv_up_to_identity set_iter1 set_iter2 f boxes width height
              h1 h2) as (ok & h1' & h2' & P1 & P2 & Hst).
  - intros x. apply (set_iter_elem _ Hset1).
  - done.
  - by apply sorted_boxes_up_to_ties.
  - done.
  - exists ok, h1', h2'. split_and!; try done.
    intros r Hr. unfold cube_uv. by rewrite (Hst r Hr).
Qed.

Lemma plan_uv_later_box_avoids_earlier_witness :
  UvMcCube.collides (two_cubes_packed !!! 2%positive)
    (UvMcCube.base (two_cubes_packed !!! 1%positive)) = false.
Proof.
  refine (proj1 (proj2 (plan_uv_later_box_avoids_earlier last_seen
            [2; 1]%positive 13 (Some 3) two_cubes two_cubes_packed
            last_seen_set_iteration _))
          0%nat 1%nat 2%positive 1%positive _ _ _).
  - vm_compute. reflexivity.
  - lia.
  - vm_compute. reflexivity.
  - vm_compute. reflexivity.
Defined.

(** C1 fails as stated: the two cubes (3, 1, 1) and (1, 2, 1), unmapped,
    in an atlas of width 13 and height 3. Both are placed, at (0, 0) and at
    (7, 0), and the cube placed first collides with the one placed second:
    its back face lies in the empty top left corner of the bounding
    rectangle of the second. *)
Lemma plan_uv_earlier_box_collides_later :
  plan_uv last_seen [2; 1]%positive 13 (Some 3) two_cubes =
    Some (true, two_cubes_packed) ∧
  UvBox.is_mapped (UvMcCube.base (two_cubes !!! 1%positive)) = false ∧
  UvBox.is_mapped (UvMcCube.base (two_cubes !!! 2%positive)) = false ∧
  cube_uv two_cubes_packed 1%positive = (0, 0) ∧
  cube_uv two_cubes_packed 2%positive = (7, 0) ∧
  UvMcCube.collides (two_cubes_packed !!! 1%positive)
    (UvMcCube.base (two_cubes_packed !!! 2%positive)) = true.
Proof. vm_compute. repeat split. Qed.

Lemma plan_uv_placed_in_bounds_witness :
  0 ≤ (cube_uv two_cubes_packed 2%positive).1 ∧
  (cube_uv two_cubes_packed 2%positive).1 +
    (UvBox.size (UvMcCube.base (two_cubes_packed !!! 2%positive))).1 ≤ 13.
Proof.
  pose proof (plan_uv_placed_in_bounds last_seen [2; 1]%positive 13 (Some 3)
                two_cubes two_cubes_packed 2%positive
                last_seen_set_iteration) as H.
  destruct H as (_ & _ & H1 & _ & H2 & _).
  - vm_compute. reflexivity.
  - vm_compute. left.
  - vm_compute. reflexivity.
  - split; [exact H1|exact H2].
Defined.

Lemma plan_uv_keeps_mapped_boxes_witness :
  ∃ ok h', plan_uv last_seen [2; 1; 2]%positive 64 None fixed_and_free =
             Some (ok, h') ∧
           h' !!! 1%positive = fixed_and_free !!! 1%positive ∧
           cube_uv h' 1%positive = cube_uv fixed_and_free 1%positive.
Proof.
  apply (plan_uv_keeps_mapped_boxes last_seen [2; 1; 2]%positive 64 None
           fixed_and_free 1%positive).
  vm_compute. reflexivity.
Defined.

Lemma plan_uv_deterministic_witness :
  ∃ ok h1' h2',
    plan_uv last_seen [1; 2; 3]%positive 16 None three_cubes =
      Some (ok, h1') ∧
    plan_uv second_first [1; 2; 3]%positive 16 None three_cubes_and_other =
      Some (ok, h2') ∧
    ∀ r, r ∈ [1; 2; 3]%positive →
      h2' !!! r = h1' !!! r ∧ cube_uv h2' r = cube_uv h1' r.
Proof.
  apply (plan_uv_deterministic last_seen second_first id [1; 2; 3]%positive
           16 None three_cubes three_cubes_and_other
           last_seen_set_iteration second_first_set_iteration).
  - intros x y _ _ Hxy. exact Hxy.
  - intros r Hr. apply list_elem_of_In in Hr.
    destruct Hr as [<-|[<-|[<-|[]]]]; vm_compute; reflexivity.
  - intros a b Ha Hb Hne Hkey Hp.
    apply list_elem_of_In in Ha, Hb.
    destruct Ha as [<-|[<-|[<-|[]]]]; destruct Hb as [<-|[<-|[<-|[]]]];
      try done; try (vm_compute in Hkey; discriminate Hkey).
    + exists 1%nat, 2%nat. split_and!; [lia|reflexivity..].
    + destruct Hp as (i & j & Hij & Hi & Hj). exfalso.
      destruct i as [|[|[|i]]]; try discriminate Hi.
      destruct j as [|[|[|j]]]; try discriminate Hj; lia.
Defined.

(** C4 fails as stated: the three cubes (2, 2, 2), (4, 2, 2) and
    (2, 2, 4), the first and the third of bounding width 8, in an atlas of
    width 16. The list, the store and the bounds are the same in the two
    runs; the set yields the boxes once in one order and once in the
    reverse order, and the first cube is placed at (0, 4) in one run and at
    (0, 10) in the other. *)
Lemma plan_uv_depends_on_set_order :
  set_iteration last_seen ∧ set_iteration reversed_order ∧
  sort_key three_cubes 1%positive = sort_key three_cubes 3%positive ∧
  ∃ h1' h2',
    plan_uv last_seen [1; 2; 3]%positive 16 None three_cubes =
      Some (true, h1') ∧
    plan_uv reversed_order [1; 2; 3]%positive 16 None three_cubes =
      Some (true, h2') ∧
    cube_uv h1' 1%positive = (0, 4) ∧ cube_uv h2' 1%positive = (0, 10) ∧
    cube_uv h1' 3%positive = (0, 8) ∧ cube_uv h2' 3%positive = (0, 4).
Proof.
  split; [apply last_seen_set_iteration|].
  split; [apply reversed_order_set_iteration|].
  split; [reflexivity|].
  eexists _, _. split_and!; [vm_compute; reflexivity..| | | |];
    vm_compute; reflexivity.
Qed.

Lemma set_iter_singleton set_iter (r : ref) :
  set_iteration set_iter → set_iter [r] = [r].
Proof.
  intros [Hnd Hel]. specialize (Hnd [r]). specialize (Hel [r]).
  destruct (set_iter [r]) as [|a [|b l]].
  - exfalso. apply (elem_of_nil r), Hel. left.
  - f_equal. apply list_elem_of_singleton, Hel. left.
  - exfalso.
    assert (a = r) by (apply list_elem_of_singleton, Hel; left).
    assert (b = r) by (apply list_elem_of_singleton, Hel; right; left).
    subst. apply NoDup_cons in Hnd as [Hnd _]. apply Hnd. left.
Qed.

(** A box wider than the atlas, alone: the only suggestion is the seed, the
    box does not fit there, and the queue is exhausted. *)
Lemma plan_uv_single_too_wide set_iter (r : ref) width height (h : heap) :
  set_iteration set_iter →
  UvBox.is_mapped (UvMcCube.base (h !!! r)) = false →
  width < (UvBox.size (UvMcCube.base (h !!! r))).1 →
  ∃ h', plan_uv set_iter [r] width height h = Some (false, h') ∧
        cube_uv h' r = (0, 0).
Proof.
  intros Hset Hun Hw.
  unfold plan_uv, plan_uv_run, unmapped_on_entry, mapped_on_entry, sorted_boxes.
  rewrite (set_iter_singleton _ r Hset). cbn [sort_desc foldr insert_desc].
  assert (Hu : filter (λ x, UvBox.is_mapped (UvMcCube.base (h !!! x)) ≠ true)
                 [r] = [r]).
  { rewrite filter_cons_True by (by rewrite Hun). by rewrite filter_nil. }
  assert (Hm : filter (λ x, UvBox.is_mapped (UvMcCube.base (h !!! x)) = true)
                 [r] = []).
  { rewrite filter_cons_False by (by rewrite Hun). by rewrite filter_nil. }
  rewrite Hu, Hm. cbn [place_all].
  replace (scan_fuel _) with 2%nat by reflexivity.
  cbn [scan suggestions].
  change ([(0, 0, TOP_LEFT)] !! 0%nat) with (Some (0, 0, TOP_LEFT)).
  cbv iota beta.
  unfold scan_body. cbn [suggestions authors mapped_boxes store fst snd].
  rewrite lookup_total_insert_eq.
  destruct (_is_out_of_bounds width height (0, 0) (0, 0)) eqn:Hanchor.
  - cbn -[insert lookup_total UvMcCube.set_uv UvMcCube.apply_suggestion].
    eexists. split; [reflexivity|].
    unfold cube_uv. by rewrite lookup_total_insert_eq.
  - assert (Hoob : _is_out_of_bounds width height
               (UvBox.uv (UvMcCube.base
                  (UvMcCube.apply_suggestion (h !!! r) (0, 0, TOP_LEFT))))
               (UvBox.size (UvMcCube.base
                  (UvMcCube.apply_suggestion (h !!! r) (0, 0, TOP_LEFT))))
             = true).
    { unfold _is_out_of_bounds. cbn.
      replace (width <? 0 + (UvBox.size (UvMcCube.base (h !!! r))).1)
        with true by (symmetry; apply Z.ltb_lt; lia).
      done. }
    rewrite Hoob.
    cbn -[insert lookup_total UvMcCube.set_uv UvMcCube.apply_suggestion].
    eexists. split; [reflexivity|].
    unfold cube_uv. by rewrite lookup_total_insert_eq.
Qed.

(** C7. When the [while] loop of a box ends without accepting it (the
    boxes before it were all accepted), [plan_uv] returns false, that box
    is at (0, 0), and the boxes after it are as they were on entry. In
    particular a single unmapped cube of bounding width 10 in an atlas of
    width 8: [plan_uv] returns false and the cube is at (0, 0). *)
Theorem plan_uv_fails_on_exhausted_queue set_iter :
  set_iteration set_iter →
  (∀ boxes width height (h : heap) pre box rest st st1,
     unmapped_on_entry set_iter boxes h = pre ++ box :: rest →
     place_all width height pre
       (Run [((0, 0), TOP_LEFT)] [] (mapped_on_entry set_iter boxes h) h)
       = Some (true, st) →
     scan (scan_fuel st) width height box 0 st = Some (false, st1) →
     ∃ h', plan_uv set_iter boxes width height h = Some (false, h') ∧
           cube_uv h' box = (0, 0) ∧
           ∀ r, r ∈ rest → h' !!! r = h !!! r) ∧
  (∀ r height (h : heap),
     UvBox.is_mapped (UvMcCube.base (h !!! r)) = false →
     (UvBox.size (UvMcCube.base (h !!! r))).1 = 10 →
     ∃ h', plan_uv set_iter [r] 8 height h = Some (false, h') ∧
           cube_uv h' r = (0, 0)).
Proof.
  intros Hset. split.
  - intros boxes width height h pre box rest st st1 Hsplit Hpre Hscan.
    pose proof (unmapped_on_entry_NoDup set_iter Hset boxes h) as Hnd.
    rewrite Hsplit in Hnd. apply NoDup_app in Hnd as (_ & Hdisj & Hnd).
    apply NoDup_cons in Hnd as [Hbox _].
    unfold plan_uv, plan_uv_run.
    rewrite Hsplit, place_all_app, Hpre. cbn [place_all]. rewrite Hscan.
    eexists. split; [reflexivity|]. cbn [prod_map fst snd store id].
    split; [unfold cube_uv; by rewrite lookup_total_insert_eq|].
    intros r Hr.
    assert (r ≠ box) by (by intros ->).
    assert (r ∉ pre) by (intros Hp; apply (Hdisj r Hp); by right).
    rewrite lookup_total_insert_ne by done.
    apply scan_continue_run in Hscan as (_ & Hs & _).
    rewrite Hs by done.
    by rewrite (place_all_frame _ _ _ _ _ _ Hpre r).
  - intros r height h Hun Hsz.
    apply plan_uv_single_too_wide; [done..|lia].
Qed.

Lemma plan_uv_fails_on_exhausted_queue_witness :
  (∃ h', plan_uv last_seen [2; 1]%positive 8 None wide_cube =
           Some (false, h') ∧
         cube_uv h' 1%positive = (0, 0) ∧
         ∀ r, r ∈ [2%positive] → h' !!! r = wide_cube !!! r) ∧
  (∃ h', plan_uv last_seen [1%positive] 8 (Some 6) wide_cube =
           Some (false, h') ∧
         cube_uv h' 1%positive = (0, 0)).
Proof.
  destruct (plan_uv_fails_on_exhausted_queue last_seen
              last_seen_set_iteration) as [Hgen Hone].
  split.
  - refine (Hgen [2; 1]%positive 8 None wide_cube [] 1%positive [2%positive]
              _ _ _ _ _).
    + vm_compute. reflexivity.
    + reflexivity.
    + vm_compute. reflexivity.
  - apply (Hone 1%positive (Some 6) wide_cube).
    + vm_compute. reflexivity.
    + vm_compute. reflexivity.
Defined.

(** ** The grouping adapter *)

Lemma get_uv_mc_cubes_body_inv flag (l : list Object) st obj :
  group_inv flag l st →
  name obj ∉ name <$> l →
  group_inv flag (l ++ [obj]) (get_uv_mc_cubes_body flag st obj).
Proof.
  intros Hinv Hname o g Hin Hg.
  apply elem_of_app in Hin as [Hin|Hin].
  - destruct (Hinv o g Hin Hg) as (r & Hres & Hgrp).
    assert (Hne : name obj ≠ name o).
    { intros Heq. apply Hname. rewrite Heq. by apply list_elem_of_fmap_2. }
    unfold get_uv_mc_cubes_body, new_cube.
    destruct (rounded_scale obj) as [[w hh] d].
    destruct (if flag then mc_uv obj else None) as [p|]; cbn.
    { exists r. by rewrite lookup_insert_ne. }
    destruct (mc_uv_group obj) as [g0|]; cbn;
      [|exists r; by rewrite lookup_insert_ne].
    destruct (default ∅ (uv_groups st !! g0) !! (w, d, hh)) as [r0|] eqn:Hit;
      cbn; [exists r; by rewrite lookup_insert_ne|].
    exists r. rewrite lookup_insert_ne by done. split; [done|].
    destruct (decide (g0 = g)) as [->|Hg0].
    + rewrite lookup_insert_eq. cbn.
      destruct (decide ((w, d, hh) = items_key o)) as [Hk|Hk].
      * rewrite Hk in Hit. congruence.
      * by rewrite lookup_insert_ne.
    + by rewrite lookup_insert_ne.
  - apply list_elem_of_singleton in Hin as ->.
    destruct Hg as [Hgroup Hread].
    unfold get_uv_mc_cubes_body, new_cube, items_key.
    destruct (rounded_scale obj) as [[w hh] d].
    replace (if flag then mc_uv obj else None) with (@None (Z * Z))
      by (destruct Hread as [->| ->]; [done|by destruct flag]).
    rewrite Hgroup.
    destruct (default ∅ (uv_groups st !! g) !! (w, d, hh)) as [r0|] eqn:Hit;
      cbn.
    + exists r0. by rewrite lookup_insert_eq.
    + eexists. rewrite !lookup_insert_eq. cbn. by rewrite lookup_insert_eq.
Qed.

Lemma get_uv_mc_cubes_run_inv flag (objects : list Object) (h : heap) :
  NoDup (name <$> objects) →
  group_inv flag objects (get_uv_mc_cubes_run objects flag h).
Proof.
  unfold get_uv_mc_cubes_run.
  induction objects as [|obj l IH] using rev_ind; intros Hnd.
  - intros o g Hin. by apply elem_of_nil in Hin.
  - rewrite fmap_app in Hnd. apply NoDup_app in Hnd as (Hl & Hdisj & _).
    rewrite foldl_app. simpl. apply get_uv_mc_cubes_body_inv; [by apply IH|].
    intros Hin. apply (Hdisj _ Hin). simpl. left.
Qed.

(** C5, as amended. Two objects of the same group and of the same
    (width, depth, height), from neither of which a placement is read
    ([read_existing_uvs] is false, or the object has no ['mc_uv']), resolve
    to the same cube, so to the same position after any packing; names are
    those of distinct objects. *)
Theorem group_sharing_unless_existing_uv objects flag (h : heap) g o1 o2 :
  NoDup (name <$> objects) →
  o1 ∈ objects → o2 ∈ objects →
  grouped flag g o1 → grouped flag g o2 →
  rounded_scale o1 = rounded_scale o2 →
  ∃ r, (get_uv_mc_cubes objects flag h).1 !! name o1 = Some r ∧
       (get_uv_mc_cubes objects flag h).1 !! name o2 = Some r ∧
       ∀ set_iter boxes width height ok h' r1 r2,
         plan_uv set_iter boxes width height
           (get_uv_mc_cubes objects flag h).2 = Some (ok, h') →
         (get_uv_mc_cubes objects flag h).1 !! name o1 = Some r1 →
         (get_uv_mc_cubes objects flag h).1 !! name o2 = Some r2 →
         r1 = r2 ∧ cube_uv h' r1 = cube_uv h' r2.
Proof.
  intros Hnd Hin1 Hin2 Hg1 Hg2 Hdims.
  pose proof (get_uv_mc_cubes_run_inv flag objects h Hnd) as Hinv.
  destruct (Hinv o1 g Hin1 Hg1) as (r1 & Hr1 & Hk1).
  destruct (Hinv o2 g Hin2 Hg2) as (r2 & Hr2 & Hk2).
  assert (r1 = r2) as <-.
  { unfold items_key in *. rewrite Hdims in Hk1. congruence. }
  unfold get_uv_mc_cubes. cbn [fst snd].
  exists r1. split_and!; try done.
  intros set_iter boxes width height ok h' x y _ Hx Hy.
  assert (x = y) as <- by congruence. done.
Qed.

Lemma group_sharing_unless_existing_uv_witness :
  ∃ r, (get_uv_mc_cubes group_A true ∅).1 !! "b"%string = Some r ∧
       (get_uv_mc_cubes group_A true ∅).1 !! "c"%string = Some r.
Proof.
  destruct (group_sharing_unless_existing_uv group_A true ∅ "A"%string
    {| name := "b"; rounded_scale := (3, 3, 3); mc_uv := None;
       mc_uv_group := Some "A"%string |}
    {| name := "c"; rounded_scale := (3, 3, 3); mc_uv := None;
       mc_uv_group := Some "A"%string |}) as (r & H1 & H2 & _).
  - apply (bool_decide_unpack _). vm_compute. exact I.
  - vm_compute. right. left.
  - vm_compute. right. right. left.
  - split; [reflexivity|by right].
  - split; [reflexivity|by right].
  - reflexivity.
  - exists r. split; [exact H1|exact H2].
Defined.

(** C5 fails as stated: with [read_existing_uvs], the objects "a" and "b"
    have the same group and the same size, "a" has an ['mc_uv'], and they
    resolve to two cubes, packed at (5, 5) and at (5, 11). *)
Lemma group_with_existing_uv_not_shared :
  (pack_scene group_A true ["a"; "b"]%string 64 None).1 !! "a"%string =
    Some 1%positive ∧
  (pack_scene group_A true ["a"; "b"]%string 64 None).1 !! "b"%string =
    Some 2%positive ∧
  (λ x, (x.1, cube_uv x.2 1%positive, cube_uv x.2 2%positive)) <$>
    (pack_scene group_A true ["a"; "b"]%string 64 None).2 =
    Some (true, (5, 5), (5, 11)).
Proof. vm_compute. repeat split. Qed.

(** ** The anchor of a suggestion *)

(** The suggestions that the [while] loop deletes: those whose anchor is
    left of or above the atlas, or strictly beyond [width] or [height]. *)
Lemma anchor_out_of_bounds_iff width height (p : point) :
  _is_out_of_bounds width height p (0, 0) = true ↔
  p.1 < 0 ∨ p.2 < 0 ∨ width < p.1 ∨ ∃ hg, height = Some hg ∧ hg < p.2.
Proof.
  unfold _is_out_of_bounds. cbn [fst snd]. rewrite !Z.add_0_r.
  rewrite !orb_true_iff, !Z.ltb_lt. destruct height as [hg|].
  - rewrite Z.ltb_lt. split.
    + intros [[[?|?]|?]|?]; eauto 6.
    + intros [?|[?|[?|(x & [= <-] & ?)]]]; auto.
  - split.
    + intros [[[?|?]|?]|?]; auto; done.
    + intros [?|[?|[?|(x & ? & ?)]]]; auto; done.
Qed.

(** A suggestion anchored in the column [width], just right of the atlas,
    is kept in the queue: the loop moves on to the next index. *)
Lemma scan_body_anchor_on_edge width height box i s st :
  s.1.1 = width → 0 ≤ width → 0 ≤ s.1.2 →
  (∀ hg, height = Some hg → s.1.2 ≤ hg) →
  0 < (UvBox.size (UvMcCube.base (store st !!! box))).1 →
  ∃ st', scan_body width height box i s st = Continue (S i) st' ∧
         suggestions st' = suggestions st.
Proof.
  intros Hu Hw Hv Hh Hsz. unfold scan_body.
  destruct (_is_out_of_bounds width height s.1 (0, 0)) eqn:Hanchor.
  { apply anchor_out_of_bounds_iff in Hanchor
      as [?|[?|[?|(hg & Hhg & ?)]]]; try lia.
    specialize (Hh hg Hhg). lia. }
  rewrite lookup_total_insert_eq.
  destruct (_is_out_of_bounds width height
              (UvBox.uv (UvMcCube.base (UvMcCube.apply_suggestion
                                          (store st !!! box) s)))
              (UvBox.size (UvMcCube.base (UvMcCube.apply_suggestion
                                            (store st !!! box) s))))
    eqn:Hbox; cbn [negb]; [eauto|].
  exfalso. apply in_bounds_iff in Hbox as (H1 & _ & H3 & _).
  revert H1 H3. destruct s as [[u v] []]; cbn in *; lia.
Qed.

(** C3, as amended. When the anchor [(u, v)] of the suggestion that the
    [while] loop looks at has [u < 0], [v < 0], [u > width] or, with a
    height given, [v > height], the pass deletes that suggestion from the
    queue and stays in the loop at the same index, where the next suggestion
    now is; the authors and the mapped boxes are as before. *)
Theorem anchor_beyond_bounds_is_discarded width height box i s st :
  suggestions st !! i = Some s →
  s.1.1 < 0 ∨ s.1.2 < 0 ∨ width < s.1.1 ∨
    (∃ hg, height = Some hg ∧ hg < s.1.2) →
  ∃ st', scan_body width height box i s st = Continue i st' ∧
         suggestions st' = delete i (suggestions st) ∧
         suggestions st' !! i = suggestions st !! S i ∧
         length (suggestions st') = (length (suggestions st) - 1)%nat ∧
         authors st' = authors st ∧ mapped_boxes st' = mapped_boxes st.
Proof.
  intros Hs Hanchor. apply anchor_out_of_bounds_iff in Hanchor.
  unfold scan_body. rewrite Hanchor. eexists. split; [reflexivity|].
  cbn [suggestions authors mapped_boxes]. split_and!; try done.
  - by apply list_lookup_delete_ge.
  - apply length_delete. eauto.
Qed.

Lemma anchor_beyond_bounds_is_discarded_witness :
  ∃ st', scan_body 4 (Some 2) 2%positive 0 ((5, 1), BOTTOM_LEFT)
           (Run [((5, 1), BOTTOM_LEFT); ((3, 2), TOP_RIGHT)] []
                [1%positive] two_small_cubes) = Continue 0 st' ∧
         suggestions st' = [((3, 2), TOP_RIGHT)].
Proof.
  destruct (anchor_beyond_bounds_is_discarded 4 (Some 2) 2%positive 0%nat
              ((5, 1), BOTTOM_LEFT)
              (Run [((5, 1), BOTTOM_LEFT); ((3, 2), TOP_RIGHT)] []
                   [1%positive] two_small_cubes))
    as (st' & Hb & Hq & _).
  - reflexivity.
  - right. right. left. cbn. lia.
  - exists st'. split; [exact Hb|exact Hq].
Defined.

(** C3 fails as stated: two cubes (1, 1, 1) in an atlas of width 4 and
    height 2. The first is placed at (0, 0); the second looks at every
    suggestion of the queue and finds no place. The queue the run ends with
    still holds the suggestion anchored at (4, 1), whose u-coordinate is the
    width of the atlas, and two suggestions whose v-coordinate is its
    height. *)
Lemma anchor_on_max_width_is_kept :
  (λ r, (r.1, suggestions r.2)) <$>
    plan_uv_run last_seen [1; 2]%positive 4 (Some 2) two_small_cubes =
  Some (false,
        [((0, 0), BOTTOM_LEFT); ((0, 2), TOP_LEFT); ((0, 0), BOTTOM_RIGHT);
         ((0, 0), TOP_RIGHT); ((3, 0), TOP_LEFT); ((3, 0), BOTTOM_LEFT);
         ((3, 0), BOTTOM_RIGHT); ((4, 1), BOTTOM_LEFT); ((3, 2), TOP_RIGHT)]).
Proof. vm_compute. reflexivity. Qed.

(** ** The classes *)

(** C8. After [apply_suggestion], the cell in the corner of the box that
    the suggestion names is the position of the suggestion; for a [UvBox]
    and for a [UvMcCube], which inherits the method. *)
Theorem apply_suggestion_anchor (p : point) (c : UvCorner) :
  (∀ b : UvBox.t, corner_cell (UvBox.apply_suggestion b (p, c)) c = p) ∧
  (∀ b : UvMcCube.t,
     corner_cell (UvMcCube.base (UvMcCube.apply_suggestion b (p, c))) c = p).
Proof.
  destruct p as [u v].
  split; intros b; destruct c; unfold corner_cell; cbn; f_equal; lia.
Qed.

(** C9, as amended. The constructors accept any integers: the call returns
    an object that stores the size it was given (for a cube, the bounding
    size [(2*depth + 2*width, height + depth)] and the three dimensions), at
    the given position, or unmapped at (0, 0). *)
Theorem constructors_accept_any_size :
  (∀ (sz : point) (p : option point),
     ∃ b, UvBox_new sz p = Returned b ∧
          UvBox.size b = sz ∧ UvBox.uv b = default (0, 0) p ∧
          UvBox.is_mapped b = bool_decide (is_Some p)) ∧
  (∀ (w d hh : Z) (p : option point),
     ∃ c, UvMcCube_new w d hh p = Returned c ∧
          UvBox.size (UvMcCube.base c) = (2 * d + 2 * w, hh + d) ∧
          (UvMcCube.width c, UvMcCube.depth c, UvMcCube.height c) = (w, d, hh) ∧
          UvBox.uv (UvMcCube.base c) = default (0, 0) p ∧
          UvBox.is_mapped (UvMcCube.base c) = bool_decide (is_Some p)).
Proof.
  split.
  - intros sz p. eexists. split; [reflexivity|]. by destruct p.
  - intros w d hh p. eexists. split; [reflexivity|]. by destruct p.
Qed.

(** C9 fails as stated: a [UvBox] of size (0, -1) and a [UvMcCube] of
    dimensions (0, -1, 0) are constructed, and [plan_uv] places that cube. *)
Lemma non_positive_size_is_constructed :
  UvBox_new (0, -1) None =
    Returned {| UvBox.is_mapped := false; UvBox.size := (0, -1);
                UvBox.uv := (0, 0) |} ∧
  UvMcCube_new 0 (-1) 0 None = Returned (UvMcCube.init 0 (-1) 0 None) ∧
  fst <$> plan_uv last_seen [1%positive] 8 None
            {[ 1%positive := UvMcCube.init 0 (-1) 0 None ]} = Some true.
Proof. vm_compute. repeat split. Qed.

(** C10. [UvMcCube.collides] is not symmetric: the cube (3, 1, 1) at (0, 0)
    collides with the cube (1, 2, 1) at (7, 0), and not the other way
    round. No face of the one overlaps a face of the other: the back face
    of the first lies in the empty top left corner of the bounding
    rectangle of the second. *)
Theorem cube_collides_not_symmetric :
  ∃ a b : UvMcCube.t,
    a = UvMcCube.init 3 1 1 (Some (0, 0)) ∧
    b = UvMcCube.init 1 2 1 (Some (7, 0)) ∧
    UvMcCube.collides a (UvMcCube.base b) = true ∧
    UvMcCube.collides b (UvMcCube.base a) = false ∧
    UvBox.collides (UvMcCube.back a) (UvMcCube.base b) = true ∧
    (∀ fa fb, fa ∈ UvMcCube.faces a → fb ∈ UvMcCube.faces b →
       UvBox.collides fa fb = false).
Proof.
  eexists _, _. split; [reflexivity|]. split; [reflexivity|].
  split_and!; try reflexivity.
  intros fa fb Ha Hb. apply list_elem_of_In in Ha, Hb.
  cbn in Ha, Hb.
  repeat (destruct Ha as [<-|Ha]; [repeat (destruct Hb as [<-|Hb]; [reflexivity|]); destruct Hb|]).
  destruct Ha.
Qed.

(** * Further properties *)

(** ** Rectangles *)

Lemma collides_iff (a b : UvBox.t) :
  UvBox.collides a b = true ↔
  (UvBox.uv a).1 < (UvBox.uv b).1 + (UvBox.size b).1 ∧
  (UvBox.uv b).1 < (UvBox.uv a).1 + (UvBox.size a).1 ∧
  (UvBox.uv a).2 < (UvBox.uv b).2 + (UvBox.size b).2 ∧
  (UvBox.uv b).2 < (UvBox.uv a).2 + (UvBox.size a).2.
Proof.
  unfold UvBox.collides. cbn [fst snd].
  rewrite !andb_true_iff, !Z.ltb_lt. tauto.
Qed.

Lemma collides_false_iff (a b : UvBox.t) :
  UvBox.collides a b = false ↔
  (UvBox.uv b).1 + (UvBox.size b).1 ≤ (UvBox.uv a).1 ∨
  (UvBox.uv a).1 + (UvBox.size a).1 ≤ (UvBox.uv b).1 ∨
  (UvBox.uv b).2 + (UvBox.size b).2 ≤ (UvBox.uv a).2 ∨
  (UvBox.uv a).2 + (UvBox.size a).2 ≤ (UvBox.uv b).2.
Proof.
  rewrite <- not_true_iff_false, collides_iff. lia.
Qed.

Lemma collides_sym (a b : UvBox.t) : UvBox.collides a b = UvBox.collides b a.
Proof.
  apply eq_true_iff_eq. rewrite !collides_iff. tauto.
Qed.

(** X1. [UvBox.collides] is symmetric, whatever the sizes: the asymmetry
    of [UvMcCube.collides] comes from the faces, not from the test of two
    rectangles. *)
Theorem UvBox_collides_symmetric (a b : UvBox.t) :
  UvBox.collides a b = UvBox.collides b a.
Proof. apply collides_sym. Qed.

(** X2. Two boxes of positive sizes collide exactly when they have a cell
    in common. *)
Theorem UvBox_collides_iff_common_cell (a b : UvBox.t) :
  0 < (UvBox.size a).1 → 0 < (UvBox.size a).2 →
  0 < (UvBox.size b).1 → 0 < (UvBox.size b).2 →
  UvBox.collides a b = true ↔ ∃ x y, has_cell a x y ∧ has_cell b x y.
Proof.
  intros Ha1 Ha2 Hb1 Hb2. rewrite collides_iff. unfold has_cell. split.
  - intros (H1 & H2 & H3 & H4).
    exists (Z.max (UvBox.uv a).1 (UvBox.uv b).1),
           (Z.max (UvBox.uv a).2 (UvBox.uv b).2). lia.
  - intros (x & y & ? & ?). lia.
Qed.

Lemma UvBox_collides_iff_common_cell_witness :
  UvBox.collides (UvBox.init (2, 2) (Some (0, 0)))
                 (UvBox.init (3, 1) (Some (1, 1))) = true ↔
  ∃ x y, has_cell (UvBox.init (2, 2) (Some (0, 0))) x y ∧
         has_cell (UvBox.init (3, 1) (Some (1, 1))) x y.
Proof.
  apply (UvBox_collides_iff_common_cell (UvBox.init (2, 2) (Some (0, 0)))
           (UvBox.init (3, 1) (Some (1, 1)))); cbn; lia.
Defined.

(** X3. What the docstring of [suggest_positions] promises: a box of any
    size put at any of the eight suggested positions of [self] touches
    [self] and does not collide with it, in either direction. *)
Theorem suggested_position_touches_without_overlap (a b : UvBox.t) s :
  s ∈ UvBox.suggest_positions a →
  UvBox.collides (UvBox.apply_suggestion b s) a = false ∧
  UvBox.collides a (UvBox.apply_suggestion b s) = false ∧
  touches a (UvBox.apply_suggestion b s).
Proof.
  intros Hs. rewrite (collides_sym a), !collides_false_iff.
  unfold touches. apply list_elem_of_In in Hs. cbn in Hs.
  repeat (destruct Hs as [<-|Hs]; [cbn; lia|]). destruct Hs.
Qed.

Lemma suggested_position_touches_without_overlap_witness :
  UvBox.collides
    (UvBox.apply_suggestion (UvBox.init (5, 1) None) ((4, 0), TOP_LEFT))
    (UvBox.init (4, 2) (Some (0, 0))) = false.
Proof.
  apply (suggested_position_touches_without_overlap
           (UvBox.init (4, 2) (Some (0, 0))) (UvBox.init (5, 1) None)
           ((4, 0), TOP_LEFT)).
  cbn. right. right. left.
Defined.

(** ** The layout of a cube *)

Lemma init_layout (w d h : Z) (p : option point) :
  cube_layout (UvMcCube.init w d h p).
Proof. unfold cube_layout. destruct p; cbn; by split_and!. Qed.

Lemma set_uv_layout (c : UvMcCube.t) (p : point) :
  cube_layout c → cube_layout (UvMcCube.set_uv c p).
Proof.
  unfold cube_layout. cbn. intros (H0 & H1 & H2 & H3 & H4 & H5 & H6).
  split_and!; tauto.
Qed.

Lemma set_is_mapped_layout (c : UvMcCube.t) (m : bool) :
  cube_layout c → cube_layout (UvMcCube.set_is_mapped c m).
Proof. unfold cube_layout. cbn. tauto. Qed.

Lemma shape_set_uv (c : UvMcCube.t) (p : point) :
  shape (UvMcCube.set_uv c p) = shape c.
Proof. reflexivity. Qed.

Lemma shape_set_is_mapped (c : UvMcCube.t) (m : bool) :
  shape (UvMcCube.set_is_mapped c m) = shape c.
Proof. reflexivity. Qed.

Lemma shape_dims (c c' : UvMcCube.t) :
  shape c = shape c' →
  UvMcCube.width c = UvMcCube.width c' ∧
  UvMcCube.depth c = UvMcCube.depth c' ∧
  UvMcCube.height c = UvMcCube.height c' ∧
  UvBox.size (UvMcCube.base c) = UvBox.size (UvMcCube.base c').
Proof. unfold shape. intros [= -> -> -> ->]. done. Qed.

Lemma elem_of_faces (c : UvMcCube.t) f :
  f ∈ UvMcCube.faces c ↔
  f = UvMcCube.right c ∨ f = UvMcCube.front c ∨ f = UvMcCube.left c ∨
  f = UvMcCube.back c ∨ f = UvMcCube.top c ∨ f = UvMcCube.bottom c.
Proof.
  unfold UvMcCube.faces. rewrite !elem_of_cons, elem_of_nil. tauto.
Qed.

Lemma faces_inside (c : UvMcCube.t) f :
  cube_ok c → f ∈ UvMcCube.faces c → inside f (UvMcCube.base c).
Proof.
  intros ((H0 & (S1 & P1) & (S2 & P2) & (S3 & P3) & (S4 & P4) & (S5 & P5)
           & (S6 & P6)) & Hw & Hd & Hh) Hf.
  apply elem_of_faces in Hf. unfold inside. rewrite H0.
  destruct Hf as [->|[->|[->|[->|[->| ->]]]]];
    [rewrite S1, P1|rewrite S2, P2|rewrite S3, P3|rewrite S4, P4
    |rewrite S5, P5|rewrite S6, P6]; cbn; lia.
Qed.

Lemma faces_disjoint (c : UvMcCube.t) (i j : nat) f g :
  cube_ok c → i ≠ j →
  UvMcCube.faces c !! i = Some f → UvMcCube.faces c !! j = Some g →
  UvBox.collides f g = false.
Proof.
  intros ((H0 & (S1 & P1) & (S2 & P2) & (S3 & P3) & (S4 & P4) & (S5 & P5)
           & (S6 & P6)) & Hw & Hd & Hh) Hij Hi Hj.
  apply collides_false_iff. unfold UvMcCube.faces in Hi, Hj.
  destruct i as [|[|[|[|[|[|i]]]]]]; simplify_eq/=;
    destruct j as [|[|[|[|[|[|j]]]]]]; simplify_eq/=;
    rewrite ?S1, ?P1, ?S2, ?P2, ?S3, ?P3, ?S4, ?P4, ?S5, ?P5, ?S6, ?P6;
    cbn; lia.
Qed.

Lemma cube_collides_false (c : UvMcCube.t) (o : UvBox.t) :
  UvMcCube.collides c o = false ↔
  ∀ f, f ∈ UvMcCube.faces c → UvBox.collides f o = false.
Proof.
  unfold UvMcCube.collides. rewrite <- not_true_iff_false, existsb_exists.
  split.
  - intros Hn f Hf. apply not_true_iff_false. intros Hc. apply Hn.
    exists f. split; [by apply list_elem_of_In|done].
  - intros Ha (f & Hf & Hc). apply list_elem_of_In in Hf.
    rewrite (Ha f Hf) in Hc. done.
Qed.

Lemma collides_inside (f g b : UvBox.t) :
  inside g b → UvBox.collides f g = true → UvBox.collides f b = true.
Proof. unfold inside. rewrite !collides_iff. lia. Qed.

(** X4. Moving a cube with the setter of [uv] moves its six faces with
    it: every face keeps its size and is shifted by the offset between the
    old and the new position of the cube. *)
Theorem set_uv_moves_faces_together (c : UvMcCube.t) (p : point) i f f' :
  cube_layout c →
  UvMcCube.faces c !! i = Some f →
  UvMcCube.faces (UvMcCube.set_uv c p) !! i = Some f' →
  UvBox.size f' = UvBox.size f ∧
  (UvBox.uv f').1 - (UvBox.uv f).1 = p.1 - (UvBox.uv (UvMcCube.base c)).1 ∧
  (UvBox.uv f').2 - (UvBox.uv f).2 = p.2 - (UvBox.uv (UvMcCube.base c)).2.
Proof.
  intros (H0 & (S1 & P1) & (S2 & P2) & (S3 & P3) & (S4 & P4) & (S5 & P5)
          & (S6 & P6)) Hi Hi'.
  unfold UvMcCube.faces in Hi, Hi'.
  destruct i as [|[|[|[|[|[|i]]]]]]; simplify_eq/=;
    rewrite ?P1, ?P2, ?P3, ?P4, ?P5, ?P6; cbn; split_and!; try done; lia.
Qed.

Lemma set_uv_moves_faces_together_witness :
  UvBox.size (UvMcCube.back (UvMcCube.set_uv (UvMcCube.init 3 1 2 None) (4, 7)))
    = (3, 2) ∧
  (UvBox.uv (UvMcCube.back
               (UvMcCube.set_uv (UvMcCube.init 3 1 2 None) (4, 7)))).1 -
    (UvBox.uv (UvMcCube.back (UvMcCube.init 3 1 2 None))).1 = 4 - 0.
Proof.
  destruct (set_uv_moves_faces_together (UvMcCube.init 3 1 2 None) (4, 7)
              3%nat (UvMcCube.back (UvMcCube.init 3 1 2 None))
              (UvMcCube.back (UvMcCube.set_uv (UvMcCube.init 3 1 2 None) (4, 7))))
    as (H1 & H2 & _).
  - apply init_layout.
  - reflexivity.
  - reflexivity.
  - split; [exact H1|exact H2].
Defined.

(** X5. The layout of a cube of non-negative dimensions: its six faces lie
    inside its bounding rectangle, and no two of them collide. *)
Theorem cube_faces_inside_and_disjoint (c : UvMcCube.t) :
  cube_ok c →
  (∀ f, f ∈ UvMcCube.faces c → inside f (UvMcCube.base c)) ∧
  (∀ i j f g, i ≠ j →
     UvMcCube.faces c !! i = Some f → UvMcCube.faces c !! j = Some g →
     UvBox.collides f g = false).
Proof.
  intros Hok. split.
  - intros f. by apply faces_inside.
  - intros i j f g. by apply faces_disjoint.
Qed.

Lemma cube_faces_inside_and_disjoint_witness :
  inside (UvMcCube.top (UvMcCube.init 2 1 3 (Some (4, 4))))
         (UvMcCube.base (UvMcCube.init 2 1 3 (Some (4, 4)))) ∧
  UvBox.collides (UvMcCube.right (UvMcCube.init 2 1 3 (Some (4, 4))))
                 (UvMcCube.top (UvMcCube.init 2 1 3 (Some (4, 4)))) = false.
Proof.
  destruct (cube_faces_inside_and_disjoint (UvMcCube.init 2 1 3 (Some (4, 4))))
    as [Hin Hdis].
  - split; [apply init_layout|cbn; lia].
  - split.
    + apply Hin. apply elem_of_faces. tauto.
    + apply (Hdis 0%nat 4%nat); [lia|reflexivity|reflexivity].
Defined.

(** X6. The six faces of a cube in its layout have, together, the area of
    the surface of the cuboid, [2 * (w*d + w*h + d*h)]; the bounding
    rectangle has [2 * d * d] more, its two empty corners. *)
Theorem cube_faces_area (c : UvMcCube.t) :
  cube_layout c →
  foldr Z.add 0 ((λ f, (UvBox.size f).1 * (UvBox.size f).2) <$> UvMcCube.faces c)
  = 2 * (UvMcCube.width c * UvMcCube.depth c
         + UvMcCube.width c * UvMcCube.height c
         + UvMcCube.depth c * UvMcCube.height c) ∧
  (UvBox.size (UvMcCube.base c)).1 * (UvBox.size (UvMcCube.base c)).2
  = foldr Z.add 0
      ((λ f, (UvBox.size f).1 * (UvBox.size f).2) <$> UvMcCube.faces c)
    + 2 * UvMcCube.depth c * UvMcCube.depth c.
Proof.
  intros (H0 & (S1 & _) & (S2 & _) & (S3 & _) & (S4 & _) & (S5 & _)
          & (S6 & _)).
  cbn. rewrite H0, S1, S2, S3, S4, S5, S6. cbn. lia.
Qed.

Lemma cube_faces_area_witness :
  foldr Z.add 0 ((λ f, (UvBox.size f).1 * (UvBox.size f).2) <$>
                   UvMcCube.faces (UvMcCube.init 2 1 3 None))
  = 2 * (2 * 1 + 2 * 3 + 1 * 3).
Proof.
  apply (cube_faces_area (UvMcCube.init 2 1 3 None)). apply init_layout.
Defined.

(** X7. A cube of non-negative dimensions in its layout collides with a
    box only if its bounding rectangle does: boxes whose bounding
    rectangles are apart never collide. *)
Theorem cube_collides_only_inside_bounding (c : UvMcCube.t) (o : UvBox.t) :
  cube_ok c →
  UvMcCube.collides c o = true →
  UvBox.collides (UvMcCube.base c) o = true.
Proof.
  intros Hok Hc. unfold UvMcCube.collides in Hc.
  apply existsb_exists in Hc as (f & Hf & Hc).
  apply list_elem_of_In in Hf. rewrite collides_sym in Hc |- *.
  apply (collides_inside o f); [by apply faces_inside|done].
Qed.

Lemma cube_collides_only_inside_bounding_witness :
  UvBox.collides (UvMcCube.base (UvMcCube.init 3 1 1 (Some (0, 0))))
                 (UvMcCube.base (UvMcCube.init 1 2 1 (Some (7, 0)))) = true.
Proof.
  apply (cube_collides_only_inside_bounding
           (UvMcCube.init 3 1 1 (Some (0, 0)))).
  - split; [apply init_layout|cbn; lia].
  - vm_compute. reflexivity.
Defined.

(** ** More on [plan_uv] *)

Lemma keeps_shape_refl st : keeps_shape st st.
Proof. by intros r. Qed.

Lemma keeps_shape_trans a b c :
  keeps_shape a b → keeps_shape b c → keeps_shape a c.
Proof.
  intros H1 H2 r. destruct (H1 r) as [E1 L1], (H2 r) as [E2 L2].
  split; [congruence|auto].
Qed.

Lemma keeps_shape_insert (h : heap) box c :
  shape c = shape (h !!! box) →
  (cube_layout (h !!! box) → cube_layout c) →
  ∀ r, shape (<[box:=c]> h !!! r) = shape (h !!! r) ∧
       (cube_layout (h !!! r) → cube_layout (<[box:=c]> h !!! r)).
Proof.
  intros Hs Hl r. destruct (decide (box = r)) as [<-|Hne].
  - by rewrite lookup_total_insert_eq.
  - by rewrite lookup_total_insert_ne.
Qed.

Lemma scan_body_keeps_shape width height box i s st x :
  scan_body width height box i s st = x →
  keeps_shape st match x with Continue _ st' => st' | Break st' => st' end.
Proof.
  assert (H1 : ∀ r,
    shape (<[box:=UvMcCube.apply_suggestion (store st !!! box) s]>
             (store st) !!! r) = shape (store st !!! r) ∧
    (cube_layout (store st !!! r) →
     cube_layout (<[box:=UvMcCube.apply_suggestion (store st !!! box) s]>
                    (store st) !!! r))).
  { apply keeps_shape_insert; [done|]. apply set_uv_layout. }
  unfold scan_body. intros Hb.
  repeat case_match; simplify_eq; try exact H1.
  intros r. cbn [store]. rewrite lookup_total_insert_eq.
  destruct (decide (box = r)) as [<-|Hne].
  - rewrite lookup_total_insert_eq. split; [done|].
    intros Hl. by apply set_is_mapped_layout, set_uv_layout.
  - rewrite lookup_total_insert_ne by done. apply H1.
Qed.

Lemma scan_keeps_shape width height box fuel i st ok st' :
  scan fuel width height box i st = Some (ok, st') → keeps_shape st st'.
Proof.
  intros Hscan.
  pose proof (scan_inversion width height box keeps_shape keeps_shape_refl
    keeps_shape_trans
    (λ i s st i' st' _ H,
       scan_body_keeps_shape width height box i s st (Continue i' st') H)
    _ _ _ _ _ Hscan) as Hinv.
  destruct ok; [|done].
  destruct Hinv as (j & s & st0 & HR & _ & Hb).
  apply scan_body_keeps_shape in Hb. by eapply keeps_shape_trans.
Qed.

Lemma place_all_keeps_shape width height (l : list ref) st ok st' :
  place_all width height l st = Some (ok, st') → keeps_shape st st'.
Proof.
  revert st. induction l as [|box rest IH]; intros st Hp.
  - simpl in Hp. simplify_eq. apply keeps_shape_refl.
  - cbn [place_all] in Hp.
    destruct (scan (scan_fuel st) width height box 0 st)
      as [[[] st1]|] eqn:Hscan; [| |done];
      apply scan_keeps_shape in Hscan.
    + eapply keeps_shape_trans; [done|by apply IH].
    + simplify_eq. eapply keeps_shape_trans; [done|].
      intros r. cbn [store]. apply keeps_shape_insert; [done|].
      apply set_uv_layout.
Qed.

Lemma plan_uv_keeps_shape set_iter boxes width height (h : heap) ok h' r :
  plan_uv set_iter boxes width height h = Some (ok, h') →
  shape (h' !!! r) = shape (h !!! r) ∧
  (cube_layout (h !!! r) → cube_layout (h' !!! r)).
Proof.
  intros (st' & Hrun & <-)%plan_uv_Some. unfold plan_uv_run in Hrun.
  apply place_all_keeps_shape in Hrun. apply (Hrun r).
Qed.

Lemma plan_uv_keeps_ok set_iter boxes width height (h : heap) ok h' r :
  plan_uv set_iter boxes width height h = Some (ok, h') →
  cube_ok (h !!! r) → cube_ok (h' !!! r).
Proof.
  intros Hplan [Hl Hd].
  destruct (plan_uv_keeps_shape _ _ _ _ _ _ _ r Hplan) as [Hs Hl'].
  apply shape_dims in Hs as (Ew & Ed & Eh & _). unfold cube_ok.
  rewrite Ew, Ed, Eh. split; auto.
Qed.

Lemma keeps_flags_refl st : keeps_flags st st.
Proof. by intros r. Qed.

Lemma keeps_flags_trans a b c :
  keeps_flags a b → keeps_flags b c → keeps_flags a c.
Proof. intros H1 H2 r. by rewrite H2. Qed.

Lemma scan_body_continue_flags width height box i s st i' st' :
  scan_body width height box i s st = Continue i' st' → keeps_flags st st'.
Proof.
  unfold scan_body. intros Hb.
  repeat case_match; simplify_eq; intros r; cbn [store];
    (destruct (decide (box = r)) as [<-|Hne];
     [by rewrite lookup_total_insert_eq
     |by rewrite lookup_total_insert_ne]).
Qed.

Lemma scan_failed_flags width height box fuel i st st' :
  scan fuel width height box i st = Some (false, st') → keeps_flags st st'.
Proof.
  intros Hscan.
  apply (scan_inversion width height box keeps_flags keeps_flags_refl
           keeps_flags_trans
           (λ i s st i' st' _ H,
              scan_body_continue_flags width height box i s st i' st' H)
           _ _ _ _ _ Hscan).
Qed.

(** When the loop over the unmapped boxes fails: the box at which it
    stopped is left unmapped at (0, 0), the boxes before it are placed and
    the boxes after it are as they were. *)
Lemma place_all_failure width height (l : list ref) st st' :
  place_all width height l st = Some (false, st') →
  NoDup l →
  (∀ x, x ∈ l → UvBox.is_mapped (UvMcCube.base (store st !!! x)) = false) →
  ∃ pre box rest,
    l = pre ++ box :: rest ∧
    UvBox.is_mapped (UvMcCube.base (store st' !!! box)) = false ∧
    UvBox.uv (UvMcCube.base (store st' !!! box)) = (0, 0) ∧
    (∀ b, b ∈ pre → placed width height (store st) (store st') b) ∧
    (∀ b, b ∈ rest → store st' !!! b = store st !!! b).
Proof.
  revert st. induction l as [|box rest IH]; intros st Hp Hnd Hun; [done|].
  apply NoDup_cons in Hnd as [Hbox Hnd]. cbn [place_all] in Hp.
  destruct (scan (scan_fuel st) width height box 0 st)
    as [[[] st1]|] eqn:Hscan; [| |done].
  - apply scan_accept_run in Hscan as (_ & Hs & Hm & Hsz & Hin & _).
    destruct (IH st1 Hp Hnd)
      as (pre & b & rest' & -> & Hbm & Hbuv & Hpre & Hrest).
    { intros x Hx. rewrite Hs by (by intros ->). apply Hun. by right. }
    exists (box :: pre), b, rest'. split_and!; [done..| |].
    + intros x [->|Hx]%elem_of_cons.
      * unfold placed.
        rewrite (place_all_frame _ _ _ _ _ _ Hp box Hbox). done.
      * destruct (Hpre x Hx) as (Hxm & Hxs & Hxb).
        split_and!; [done| |done].
        rewrite Hxs, Hs; [done|]. intros ->. apply Hbox.
        apply elem_of_app. by left.
    + intros x Hx. rewrite (Hrest x Hx). apply Hs. intros ->.
      apply Hbox. apply elem_of_app. right. by right.
  - pose proof (scan_failed_flags _ _ _ _ _ _ _ Hscan) as Hfl.
    apply scan_continue_run in Hscan as (_ & Hs & _).
    simplify_eq. exists [], box, rest. cbn [store].
    split_and!; [done| | | |].
    + rewrite lookup_total_insert_eq. cbn. rewrite (Hfl box). apply Hun. left.
    + by rewrite lookup_total_insert_eq.
    + by intros b ?%elem_of_nil.
    + intros b Hb. rewrite lookup_total_insert_ne by (by intros ->).
      apply Hs. by intros ->.
Qed.

Lemma plan_uv_success_all_mapped set_iter boxes width height (h h' : heap) r :
  set_iteration set_iter →
  plan_uv set_iter boxes width height h = Some (true, h') →
  r ∈ boxes → UvBox.is_mapped (UvMcCube.base (h' !!! r)) = true.
Proof.
  intros Hset Hplan Hr.
  destruct (UvBox.is_mapped (UvMcCube.base (h !!! r))) eqn:Hm.
  - apply plan_uv_Some in Hplan as (st' & Hrun & <-).
    unfold plan_uv_run in Hrun.
    apply place_all_frame with (r := r) in Hrun.
    + simpl in Hrun. by rewrite Hrun.
    + by apply mapped_not_unmapped.
  - destruct (plan_uv_success _ _ _ _ _ _ Hset Hplan) as [Hpl _].
    apply (Hpl r). by apply elem_of_unmapped_on_entry.
Qed.

Lemma plan_uv_no_unmapped set_iter boxes width height (h : heap) :
  set_iteration set_iter →
  (∀ r, r ∈ boxes → UvBox.is_mapped (UvMcCube.base (h !!! r)) = true) →
  plan_uv set_iter boxes width height h = Some (true, h).
Proof.
  intros Hset Hall. unfold plan_uv, plan_uv_run.
  assert (unmapped_on_entry set_iter boxes h = []) as ->; [|done].
  apply elem_of_nil_inv. intros r Hr.
  apply (elem_of_unmapped_on_entry _ Hset) in Hr as [Hin Hm].
  rewrite Hall in Hm by done. done.
Qed.

Lemma plan_uv_success_mapped set_iter boxes width height (h h' : heap) a o :
  set_iteration set_iter →
  plan_uv set_iter boxes width height h = Some (true, h') →
  a ∈ unmapped_on_entry set_iter boxes h →
  o ∈ mapped_on_entry set_iter boxes h →
  UvMcCube.collides (h' !!! a) (UvMcCube.base (h' !!! o)) = false.
Proof.
  intros Hset (st' & Hrun & <-)%plan_uv_Some Ha Ho. unfold plan_uv_run in Hrun.
  apply place_all_success in Hrun as [Hpl _].
  - by apply (Hpl a).
  - by apply unmapped_on_entry_NoDup.
  - intros x. apply unmapped_not_mapped.
Qed.

Lemma elem_of_mapped_on_entry set_iter boxes (h : heap) r :
  set_iteration set_iter →
  r ∈ mapped_on_entry set_iter boxes h ↔
  r ∈ boxes ∧ UvBox.is_mapped (UvMcCube.base (h !!! r)) = true.
Proof.
  intros Hset. unfold mapped_on_entry.
  rewrite list_elem_of_filter, (elem_of_sorted_boxes _ Hset). tauto.
Qed.

Lemma faces_apart (a b : UvMcCube.t) fa fb :
  cube_ok b →
  UvMcCube.collides a (UvMcCube.base b) = false →
  fa ∈ UvMcCube.faces a → fb ∈ UvMcCube.faces b →
  UvBox.collides fa fb = false.
Proof.
  intros Hok Hc Hfa Hfb. apply not_true_iff_false. intros Hcol.
  apply (collides_inside fa fb (UvMcCube.base b)) in Hcol;
    [|by apply faces_inside].
  rewrite (proj1 (cube_collides_false a _) Hc fa Hfa) in Hcol. done.
Qed.

(** X8. What the packing is for: after a successful [plan_uv] on cubes in
    their layout, of non-negative dimensions, no face of a box that the
    call placed overlaps a face of another box of the input, placed by the
    call or mapped before it. *)
Theorem plan_uv_faces_never_overlap set_iter boxes width height
    (h h' : heap) a b fa fb :
  set_iteration set_iter →
  plan_uv set_iter boxes width height h = Some (true, h') →
  (∀ r, r ∈ boxes → cube_ok (h !!! r)) →
  a ∈ boxes → b ∈ boxes → a ≠ b →
  UvBox.is_mapped (UvMcCube.base (h !!! a)) = false →
  fa ∈ UvMcCube.faces (h' !!! a) → fb ∈ UvMcCube.faces (h' !!! b) →
  UvBox.collides fa fb = false ∧ UvBox.collides fb fa = false.
Proof.
  intros Hset Hplan Hok Ha Hb Hne Hua Hfa Hfb.
  rewrite (collides_sym fb fa).
  cut (UvBox.collides fa fb = false); [done|].
  assert (Hoka : cube_ok (h' !!! a)) by (eapply plan_uv_keeps_ok; eauto).
  assert (Hokb : cube_ok (h' !!! b)) by (eapply plan_uv_keeps_ok; eauto).
  assert (Hina : a ∈ unmapped_on_entry set_iter boxes h)
    by by apply elem_of_unmapped_on_entry.
  destruct (UvBox.is_mapped (UvMcCube.base (h !!! b))) eqn:Hub.
  - apply (faces_apart (h' !!! a) (h' !!! b)); try done.
    eapply plan_uv_success_mapped; eauto.
    by apply elem_of_mapped_on_entry.
  - assert (Hinb : b ∈ unmapped_on_entry set_iter boxes h)
      by by apply elem_of_unmapped_on_entry.
    destruct (plan_uv_success _ _ _ _ _ _ Hset Hplan) as [_ Hord].
    apply list_elem_of_lookup in Hina as [j Hj].
    apply list_elem_of_lookup in Hinb as [i Hi].
    destruct (Nat.lt_trichotomy i j) as [Hlt|[->|Hgt]].
    + apply (faces_apart (h' !!! a) (h' !!! b)); try done.
      by apply (Hord i j).
    + congruence.
    + rewrite collides_sym.
      apply (faces_apart (h' !!! b) (h' !!! a)); try done.
      by apply (Hord j i).
Qed.

Lemma plan_uv_faces_never_overlap_witness :
  UvBox.collides (UvMcCube.back (two_cubes_packed !!! 1%positive))
                 (UvMcCube.top (two_cubes_packed !!! 2%positive)) = false ∧
  UvBox.collides (UvMcCube.top (two_cubes_packed !!! 2%positive))
                 (UvMcCube.back (two_cubes_packed !!! 1%positive)) = false.
Proof.
  apply and_comm.
  apply (plan_uv_faces_never_overlap last_seen [2; 1]%positive 13 (Some 3)
           two_cubes two_cubes_packed 2%positive 1%positive
           (UvMcCube.top (two_cubes_packed !!! 2%positive))
           (UvMcCube.back (two_cubes_packed !!! 1%positive))
           last_seen_set_iteration).
  - vm_compute. reflexivity.
  - intros r Hr. apply list_elem_of_In in Hr.
    destruct Hr as [<-|[<-|[]]]; vm_compute; split_and!; done.
  - vm_compute. left.
  - vm_compute. right. left.
  - done.
  - vm_compute. reflexivity.
  - apply elem_of_faces. do 4 right. left. reflexivity.
  - apply elem_of_faces. do 3 right. left. reflexivity.
Defined.

(** X9. After a successful [plan_uv], every face of a box that the call
    placed lies inside the atlas, when the box is a cube in its layout, of
    non-negative dimensions. *)
Theorem plan_uv_faces_in_atlas set_iter boxes width height (h h' : heap) r f :
  set_iteration set_iter →
  plan_uv set_iter boxes width height h = Some (true, h') →
  r ∈ boxes → cube_ok (h !!! r) →
  UvBox.is_mapped (UvMcCube.base (h !!! r)) = false →
  f ∈ UvMcCube.faces (h' !!! r) →
  in_atlas width height f.
Proof.
  intros Hset Hplan Hr Hok Hun Hf.
  assert (Hok' : cube_ok (h' !!! r)) by (eapply plan_uv_keeps_ok; eauto).
  destruct (plan_uv_success _ _ _ _ _ _ Hset Hplan) as [Hpl _].
  destruct (Hpl r) as (_ & _ & Hb); [by apply elem_of_unmapped_on_entry|].
  apply in_bounds_iff in Hb as (B1 & B2 & B3 & B4).
  destruct (faces_inside _ _ Hok' Hf) as (I1 & I2 & I3 & I4).
  unfold in_atlas. split_and!; try lia.
  intros hg Hhg. specialize (B4 hg Hhg). lia.
Qed.

Lemma plan_uv_faces_in_atlas_witness :
  in_atlas 13 (Some 3) (UvMcCube.back (two_cubes_packed !!! 2%positive)).
Proof.
  apply (plan_uv_faces_in_atlas last_seen [2; 1]%positive 13 (Some 3)
           two_cubes two_cubes_packed 2%positive
           (UvMcCube.back (two_cubes_packed !!! 2%positive))
           last_seen_set_iteration).
  - vm_compute. reflexivity.
  - vm_compute. left.
  - vm_compute; split_and!; done.
  - vm_compute. reflexivity.
  - apply elem_of_faces. do 3 right. left. reflexivity.
Defined.

(** X10. [plan_uv] returns true exactly when every box of the input is
    mapped when it returns. After a failure the unmapped boxes, in the
    order of placement, are: boxes that were placed and stay so (mapped,
    inside the atlas, of the size they had), then the box that found no
    place, which is still unmapped, then boxes that are as they were on
    entry, so unmapped too; the boxes that were mapped on entry are as they
    were. *)
Theorem plan_uv_true_iff_all_mapped set_iter boxes width height
    (h : heap) ok h' :
  set_iteration set_iter →
  plan_uv set_iter boxes width height h = Some (ok, h') →
  (ok = true ↔
   ∀ r, r ∈ boxes → UvBox.is_mapped (UvMcCube.base (h' !!! r)) = true) ∧
  (ok = false →
   ∃ pre box rest,
     unmapped_on_entry set_iter boxes h = pre ++ box :: rest ∧
     UvBox.is_mapped (UvMcCube.base (h' !!! box)) = false ∧
     (∀ b, b ∈ pre →
        UvBox.is_mapped (UvMcCube.base (h' !!! b)) = true ∧
        placed width height h h' b) ∧
     (∀ b, b ∈ rest →
        h' !!! b = h !!! b ∧
        UvBox.is_mapped (UvMcCube.base (h' !!! b)) = false) ∧
     (∀ r, r ∈ boxes →
        UvBox.is_mapped (UvMcCube.base (h !!! r)) = true →
        h' !!! r = h !!! r)).
Proof.
  intros Hset Hplan.
  assert (Hfail : ok = false →
    ∃ pre box rest,
      unmapped_on_entry set_iter boxes h = pre ++ box :: rest ∧
      UvBox.is_mapped (UvMcCube.base (h' !!! box)) = false ∧
      (∀ b, b ∈ pre →
         UvBox.is_mapped (UvMcCube.base (h' !!! b)) = true ∧
         placed width height h h' b) ∧
      (∀ b, b ∈ rest →
         h' !!! b = h !!! b ∧
         UvBox.is_mapped (UvMcCube.base (h' !!! b)) = false) ∧
      (∀ r, r ∈ boxes →
         UvBox.is_mapped (UvMcCube.base (h !!! r)) = true →
         h' !!! r = h !!! r)).
  { intros ->.
    apply plan_uv_Some in Hplan as (st' & Hrun & <-).
    unfold plan_uv_run in Hrun.
    pose proof (place_all_frame _ _ _ _ _ _ Hrun) as Hframe.
    apply place_all_failure in Hrun
      as (pre & box & rest & Hsplit & Hm & _ & Hpre & Hrest).
    - exists pre, box, rest. cbn [store] in *. split_and!; [done..| | |].
      + intros b Hb. split; [|by apply Hpre]. by apply (Hpre b Hb).
      + intros b Hb. rewrite (Hrest b Hb). split; [done|].
        assert (b ∈ unmapped_on_entry set_iter boxes h) as Hin.
        { rewrite Hsplit. apply elem_of_app. right. by right. }
        by apply (elem_of_unmapped_on_entry _ Hset) in Hin as [_ ?].
      + intros r _ Hr. apply Hframe. by apply mapped_not_unmapped.
    - by apply unmapped_on_entry_NoDup.
    - intros x Hx. simpl.
      by apply (elem_of_unmapped_on_entry _ Hset) in Hx as [_ ?]. }
  split; [|exact Hfail]. split.
  - intros -> r Hr. by eapply plan_uv_success_all_mapped.
  - intros Hall. destruct ok; [done|exfalso].
    destruct (Hfail eq_refl) as (pre & box & rest & Hsplit & Hm & _).
    assert (box ∈ unmapped_on_entry set_iter boxes h) as Hin.
    { rewrite Hsplit. apply elem_of_app. right. by left. }
    apply (elem_of_unmapped_on_entry _ Hset) in Hin as [Hin _].
    rewrite Hall in Hm by done. done.
Qed.

Lemma plan_uv_true_iff_all_mapped_witness :
  ∃ pre box rest,
    unmapped_on_entry last_seen [2; 1]%positive two_cubes
      = pre ++ box :: rest ∧
    UvBox.is_mapped (UvMcCube.base (two_cubes_failed !!! box)) = false ∧
    (∀ b, b ∈ pre →
       UvBox.is_mapped (UvMcCube.base (two_cubes_failed !!! b)) = true ∧
       placed 8 (Some 2) two_cubes two_cubes_failed b) ∧
    (∀ b, b ∈ rest →
       two_cubes_failed !!! b = two_cubes !!! b ∧
       UvBox.is_mapped (UvMcCube.base (two_cubes_failed !!! b)) = false) ∧
    (∀ r, r ∈ [2; 1]%positive →
       UvBox.is_mapped (UvMcCube.base (two_cubes !!! r)) = true →
       two_cubes_failed !!! r = two_cubes !!! r).
Proof.
  refine (proj2 (plan_uv_true_iff_all_mapped last_seen [2; 1]%positive 8
                   (Some 2) two_cubes false two_cubes_failed
                   last_seen_set_iteration _) eq_refl).
  vm_compute. reflexivity.
Defined.

(** The failed run of the example: the cube of bounding width 8 is placed
    at the origin, and the other cube, which is too high for the atlas, is
    left unmapped. *)
Example two_cubes_failed_run :
  plan_uv last_seen [2; 1]%positive 8 (Some 2) two_cubes =
    Some (false, two_cubes_failed) ∧
  unmapped_on_entry last_seen [2; 1]%positive two_cubes = [1; 2]%positive ∧
  UvBox.is_mapped (UvMcCube.base (two_cubes_failed !!! 1%positive)) = true ∧
  cube_uv two_cubes_failed 1%positive = (0, 0) ∧
  UvBox.is_mapped (UvMcCube.base (two_cubes_failed !!! 2%positive)) = false.
Proof. vm_compute. repeat split. Qed.

(** X11. [plan_uv] only moves boxes: whatever it returns, every object of
    the store has the dimensions, the bounding size and the face sizes it
    had, and a cube in its layout is still in its layout. *)
Theorem plan_uv_keeps_shapes set_iter boxes width height (h : heap) ok h' r :
  plan_uv set_iter boxes width height h = Some (ok, h') →
  shape (h' !!! r) = shape (h !!! r) ∧
  (cube_layout (h !!! r) → cube_layout (h' !!! r)).
Proof. apply plan_uv_keeps_shape. Qed.

Lemma plan_uv_keeps_shapes_witness :
  shape (two_cubes_packed !!! 2%positive) = shape (two_cubes !!! 2%positive).
Proof.
  apply (plan_uv_keeps_shapes last_seen [2; 1]%positive 13 (Some 3)
           two_cubes true two_cubes_packed 2%positive).
  vm_compute. reflexivity.
Defined.

(** X12. With nothing to place, an empty list or boxes that are all
    mapped, [plan_uv] returns true and leaves the store as it is, whatever
    the bounds. *)
Theorem plan_uv_nothing_to_place set_iter boxes width height (h : heap) :
  set_iteration set_iter →
  (∀ r, r ∈ boxes → UvBox.is_mapped (UvMcCube.base (h !!! r)) = true) →
  plan_uv set_iter boxes width height h = Some (true, h).
Proof. apply plan_uv_no_unmapped. Qed.

Lemma plan_uv_nothing_to_place_witness :
  plan_uv last_seen [] (-1) (Some 0) two_cubes = Some (true, two_cubes).
Proof.
  apply (plan_uv_nothing_to_place last_seen [] (-1) (Some 0) two_cubes
           last_seen_set_iteration).
  intros r Hr. by apply elem_of_nil in Hr.
Defined.

(** X13. Running [plan_uv] again after a success changes nothing: the
    second run, with any bounds, returns true and leaves the store of the
    first. *)
Theorem plan_uv_again_after_success set_iter boxes width height
    width' height' (h h' : heap) :
  set_iteration set_iter →
  plan_uv set_iter boxes width height h = Some (true, h') →
  plan_uv set_iter boxes width' height' h' = Some (true, h').
Proof.
  intros Hset Hplan. apply plan_uv_no_unmapped; [done|].
  intros r Hr. by eapply plan_uv_success_all_mapped.
Qed.

Lemma plan_uv_again_after_success_witness :
  plan_uv last_seen [2; 1]%positive 1 None two_cubes_packed =
  Some (true, two_cubes_packed).
Proof.
  apply (plan_uv_again_after_success last_seen [2; 1]%positive 13 (Some 3)
           1 None two_cubes two_cubes_packed last_seen_set_iteration).
  vm_compute. reflexivity.
Defined.

(** ** The order of placement *)

Lemma insert_desc_sorted (h : heap) x (l : list ref) :
  StronglySorted (λ a b, sort_key h b ≤ sort_key h a) l →
  StronglySorted (λ a b, sort_key h b ≤ sort_key h a) (insert_desc h x l).
Proof.
  induction 1 as [|y l Hl IH Hy]; cbn [insert_desc].
  { repeat constructor. }
  destruct (sort_key h y <=? sort_key h x) eqn:Hle.
  - apply Z.leb_le in Hle. constructor; [by constructor|].
    constructor; [done|]. eapply Forall_impl; [exact Hy|].
    intros z Hz. cbn in *. lia.
  - apply Z.leb_gt in Hle. constructor; [done|].
    rewrite insert_desc_perm. constructor; [lia|done].
Qed.

Lemma sort_desc_sorted (h : heap) (l : list ref) :
  StronglySorted (λ a b, sort_key h b ≤ sort_key h a) (sort_desc h l).
Proof.
  induction l as [|x l IH]; cbn; [constructor|].
  by apply insert_desc_sorted.
Qed.

Lemma filter_sorted {A} (R : A → A → Prop) (P : A → Prop)
    `{!∀ x, Decision (P x)} (l : list A) :
  StronglySorted R l → StronglySorted R (filter P l).
Proof.
  induction 1 as [|x l Hl IH Hx]; [constructor|].
  rewrite filter_cons. destruct (decide (P x)); [|done].
  constructor; [done|]. apply Forall_forall. intros y Hy.
  apply list_elem_of_filter in Hy as [_ Hy].
  by apply (proj1 (Forall_forall _ _) Hx).
Qed.

Lemma sorted_lookup {A} (R : A → A → Prop) (l : list A) i j a b :
  StronglySorted R l → (i < j)%nat →
  l !! i = Some a → l !! j = Some b → R a b.
Proof.
  intros Hs. revert i j. induction Hs as [|x l Hl IH Hx]; intros i j Hij Hi Hj.
  { by rewrite lookup_nil in Hi. }
  destruct j as [|j]; [lia|]. cbn in Hj. destruct i as [|i]; cbn in Hi.
  - simplify_eq. apply (proj1 (Forall_forall _ _) Hx).
    by eapply list_elem_of_lookup_2.
  - apply (IH i j); [lia|done..].
Qed.

(** X14. The boxes are placed widest first: in the order in which
    [plan_uv] goes through the unmapped boxes, no box has a greater
    bounding width than a box before it. *)
Theorem placement_order_descending set_iter boxes (h : heap) :
  descending h (unmapped_on_entry set_iter boxes h).
Proof.
  intros i j a b Hij Hi Hj.
  apply (sorted_lookup (λ a b, sort_key h b ≤ sort_key h a)
           (unmapped_on_entry set_iter boxes h) i j a b); try done.
  apply filter_sorted, sort_desc_sorted.
Qed.

(** X15. With no box mapped on entry, the first box in the order of
    placement, a widest one, is put at (0, 0) if it fits into the atlas
    there, and it stays there whatever happens to the boxes after it. *)
Theorem first_box_at_origin set_iter boxes width height (h : heap) ok h' b :
  set_iteration set_iter →
  (∀ r, r ∈ boxes → UvBox.is_mapped (UvMcCube.base (h !!! r)) = false) →
  unmapped_on_entry set_iter boxes h !! 0%nat = Some b →
  0 ≤ width → (∀ hg, height = Some hg → 0 ≤ hg) →
  (UvBox.size (UvMcCube.base (h !!! b))).1 ≤ width →
  (∀ hg, height = Some hg → (UvBox.size (UvMcCube.base (h !!! b))).2 ≤ hg) →
  plan_uv set_iter boxes width height h = Some (ok, h') →
  cube_uv h' b = (0, 0) ∧ UvBox.is_mapped (UvMcCube.base (h' !!! b)) = true.
Proof.
  intros Hset Hun Hfirst Hw Hh Hfw Hfh Hplan.
  pose proof (unmapped_on_entry_NoDup set_iter Hset boxes h) as Hnd.
  destruct (unmapped_on_entry set_iter boxes h) as [|b' rest] eqn:Hlist;
    [done|]. cbn in Hfirst. simplify_eq.
  apply NoDup_cons in Hnd as [Hb _].
  assert (Hmp : mapped_on_entry set_iter boxes h = []).
  { apply elem_of_nil_inv. intros r Hr.
    apply (elem_of_mapped_on_entry _ _ _ _ Hset) in Hr as [Hin Hm].
    rewrite Hun in Hm by done. done. }
  apply plan_uv_Some in Hplan as (st' & Hrun & <-).
  unfold plan_uv_run in Hrun. rewrite Hlist, Hmp in Hrun.
  cbn [place_all] in Hrun.
  replace (scan_fuel _) with 2%nat in Hrun by reflexivity.
  cbn [scan suggestions] in Hrun.
  change ([(0, 0, TOP_LEFT)] !! 0%nat) with (Some (0, 0, TOP_LEFT)) in Hrun.
  cbv iota beta in Hrun. unfold scan_body in Hrun.
  cbn [suggestions authors mapped_boxes store fst snd] in Hrun.
  rewrite lookup_total_insert_eq in Hrun.
  assert (Hanchor : _is_out_of_bounds width height (0, 0) (0, 0) = false).
  { apply in_bounds_iff. cbn. split_and!; try lia.
    intros hg Hhg. specialize (Hh hg Hhg). lia. }
  assert (Hbox : _is_out_of_bounds width height
             (UvBox.uv (UvMcCube.base
                (UvMcCube.apply_suggestion (h !!! b) (0, 0, TOP_LEFT))))
             (UvBox.size (UvMcCube.base
                (UvMcCube.apply_suggestion (h !!! b) (0, 0, TOP_LEFT))))
           = false).
  { apply in_bounds_iff. cbn. split_and!; try lia.
    intros hg Hhg. specialize (Hfh hg Hhg). lia. }
  rewrite Hanchor, Hbox in Hrun. cbn [negb first_collision] in Hrun.
  cbv iota beta in Hrun.
  apply place_all_frame with (r := b) in Hrun; [|done].
  cbn [store] in Hrun. rewrite lookup_total_insert_eq in Hrun.
  unfold cube_uv. by rewrite Hrun.
Qed.

Lemma first_box_at_origin_witness :
  cube_uv two_cubes_packed 1%positive = (0, 0) ∧
  UvBox.is_mapped (UvMcCube.base (two_cubes_packed !!! 1%positive)) = true.
Proof.
  apply (first_box_at_origin last_seen [2; 1]%positive 13 (Some 3) two_cubes
           true two_cubes_packed 1%positive last_seen_set_iteration).
  - intros r Hr. apply list_elem_of_In in Hr.
    destruct Hr as [<-|[<-|[]]]; vm_compute; reflexivity.
  - vm_compute. reflexivity.
  - lia.
  - intros hg [= <-]. lia.
  - vm_compute. discriminate.
  - intros hg [= <-]. vm_compute. discriminate.
  - vm_compute. reflexivity.
Defined.

(** ** More on the grouping adapter *)

Lemma fresh_not_in (h : heap) : h !! fresh (dom h) = None.
Proof. apply not_elem_of_dom, is_fresh. Qed.

Lemma items_key_eq (o1 o2 : Object) :
  items_key o1 = items_key o2 ↔ rounded_scale o1 = rounded_scale o2.
Proof.
  unfold items_key.
  destruct (rounded_scale o1) as [[w1 h1] d1],
           (rounded_scale o2) as [[w2 h2] d2].
  split; intros [= -> -> ->]; done.
Qed.

Lemma grouped_read_uv flag g obj : grouped flag g obj → read_uv flag obj = None.
Proof. intros [_ [-> | Hn]]; [done|]. unfold read_uv. by destruct flag. Qed.

Lemma grouped_cube_of flag g o1 o2 :
  grouped flag g o1 → grouped flag g o2 → items_key o1 = items_key o2 →
  cube_of flag o1 = cube_of flag o2.
Proof.
  intros H1%grouped_read_uv H2%grouped_read_uv Hk%items_key_eq.
  unfold cube_of. by rewrite H1, H2, Hk.
Qed.

Lemma same_name_same_object (l : list Object) o1 o2 :
  NoDup (name <$> l) → o1 ∈ l → o2 ∈ l → name o1 = name o2 → o1 = o2.
Proof.
  induction l as [|x l IH]; intros Hnd H1 H2 Hn; [by apply elem_of_nil in H1|].
  rewrite fmap_cons in Hnd. apply NoDup_cons in Hnd as [Hx Hnd].
  apply elem_of_cons in H1 as [->|H1], H2 as [->|H2]; auto.
  - exfalso. apply Hx. rewrite Hn. by apply list_elem_of_fmap_2.
  - exfalso. apply Hx. rewrite <- Hn. by apply list_elem_of_fmap_2.
Qed.

(** The step of the loop, described by the cube it assigns: either a new
    cube, registered for the group when the object is grouped, or the cube
    registered for the group and size of the object. *)
Lemma get_uv_mc_cubes_body_cases flag st obj :
  (∃ r, r = fresh (dom (cubes st)) ∧
        get_uv_mc_cubes_body flag st obj =
          Adapter (uv_groups st) (<[name obj := r]> (result st))
                  (<[r := cube_of flag obj]> (cubes st)) ∧
        ∀ g, grouped flag g obj → False) ∨
  (∃ g r, grouped flag g obj ∧
        default ∅ (uv_groups st !! g) !! items_key obj = Some r ∧
        get_uv_mc_cubes_body flag st obj =
          Adapter (uv_groups st) (<[name obj := r]> (result st)) (cubes st)) ∨
  (∃ g r, grouped flag g obj ∧ r = fresh (dom (cubes st)) ∧
        default ∅ (uv_groups st !! g) !! items_key obj = None ∧
        get_uv_mc_cubes_body flag st obj =
          Adapter (<[g := <[items_key obj := r]>
                             (default ∅ (uv_groups st !! g))]> (uv_groups st))
                  (<[name obj := r]> (result st))
                  (<[r := cube_of flag obj]> (cubes st))).
Proof.
  unfold get_uv_mc_cubes_body, new_cube, cube_of, read_uv, items_key, grouped.
  destruct (rounded_scale obj) as [[w hh] d].
  destruct (if flag then mc_uv obj else None) as [p|] eqn:Hread.
  { left. eexists. split_and!; [done..|].
    intros g [_ [-> | Hn]]; [done|]. rewrite Hn in Hread. by destruct flag. }
  assert (Hr : flag = false ∨ mc_uv obj = None).
  { destruct flag; [by right|by left]. }
  destruct (mc_uv_group obj) as [g|] eqn:Hg.
  - destruct (default ∅ (uv_groups st !! g) !! (w, d, hh)) as [r|] eqn:Hit.
    + right. left. by exists g, r.
    + right. right. exists g. eexists. by split_and!.
  - left. eexists. split_and!; [done..|]. by intros g [? _].
Qed.

Lemma get_uv_mc_cubes_keys_run flag (objects : list Object) (h : heap) n :
  is_Some (result (get_uv_mc_cubes_run objects flag h) !! n) ↔
  n ∈ name <$> objects.
Proof.
  unfold get_uv_mc_cubes_run.
  induction objects as [|obj l IH] using rev_ind.
  - cbn. rewrite lookup_empty, elem_of_nil. split; [by intros [? ?]|done].
  - rewrite foldl_app, fmap_app, elem_of_app. cbn.
    rewrite list_elem_of_singleton, <- IH.
    destruct (get_uv_mc_cubes_body_cases flag
                (foldl (get_uv_mc_cubes_body flag) (Adapter ∅ ∅ h) l) obj)
      as [(r & _ & -> & _)|[(g & r & _ & _ & ->)|(g & r & _ & _ & _ & ->)]];
      cbn [result]; rewrite lookup_insert_is_Some;
      destruct (decide (name obj = n)); intuition congruence.
Qed.

Lemma get_uv_mc_cubes_body_adapter_inv flag h0 (l : list Object) st obj :
  NoDup (name <$> (l ++ [obj])) →
  (∀ x, is_Some (result st !! x) ↔ x ∈ name <$> l) →
  adapter_inv flag h0 l st →
  adapter_inv flag h0 (l ++ [obj]) (get_uv_mc_cubes_body flag st obj).
Proof.
  intros Hnd Hdom Hinv.
  pose proof Hnd as Hnd'.
  rewrite fmap_app in Hnd'. apply NoDup_app in Hnd' as (_ & Hdisj & _).
  assert (Hname : ∀ o, o ∈ l → name obj ≠ name o).
  { intros o Ho Heq. apply (Hdisj (name o)); [by apply list_elem_of_fmap_2|].
    rewrite <- Heq. cbn. left. }
  destruct Hinv as (I1 & I2 & I3 & I4).
  assert (Hold : ∀ o r, o ∈ l → result st !! name o = Some r →
                 r ≠ fresh (dom (cubes st))).
  { intros o r Ho Hr Heq. destruct (I2 o Ho) as (r' & Hr' & Hc & _).
    simplify_eq. rewrite fresh_not_in in Hc. done. }
  assert (Hh0 : ∀ r, is_Some (h0 !! r) → r ≠ fresh (dom (cubes st))).
  { intros r Hr Heq. rewrite <- (I1 r Hr), Heq, fresh_not_in in Hr.
    by destruct Hr. }
  destruct (get_uv_mc_cubes_body_cases flag st obj)
    as [(r & Hr & -> & Hng)|[(g & r & Hg & Hit & ->)|(g & r & Hg & Hr & Hit & ->)]];
    unfold adapter_inv; cbn [uv_groups result cubes].
  - (* a new cube, no group *)
    split_and!.
    + intros x Hx. rewrite lookup_insert_ne; [by apply I1|].
      subst r. intros Heq. by apply (Hh0 x).
    + intros o [Ho| ->%list_elem_of_singleton]%elem_of_app.
      * destruct (I2 o Ho) as (r' & Hr' & Hc & Hn). exists r'.
        rewrite lookup_insert_ne by by apply Hname.
        rewrite lookup_insert_ne; [done|]. subst r. intros Heq.
        by apply (Hold o r').
      * exists r. rewrite !lookup_insert_eq. split_and!; try done.
        destruct (h0 !! r) eqn:E; [|done]. exfalso.
        apply (Hh0 r); [eauto|done].
    + intros g k r' Hk. destruct (I3 g k r' Hk) as (o & Ho & Hgo & Hko & Hro).
      exists o. split_and!; try done; [apply elem_of_app; by left|].
      by rewrite lookup_insert_ne by by apply Hname.
    + intros o1 o2 r'
        [H1| ->%list_elem_of_singleton]%elem_of_app
        [H2| ->%list_elem_of_singleton]%elem_of_app; try by left.
      * rewrite !lookup_insert_ne by by apply Hname. by apply I4.
      * rewrite lookup_insert_eq, lookup_insert_ne by by apply Hname.
        intros Hr1 [= <-]. exfalso. subst r. by apply (Hold o1 _ H1 Hr1).
      * rewrite lookup_insert_eq, lookup_insert_ne by by apply Hname.
        intros [= <-] Hr2. exfalso. subst r. by apply (Hold o2 _ H2 Hr2).
  - (* the cube of the group *)
    destruct (I3 g _ r Hit) as (o' & Ho' & Hgo' & Hko' & Hro').
    destruct (I2 o' Ho') as (r' & Hr' & Hc' & Hn').
    assert (r' = r) as -> by congruence.
    split_and!.
    + done.
    + intros o [Ho| ->%list_elem_of_singleton]%elem_of_app.
      * destruct (I2 o Ho) as (r'' & Hr'' & Hc & Hn). exists r''.
        by rewrite lookup_insert_ne by by apply Hname.
      * exists r. rewrite lookup_insert_eq. split_and!; try done.
        rewrite Hc'. f_equal. by eapply grouped_cube_of.
    + intros g' k r'' Hk.
      destruct (I3 g' k r'' Hk) as (o & Ho & Hgo & Hko & Hro).
      exists o. split_and!; try done; [apply elem_of_app; by left|].
      by rewrite lookup_insert_ne by by apply Hname.
    + assert (Hshare : ∀ o2, o2 ∈ l → result st !! name o2 = Some r →
                ∃ g0, grouped flag g0 obj ∧ grouped flag g0 o2 ∧
                      items_key obj = items_key o2).
      { intros o2 H2 Hr2.
        destruct (I4 o' o2 r Ho' H2 Hr' Hr2) as [Hn|(g0 & G1 & G2 & Hk)].
        - assert (o' = o2) as <-.
          { apply (same_name_same_object l); try done.
            rewrite fmap_app in Hnd. by apply NoDup_app in Hnd as (? & _). }
          by exists g.
        - exists g. destruct Hgo' as [Hg1 ?], G1 as [Hg2 ?]. simplify_eq.
          split_and!; [done..|]. by rewrite <- Hko'. }
      intros o1 o2 r''
        [H1| ->%list_elem_of_singleton]%elem_of_app
        [H2| ->%list_elem_of_singleton]%elem_of_app; try by left.
      * rewrite !lookup_insert_ne by by apply Hname. by apply I4.
      * rewrite lookup_insert_eq, lookup_insert_ne by by apply Hname.
        intros Hr1 [= <-]. right.
        destruct (Hshare o1 H1 Hr1) as (g0 & ? & ? & ?). by exists g0.
      * rewrite lookup_insert_eq, lookup_insert_ne by by apply Hname.
        intros [= <-] Hr2. right. by apply Hshare.
  - (* a new cube, registered for the group *)
    split_and!.
    + intros x Hx. rewrite lookup_insert_ne; [by apply I1|].
      subst r. intros Heq. by apply (Hh0 x).
    + intros o [Ho| ->%list_elem_of_singleton]%elem_of_app.
      * destruct (I2 o Ho) as (r' & Hr' & Hc & Hn). exists r'.
        rewrite lookup_insert_ne by by apply Hname.
        rewrite lookup_insert_ne; [done|]. subst r. intros Heq.
        by apply (Hold o r').
      * exists r. rewrite !lookup_insert_eq. split_and!; try done.
        destruct (h0 !! r) eqn:E; [|done]. exfalso.
        apply (Hh0 r); [eauto|done].
    + intros g' k r' Hk.
      destruct (decide (g = g')) as [<-|Hgg].
      * rewrite lookup_insert_eq in Hk. cbn in Hk.
        destruct (decide (items_key obj = k)) as [<-|Hkk].
        -- rewrite lookup_insert_eq in Hk. simplify_eq. exists obj.
           split_and!; try done; [apply elem_of_app; right; left|].
           by rewrite lookup_insert_eq.
        -- rewrite lookup_insert_ne in Hk by done.
           destruct (I3 g k r' Hk) as (o & Ho & Hgo & Hko & Hro).
           exists o. split_and!; try done; [apply elem_of_app; by left|].
           by rewrite lookup_insert_ne by by apply Hname.
      * rewrite lookup_insert_ne in Hk by done.
        destruct (I3 g' k r' Hk) as (o & Ho & Hgo & Hko & Hro).
        exists o. split_and!; try done; [apply elem_of_app; by left|].
        by rewrite lookup_insert_ne by by apply Hname.
    + intros o1 o2 r'
        [H1| ->%list_elem_of_singleton]%elem_of_app
        [H2| ->%list_elem_of_singleton]%elem_of_app; try by left.
      * rewrite !lookup_insert_ne by by apply Hname. by apply I4.
      * rewrite lookup_insert_eq, lookup_insert_ne by by apply Hname.
        intros Hr1 [= <-]. exfalso. subst r. by apply (Hold o1 _ H1 Hr1).
      * rewrite lookup_insert_eq, lookup_insert_ne by by apply Hname.
        intros [= <-] Hr2. exfalso. subst r. by apply (Hold o2 _ H2 Hr2).
Qed.

Lemma get_uv_mc_cubes_run_adapter_inv flag (objects : list Object) (h : heap) :
  NoDup (name <$> objects) →
  adapter_inv flag h objects (get_uv_mc_cubes_run objects flag h).
Proof.
  induction objects as [|obj l IH] using rev_ind; intros Hnd.
  - unfold get_uv_mc_cubes_run, adapter_inv.
    cbn [foldl uv_groups result cubes]. split_and!.
    + done.
    + intros o Ho. by apply elem_of_nil in Ho.
    + intros g k r. rewrite lookup_empty. cbn. by rewrite lookup_empty.
    + intros o1 o2 r Ho. by apply elem_of_nil in Ho.
  - unfold get_uv_mc_cubes_run. rewrite foldl_app. cbn.
    apply get_uv_mc_cubes_body_adapter_inv; [done| |].
    + intros x. apply get_uv_mc_cubes_keys_run.
    + apply IH. rewrite fmap_app in Hnd. by apply NoDup_app in Hnd as (? & _).
Qed.

Lemma plan_uv_frame_mapped set_iter boxes width height (h : heap) ok h' r :
  plan_uv set_iter boxes width height h = Some (ok, h') →
  UvBox.is_mapped (UvMcCube.base (h !!! r)) = true →
  h' !!! r = h !!! r.
Proof.
  intros (st' & Hrun & <-)%plan_uv_Some Hm. unfold plan_uv_run in Hrun.
  apply place_all_frame with (r := r) in Hrun; [done|].
  by apply mapped_not_unmapped.
Qed.

(** X16. The dictionary that [get_uv_mc_cubes] returns has exactly the
    names of the objects as its keys. *)
Theorem get_uv_mc_cubes_keys objects flag (h : heap) n :
  is_Some ((get_uv_mc_cubes objects flag h).1 !! n) ↔ n ∈ name <$> objects.
Proof. apply get_uv_mc_cubes_keys_run. Qed.

(** X17. Objects of distinct names: every object resolves to a cube that
    the call created, of the dimensions of the object, mapped at the
    ['mc_uv'] of the object when that is read, and unmapped at (0, 0)
    otherwise. *)
Theorem get_uv_mc_cubes_cube_of_object objects flag (h : heap) obj :
  NoDup (name <$> objects) → obj ∈ objects →
  ∃ r c, (get_uv_mc_cubes objects flag h).1 !! name obj = Some r ∧
         (get_uv_mc_cubes objects flag h).2 !! r = Some c ∧
         h !! r = None ∧
         (UvMcCube.width c, UvMcCube.height c, UvMcCube.depth c)
           = rounded_scale obj ∧
         cube_layout c ∧
         UvBox.is_mapped (UvMcCube.base c)
           = bool_decide (is_Some (read_uv flag obj)) ∧
         UvBox.uv (UvMcCube.base c) = default (0, 0) (read_uv flag obj).
Proof.
  intros Hnd Hin.
  destruct (get_uv_mc_cubes_run_adapter_inv flag objects h Hnd)
    as (_ & I2 & _).
  destruct (I2 obj Hin) as (r & Hr & Hc & Hn).
  exists r, (cube_of flag obj). unfold get_uv_mc_cubes. cbn [fst snd].
  split_and!; try done; unfold cube_of;
    destruct (rounded_scale obj) as [[w hh] d].
  - done.
  - apply init_layout.
  - by destruct (read_uv flag obj).
  - by destruct (read_uv flag obj).
Qed.

Lemma get_uv_mc_cubes_cube_of_object_witness :
  ∃ r c, (get_uv_mc_cubes group_A true ∅).1 !! "a"%string = Some r ∧
         (get_uv_mc_cubes group_A true ∅).2 !! r = Some c ∧
         UvBox.uv (UvMcCube.base c) = (5, 5).
Proof.
  destruct (get_uv_mc_cubes_cube_of_object group_A true ∅
    {| name := "a"; rounded_scale := (3, 3, 3); mc_uv := Some (5, 5);
       mc_uv_group := Some "A"%string |})
    as (r & c & H1 & H2 & _ & _ & _ & _ & H3).
  - apply (bool_decide_unpack _). vm_compute. exact I.
  - vm_compute. left.
  - exists r, c. split_and!; [exact H1|exact H2|exact H3].
Defined.

(** X18. Objects of distinct names resolve to the same cube exactly when
    they are grouped (they have a group and no placement is read from
    them), in the same group, with the same rounded size. *)
Theorem get_uv_mc_cubes_sharing_iff objects flag (h : heap) o1 o2 :
  NoDup (name <$> objects) →
  o1 ∈ objects → o2 ∈ objects → name o1 ≠ name o2 →
  (get_uv_mc_cubes objects flag h).1 !! name o1 =
  (get_uv_mc_cubes objects flag h).1 !! name o2 ↔
  ∃ g, grouped flag g o1 ∧ grouped flag g o2 ∧
       rounded_scale o1 = rounded_scale o2.
Proof.
  intros Hnd H1 H2 Hne.
  destruct (get_uv_mc_cubes_run_adapter_inv flag objects h Hnd)
    as (_ & I2 & _ & I4).
  pose proof (get_uv_mc_cubes_run_inv flag objects h Hnd) as Hinv.
  unfold get_uv_mc_cubes. cbn [fst]. split.
  - intros Heq. destruct (I2 o1 H1) as (r & Hr & _).
    destruct (I4 o1 o2 r H1 H2 Hr) as [?|(g & G1 & G2 & Hk)];
      [congruence|done|].
    exists g. split_and!; try done. by apply items_key_eq.
  - intros (g & G1 & G2 & Hk%items_key_eq).
    destruct (Hinv o1 g H1 G1) as (r1 & Hr1 & Hk1).
    destruct (Hinv o2 g H2 G2) as (r2 & Hr2 & Hk2).
    rewrite Hr1, Hr2. congruence.
Qed.

Lemma get_uv_mc_cubes_sharing_iff_witness :
  (get_uv_mc_cubes group_and_single true ∅).1 !! "p"%string ≠
  (get_uv_mc_cubes group_and_single true ∅).1 !! "r"%string.
Proof.
  intros Heq.
  apply (get_uv_mc_cubes_sharing_iff group_and_single true ∅
    {| name := "p"; rounded_scale := (3, 3, 3); mc_uv := None;
       mc_uv_group := Some "A"%string |}
    {| name := "r"; rounded_scale := (3, 3, 3); mc_uv := None;
       mc_uv_group := None |}) in Heq.
  - destruct Heq as (g & _ & [Hg _] & _). discriminate Hg.
  - apply (bool_decide_unpack _). vm_compute. exact I.
  - vm_compute. left.
  - vm_compute. right. right. left.
  - discriminate.
Defined.

(** X19. [get_uv_mc_cubes] only creates objects: the objects that the store
    held before the call are as they were. *)
Theorem get_uv_mc_cubes_keeps_store objects flag (h : heap) r :
  is_Some (h !! r) → (get_uv_mc_cubes objects flag h).2 !! r = h !! r.
Proof.
  unfold get_uv_mc_cubes, get_uv_mc_cubes_run. cbn [snd].
  induction objects as [|obj l IH] using rev_ind; intros Hr; [done|].
  rewrite foldl_app. cbn [foldl].
  destruct (get_uv_mc_cubes_body_cases flag
              (foldl (get_uv_mc_cubes_body flag) (Adapter ∅ ∅ h) l) obj)
    as [(x & Hx & -> & _)|[(g & x & _ & _ & ->)|(g & x & _ & Hx & _ & ->)]];
    cbn [cubes]; try by apply IH.
  - rewrite lookup_insert_ne; [by apply IH|]. intros <-.
    rewrite <- (IH Hr), Hx, fresh_not_in in Hr. by destruct Hr.
  - rewrite lookup_insert_ne; [by apply IH|]. intros <-.
    rewrite <- (IH Hr), Hx, fresh_not_in in Hr. by destruct Hr.
Qed.

Lemma get_uv_mc_cubes_keeps_store_witness :
  (get_uv_mc_cubes group_A true two_cubes).2 !! 2%positive =
  two_cubes !! 2%positive.
Proof.
  apply (get_uv_mc_cubes_keeps_store group_A true two_cubes 2%positive).
  vm_compute. eexists. reflexivity.
Defined.

(** X20. A placement that is read is kept through the packing: with
    [read_existing_uvs], the cube of an object that has an ['mc_uv'] is at
    that position after [get_uv_mc_cubes] and any run of [plan_uv] on the
    store it leaves, whatever [plan_uv] returns. *)
Theorem existing_uv_kept_through_packing objects (h : heap) obj p
    set_iter boxes width height ok h' :
  NoDup (name <$> objects) → obj ∈ objects → mc_uv obj = Some p →
  plan_uv set_iter boxes width height (get_uv_mc_cubes objects true h).2
    = Some (ok, h') →
  ∃ r, (get_uv_mc_cubes objects true h).1 !! name obj = Some r ∧
       cube_uv h' r = p.
Proof.
  intros Hnd Hin Huv Hplan.
  destruct (get_uv_mc_cubes_run_adapter_inv true objects h Hnd)
    as (_ & I2 & _).
  destruct (I2 obj Hin) as (r & Hr & Hc & _). exists r. split; [done|].
  apply lookup_total_correct in Hc.
  unfold get_uv_mc_cubes in Hplan. cbn [snd] in Hplan.
  unfold cube_uv. rewrite (plan_uv_frame_mapped _ _ _ _ _ _ _ r Hplan).
  - rewrite Hc. unfold cube_of, read_uv. rewrite Huv.
    by destruct (rounded_scale obj) as [[w hh] d].
  - rewrite Hc. unfold cube_of, read_uv. rewrite Huv.
    by destruct (rounded_scale obj) as [[w hh] d].
Qed.

Lemma existing_uv_kept_through_packing_witness :
  ∃ r, (get_uv_mc_cubes group_A true ∅).1 !! "a"%string = Some r ∧
       cube_uv (default ∅ (snd <$> plan_uv last_seen [1; 2]%positive 64 None
                                    (get_uv_mc_cubes group_A true ∅).2)) r
         = (5, 5).
Proof.
  apply (existing_uv_kept_through_packing group_A ∅
    {| name := "a"; rounded_scale := (3, 3, 3); mc_uv := Some (5, 5);
       mc_uv_group := Some "A"%string |} (5, 5)
    last_seen [1; 2]%positive 64 None true).
  - apply (bool_decide_unpack _). vm_compute. exact I.
  - vm_compute. left.
  - reflexivity.
  - vm_compute. reflexivity.
Defined.

(** ** The suggestions of a cube *)

Lemma suggestion_apart (a b : UvBox.t) s :
  s ∈ UvBox.suggest_positions a →
  UvBox.collides (UvBox.apply_suggestion b s) a = false ∧
  touches a (UvBox.apply_suggestion b s).
Proof.
  intros Hs. rewrite collides_false_iff.
  unfold touches. apply list_elem_of_In in Hs. cbn in Hs.
  repeat (destruct Hs as [<-|Hs]; [cbn; lia|]). destruct Hs.
Qed.

Lemma cube_suggest_positions_eq (c : UvMcCube.t) :
  UvMcCube.suggest_positions c =
  omap (λ i, UvBox.suggest_positions (UvMcCube.right c) !! i) [0; 5; 6]%nat ++
  omap (λ i, UvBox.suggest_positions (UvMcCube.top c) !! i) [0; 6; 7]%nat ++
  omap (λ i, UvBox.suggest_positions (UvMcCube.bottom c) !! i) [1; 2; 3]%nat ++
  omap (λ i, UvBox.suggest_positions (UvMcCube.back c) !! i) [1; 3; 4]%nat.
Proof. reflexivity. Qed.

(** X21. The twelve suggestions of a cube are suggestions of its right,
    top, bottom and back faces, three of each, and none comes from the
    front or the left face: a box put at one of them touches the face the
    suggestion comes from and does not collide with it. *)
Theorem cube_suggestions_come_from_faces (c : UvMcCube.t) (b : UvBox.t) s :
  s ∈ UvMcCube.suggest_positions c →
  ∃ f, f ∈ [UvMcCube.right c; UvMcCube.top c; UvMcCube.bottom c;
            UvMcCube.back c] ∧
       s ∈ UvBox.suggest_positions f ∧
       UvBox.collides (UvBox.apply_suggestion b s) f = false ∧
       touches f (UvBox.apply_suggestion b s).
Proof.
  rewrite cube_suggest_positions_eq, !elem_of_app.
  intros Hs.
  assert (Hf : ∃ f, f ∈ [UvMcCube.right c; UvMcCube.top c; UvMcCube.bottom c;
                         UvMcCube.back c] ∧ s ∈ UvBox.suggest_positions f).
  { destruct Hs as [Hs|[Hs|[Hs|Hs]]];
      apply list_elem_of_omap in Hs as (i & _ & Hi);
      apply list_elem_of_lookup_2 in Hi;
      [exists (UvMcCube.right c)|exists (UvMcCube.top c)
      |exists (UvMcCube.bottom c)|exists (UvMcCube.back c)];
      (split; [|done]); rewrite !elem_of_cons; tauto. }
  destruct Hf as (f & Hf & Hsf). exists f.
  destruct (suggestion_apart f b s Hsf). by split_and!.
Qed.

Lemma cube_suggestions_come_from_faces_witness :
  ∃ f, f ∈ [UvMcCube.right (UvMcCube.init 3 1 1 None);
            UvMcCube.top (UvMcCube.init 3 1 1 None);
            UvMcCube.bottom (UvMcCube.init 3 1 1 None);
            UvMcCube.back (UvMcCube.init 3 1 1 None)] ∧
       ((8, 1), BOTTOM_LEFT) ∈ UvBox.suggest_positions f ∧
       UvBox.collides
         (UvBox.apply_suggestion (UvBox.init (6, 3) None)
            ((8, 1), BOTTOM_LEFT)) f = false ∧
       touches f (UvBox.apply_suggestion (UvBox.init (6, 3) None)
                    ((8, 1), BOTTOM_LEFT)).
Proof.
  apply (cube_suggestions_come_from_faces (UvMcCube.init 3 1 1 None)
           (UvBox.init (6, 3) None) ((8, 1), BOTTOM_LEFT)).
  vm_compute. do 10 right. left.
Defined.

(** ** Writing the coordinates of a face *)

Lemma write_loop_Some {T} (uv_face : gmap string nat) key (val : T * T) d d' :
  write_loop T uv_face key val d = Some d' ↔
  ∃ idx, uv_face !! key = Some idx ∧ (idx < length d)%nat ∧
         d' = <[idx := val]> d.
Proof.
  unfold write_loop. destruct (uv_face !! key) as [idx|]; cbn.
  - case_decide; split.
    + intros [= <-]. by exists idx.
    + by intros (? & [= <-] & _ & ->).
    + done.
    + intros (? & [= <-] & ? & _). lia.
  - split; [done|]. by intros (? & ? & _).
Qed.

Lemma loop_order_elem mirror_y mirror_x key :
  key ∈ loop_order mirror_y mirror_x ↔
  key ∈ ["LD"; "RD"; "RU"; "LU"]%string.
Proof.
  destruct mirror_y, mirror_x; cbn; rewrite !elem_of_cons, !elem_of_nil;
    tauto.
Qed.

Lemma loop_order_spec mirror_y mirror_x :
  ∃ k0 k1 k2 k3, loop_order mirror_y mirror_x = [k0; k1; k2; k3].
Proof. destruct mirror_y, mirror_x; by eexists _, _, _, _. Qed.

Lemma set_uv_Some {T} add (data : list (T * T)) uv_face crds size my mx data' :
  set_uv T add data uv_face crds size my mx = Some data' →
  ∃ k0 k1 k2 k3 l0 l1 l2 l3,
    loop_order my mx = [k0; k1; k2; k3] ∧
    uv_face !! k0 = Some l0 ∧ uv_face !! k1 = Some l1 ∧
    uv_face !! k2 = Some l2 ∧ uv_face !! k3 = Some l3 ∧
    (l0 < length data)%nat ∧ (l1 < length data)%nat ∧
    (l2 < length data)%nat ∧ (l3 < length data)%nat ∧
    data' = <[l3 := (crds.1, add crds.2 size.2)]>
              (<[l2 := (add crds.1 size.1, add crds.2 size.2)]>
                 (<[l1 := (add crds.1 size.1, crds.2)]>
                    (<[l0 := crds]> data))).
Proof.
  unfold set_uv.
  destruct (loop_order_spec my mx) as (k0 & k1 & k2 & k3 & ->).
  cbn [lookup_total list_lookup_total].
  intros H.
  apply bind_Some in H as (d1 & H1 & H).
  apply bind_Some in H as (d2 & H2 & H).
  apply bind_Some in H as (d3 & H3 & H4).
  apply write_loop_Some in H1 as (l0 & E0 & L0 & ->).
  apply write_loop_Some in H2 as (l1 & E1 & L1 & ->).
  apply write_loop_Some in H3 as (l2 & E2 & L2 & ->).
  apply write_loop_Some in H4 as (l3 & E3 & L3 & ->).
  rewrite ?length_insert in *.
  by exists k0, k1, k2, k3, l0, l1, l2, l3.
Qed.

(** X22. After [set_uv] the four loops of the face, when they are four
    different loops, hold the four corners of the rectangle [crds], [size]:
    each loop its own corner without a flag, the corner across the vertical
    axis with [mirror_x] alone (left and right exchanged), the opposite
    corner with [mirror_y] alone (a half turn, not a flip), and the corner
    across the horizontal axis (down and up exchanged) only with both
    flags. *)
Theorem set_uv_corners {T} (add : T → T → T) (data : list (T * T))
    (uv_face : gmap string nat) crds size mirror_y mirror_x data'
    (l0 l1 l2 l3 : nat) :
  set_uv T add data uv_face crds size mirror_y mirror_x = Some data' →
  uv_face !! "LD"%string = Some l0 → uv_face !! "RD"%string = Some l1 →
  uv_face !! "RU"%string = Some l2 → uv_face !! "LU"%string = Some l3 →
  NoDup [l0; l1; l2; l3] →
  ∀ key l, key ∈ ["LD"; "RD"; "RU"; "LU"]%string →
    uv_face !! key = Some l →
    data' !! l = Some (corner_uv T add crds size
                         (mirrored mirror_y mirror_x key)).
Proof.
  intros Hs E0 E1 E2 E3 Hnd key l Hkey El.
  apply set_uv_Some in Hs
    as (k0 & k1 & k2 & k3 & m0 & m1 & m2 & m3 & Ho & F0 & F1 & F2 & F3 &
        L0 & L1 & L2 & L3 & ->).
  assert (Hne : ∀ i j a b, [l0; l1; l2; l3] !! i = Some a →
            [l0; l1; l2; l3] !! j = Some b → i ≠ j → a ≠ b).
  { intros i j a b Hi Hj Hij ->. apply Hij.
    by apply (proj1 (NoDup_alt _) Hnd i j b). }
  pose proof (Hne 0 1 l0 l1 eq_refl eq_refl ltac:(lia))%nat.
  pose proof (Hne 0 2 l0 l2 eq_refl eq_refl ltac:(lia))%nat.
  pose proof (Hne 0 3 l0 l3 eq_refl eq_refl ltac:(lia))%nat.
  pose proof (Hne 1 2 l1 l2 eq_refl eq_refl ltac:(lia))%nat.
  pose proof (Hne 1 3 l1 l3 eq_refl eq_refl ltac:(lia))%nat.
  pose proof (Hne 2 3 l2 l3 eq_refl eq_refl ltac:(lia))%nat.
  clear Hne Hnd.
  rewrite !elem_of_cons in Hkey.
  destruct mirror_y, mirror_x; cbn in Ho; simplify_eq;
    destruct Hkey as [->|[->|[->|[->|Hkey]]]];
    try (by apply elem_of_nil in Hkey); simplify_eq; cbn;
    repeat first
      [ rewrite list_lookup_insert_eq by (rewrite ?length_insert; lia)
      | rewrite list_lookup_insert_ne by done ];
    reflexivity.
Qed.

Lemma set_uv_corners_witness :
  [(0, 0); (0, 0); (0, 0); (0, 0); (10, 5); (2, 5); (2, 20); (10, 20)]
    !! 5%nat =
  Some (corner_uv Z Z.add (2, 5) (8, 15) (mirrored false true "RD")).
Proof.
  apply (set_uv_corners Z.add (replicate 8 (0, 0))
           ({["LD" := 4; "RD" := 5; "RU" := 6; "LU" := 7]}%string%nat)
           (2, 5) (8, 15) false true _ 4%nat 5%nat 6%nat 7%nat).
  - vm_compute. reflexivity.
  - reflexivity.
  - reflexivity.
  - reflexivity.
  - reflexivity.
  - apply (bool_decide_unpack _). vm_compute. reflexivity.
  - apply (bool_decide_unpack _). vm_compute. reflexivity.
  - reflexivity.
Defined.

(** X23. [set_uv] goes through exactly when the dictionary of the face has
    the four keys and their loops exist; it then keeps the number of loops
    and changes no loop but the four of the face. *)
Theorem set_uv_frame {T} (add : T → T → T) (data : list (T * T))
    (uv_face : gmap string nat) crds size mirror_y mirror_x :
  (is_Some (set_uv T add data uv_face crds size mirror_y mirror_x) ↔
   ∀ key, key ∈ ["LD"; "RD"; "RU"; "LU"]%string →
     ∃ l, uv_face !! key = Some l ∧ (l < length data)%nat) ∧
  ∀ data', set_uv T add data uv_face crds size mirror_y mirror_x
             = Some data' →
    length data' = length data ∧
    ∀ l, (∀ key, key ∈ ["LD"; "RD"; "RU"; "LU"]%string →
            uv_face !! key ≠ Some l) →
         data' !! l = data !! l.
Proof.
  split; [split|].
  - intros [data' Hs] key Hkey.
    apply set_uv_Some in Hs
      as (k0 & k1 & k2 & k3 & m0 & m1 & m2 & m3 & Ho & F0 & F1 & F2 & F3 &
          L0 & L1 & L2 & L3 & _).
    apply (loop_order_elem mirror_y mirror_x) in Hkey. rewrite Ho in Hkey.
    rewrite !elem_of_cons in Hkey.
    destruct Hkey as [->|[->|[->|[->|Hkey]]]]; eauto.
    by apply elem_of_nil in Hkey.
  - intros Hall. unfold set_uv.
    assert (Hin : ∀ key, key ∈ loop_order mirror_y mirror_x →
              ∃ l, uv_face !! key = Some l ∧ (l < length data)%nat).
    { intros key Hkey. apply Hall.
      by apply (loop_order_elem mirror_y mirror_x). }
    destruct (loop_order_spec mirror_y mirror_x)
      as (k0 & k1 & k2 & k3 & Ho).
    rewrite Ho in *. cbn [lookup_total list_lookup_total].
    destruct (Hin k0) as (m0 & F0 & L0); [set_solver|].
    destruct (Hin k1) as (m1 & F1 & L1); [set_solver|].
    destruct (Hin k2) as (m2 & F2 & L2); [set_solver|].
    destruct (Hin k3) as (m3 & F3 & L3); [set_solver|].
    unfold write_loop. rewrite F0. cbn. rewrite decide_True by done. cbn.
    rewrite F1. cbn. rewrite decide_True by (by rewrite length_insert). cbn.
    rewrite F2. cbn. rewrite decide_True by (by rewrite !length_insert). cbn.
    rewrite F3. cbn. rewrite decide_True by (by rewrite !length_insert).
    done.
  - intros data' Hs.
    apply set_uv_Some in Hs
      as (k0 & k1 & k2 & k3 & m0 & m1 & m2 & m3 & Ho & F0 & F1 & F2 & F3 &
          L0 & L1 & L2 & L3 & ->).
    split; [by rewrite !length_insert|].
    intros l Hl.
    assert (Hin : ∀ key, key ∈ [k0; k1; k2; k3] → uv_face !! key ≠ Some l).
    { intros key Hkey. apply Hl.
      apply (loop_order_elem mirror_y mirror_x). by rewrite Ho. }
    assert (m0 ≠ l) by (intros ->; by apply (Hin k0); [set_solver|]).
    assert (m1 ≠ l) by (intros ->; by apply (Hin k1); [set_solver|]).
    assert (m2 ≠ l) by (intros ->; by apply (Hin k2); [set_solver|]).
    assert (m3 ≠ l) by (intros ->; by apply (Hin k3); [set_solver|]).
    by rewrite !list_lookup_insert_ne by done.
Qed.

Lemma set_uv_frame_witness :
  length [(0, 0); (0, 0); (0, 0); (0, 0); (10, 5); (2, 5); (2, 20); (10, 20)]
    = length (replicate 8 (0, 0)) ∧
  ∀ l, (∀ key, key ∈ ["LD"; "RD"; "RU"; "LU"]%string →
          ({["LD" := 4; "RD" := 5; "RU" := 6; "LU" := 7]}%string%nat
             : gmap string nat) !! key ≠ Some l) →
       [(0, 0); (0, 0); (0, 0); (0, 0); (10, 5); (2, 5); (2, 20); (10, 20)]
         !! l = replicate 8 (0, 0) !! l.
Proof.
  apply (proj2 (set_uv_frame Z.add (replicate 8 (0, 0))
           ({["LD" := 4; "RD" := 5; "RU" := 6; "LU" := 7]}%string%nat)
           (2, 5) (8, 15) false true)).
  vm_compute. reflexivity.
Defined.

(** * Wrapped Blender objects *)

Section common_facts.

Import common Stdlib.Strings.Ascii.
Local Open Scope string_scope.

Lemma Object_parent_ind (P : Object → Prop) :
  (∀ obj, (∀ p, obj_parent obj = Some p → P p) → P obj) →
  ∀ obj, P obj.
Proof.
  intros IH. fix rec 1. intros obj. apply IH.
  destruct obj as [n t pr [p|] pt pb c b pbs]; cbn; intros q [= <-].
  apply rec.
Qed.

(** X24. What a setter of a custom property is given is what its getter
    returns afterwards, with [None] or [False] for a property taken away,
    and a setter leaves every other custom property of the object as it
    was. *)
Theorem accessors_round_trip (thisobj : gmap string IDProp) :
  (∀ u v, mc_uv (set_mc_uv (Some (u, v)) thisobj) = Some [IInt u; IInt v]) ∧
  mc_uv (set_mc_uv None thisobj) = None ∧
  (∀ b, mc_mirror (set_mc_mirror b thisobj) = b) ∧
  (∀ b, mc_is_bone (set_mc_is_bone b thisobj) = b) ∧
  (∀ g, mc_uv_group (set_mc_uv_group g thisobj) = IDString <$> g) ∧
  (∀ uv key, key ≠ "mc_uv" → set_mc_uv uv thisobj !! key = thisobj !! key) ∧
  (∀ b key, key ≠ "mc_mirror" →
     set_mc_mirror b thisobj !! key = thisobj !! key) ∧
  (∀ b key, key ≠ "mc_is_bone" →
     set_mc_is_bone b thisobj !! key = thisobj !! key) ∧
  (∀ g key, key ≠ "mc_uv_group" →
     set_mc_uv_group g thisobj !! key = thisobj !! key).
Proof.
  split_and!.
  - intros u v. unfold mc_uv, set_mc_uv. by rewrite lookup_insert_eq.
  - unfold mc_uv, set_mc_uv. case_decide as Hin.
    + by rewrite lookup_delete_eq.
    + apply not_elem_of_dom in Hin. by rewrite Hin.
  - intros [|]; unfold mc_mirror, set_mc_mirror.
    + apply bool_decide_eq_true, elem_of_dom. by rewrite lookup_insert_eq.
    + apply bool_decide_eq_false. case_decide as Hin; [|done].
      rewrite elem_of_dom, lookup_delete_eq. by intros [? ?].
  - intros [|]; unfold mc_is_bone, set_mc_is_bone.
    + apply bool_decide_eq_true, elem_of_dom. by rewrite lookup_insert_eq.
    + apply bool_decide_eq_false. case_decide as Hin; [|done].
      rewrite elem_of_dom, lookup_delete_eq. by intros [? ?].
  - intros [g|]; unfold mc_uv_group, set_mc_uv_group.
    + by rewrite lookup_insert_eq.
    + case_decide as Hin.
      * by rewrite lookup_delete_eq.
      * apply not_elem_of_dom in Hin. by rewrite Hin.
  - intros [uv|] key Hk; unfold set_mc_uv.
    + by rewrite lookup_insert_ne.
    + case_decide; [by rewrite lookup_delete_ne|done].
  - intros [|] key Hk; unfold set_mc_mirror.
    + by rewrite lookup_insert_ne.
    + case_decide; [by rewrite lookup_delete_ne|done].
  - intros [|] key Hk; unfold set_mc_is_bone.
    + by rewrite lookup_insert_ne.
    + case_decide; [by rewrite lookup_delete_ne|done].
  - intros [g|] key Hk; unfold set_mc_uv_group.
    + by rewrite lookup_insert_ne.
    + case_decide; [by rewrite lookup_delete_ne|done].
Qed.

(** ** Names *)

Lemma split_first_no_dot s : no_dot s → split_first s = s.
Proof.
  unfold no_dot. induction s as [|c s IH]; [done|].
  cbn [split_first String.list_ascii_of_string].
  rewrite not_elem_of_cons. intros [Hc Hs].
  rewrite decide_False by congruence. by rewrite IH.
Qed.

Lemma split_first_app base suffix :
  no_dot base → split_first (base +:+ "." +:+ suffix) = base.
Proof.
  change ("." +:+ suffix) with (String "."%char suffix).
  unfold no_dot. induction base as [|c s IH]; [done|].
  change (String c s +:+ String "."%char suffix)
    with (String c (s +:+ String "."%char suffix)).
  cbn [split_first String.list_ascii_of_string].
  rewrite not_elem_of_cons. intros [Hc Hs].
  rewrite decide_False by congruence. by rewrite IH.
Qed.

Lemma split_first_is_no_dot s : no_dot (split_first s).
Proof.
  unfold no_dot. induction s as [|c s IH]; [by apply not_elem_of_nil|].
  cbn [split_first]. case_decide; [by apply not_elem_of_nil|].
  cbn [String.list_ascii_of_string].
  rewrite not_elem_of_cons. split; [congruence|done].
Qed.

Lemma name_not_armature self :
  obj_type (thisobj self) ≠ "ARMATURE" →
  name self = Ok (split_first (obj_name (thisobj self))).
Proof. intros H. unfold name. by rewrite decide_False. Qed.

(** X25. The name of a wrapped mesh or empty is the name of the Blender
    object up to its first dot: the name itself when it has no dot, and
    [base] for [base.suffix], so that the numbers Blender appends to the
    names of copies ([Cube.001]) are dropped. *)
Theorem name_drops_suffix (self : McblendObject) (base suffix : string) :
  obj_type (thisobj self) ≠ "ARMATURE" →
  no_dot base →
  obj_name (thisobj self) = base ∨
  obj_name (thisobj self) = base +:+ "." +:+ suffix →
  name self = Ok base.
Proof.
  intros Ht Hb Hn. rewrite name_not_armature by done. f_equal.
  destruct Hn as [->| ->].
  - by apply split_first_no_dot.
  - by apply split_first_app.
Qed.


Lemma name_drops_suffix_witness :
  name cube_copy = Ok "Cube".
Proof.
  apply (name_drops_suffix cube_copy "Cube" "001").
  - vm_compute. discriminate.
  - apply (bool_decide_unpack _). vm_compute. reflexivity.
  - right. reflexivity.
Defined.

Lemma name_cases self :
  (∃ n, name self = Ok n) ∨ name self = KeyError.
Proof.
  unfold name. case_decide; [|by left; eexists].
  destruct (by_name _ _ _); eauto.
Qed.

Lemma check_name_conflicts_loop_Ok values names :
  NoDup names →
  check_name_conflicts_loop values names = Ok tt ↔
  ∃ ns, Forall2 (λ o n, name o = Ok n) (filter is_bone values) ns ∧
        NoDup (names ++ ns).
Proof.
  revert names. induction values as [|o values IH]; intros names Hnd.
  - cbn. split; [intros _|done]. exists []. split; [constructor|].
    by rewrite app_nil_r.
  - cbn [check_name_conflicts_loop]. rewrite filter_cons.
    fold (is_bone o). destruct (decide (is_bone o)) as [Hb|Hb].
    + rewrite decide_False by (by intros H; apply H).
      destruct (name_cases o) as [[n Hn]|Hn]; rewrite Hn.
      * case_decide as Hin.
        -- split; [done|]. intros (ns & Hf & Hns).
           apply Forall2_cons_inv_l in Hf as (n' & ns' & Hn' & _ & ->).
           assert (n' = n) as -> by congruence.
           apply NoDup_app in Hns as (_ & Hns & _).
           exfalso. apply (Hns n Hin). by left.
        -- rewrite IH.
           ++ split.
              ** intros (ns & Hf & Hns). exists (n :: ns).
                 split; [by constructor|]. by rewrite cons_middle, app_assoc.
              ** intros (ns & Hf & Hns).
                 apply Forall2_cons_inv_l in Hf as (n' & ns' & Hn' & Hf & ->).
                 assert (n' = n) as -> by congruence.
                 exists ns'. split; [done|].
                 by rewrite cons_middle, app_assoc in Hns.
           ++ apply NoDup_app. split_and!; [done| |apply NoDup_singleton].
              intros x Hx ->%list_elem_of_singleton. done.
      * split; [done|]. intros (ns & Hf & _).
        apply Forall2_cons_inv_l in Hf as (n' & ns' & Hn' & _ & ->).
        congruence.
    + rewrite decide_True by done. by apply IH.
Qed.

Lemma check_name_conflicts_loop_conflict values names n :
  check_name_conflicts_loop values names = NameConflictException n →
  ∃ j o', values !! j = Some o' ∧ is_bone o' ∧ name o' = Ok n ∧
    (n ∈ names ∨
     ∃ i o, (i < j)%nat ∧ values !! i = Some o ∧ is_bone o ∧ name o = Ok n).
Proof.
  revert names. induction values as [|o values IH]; intros names; [done|].
  cbn [check_name_conflicts_loop]. fold (is_bone o).
  destruct (decide (is_bone o)) as [Hb|Hb].
  - rewrite decide_False by (by intros H; apply H).
    destruct (name_cases o) as [[m Hm]|Hm]; rewrite Hm; [|done].
    case_decide as Hin.
    + intros [= ->]. exists 0%nat, o. split_and!; [done..|by left].
    + intros (j & o' & Hj & Hb' & Hn' & Hor)%IH.
      exists (S j), o'. split_and!; [done..|].
      rewrite elem_of_app, list_elem_of_singleton in Hor.
      destruct Hor as [[Hor| ->]|(i & o'' & Hij & Hi & Hb'' & Hn'')].
      * by left.
      * right. exists 0%nat, o. split_and!; [lia|done..].
      * right. exists (S i), o''. split_and!; [lia|done..].
  - rewrite decide_True by done.
    intros (j & o' & Hj & Hb' & Hn' & Hor)%IH.
    exists (S j), o'. split_and!; [done..|].
    destruct Hor as [Hor|(i & o'' & Hij & Hi & Hb'' & Hn'')]; [by left|].
    right. exists (S i), o''. split_and!; [lia|done..].
Qed.

Lemma check_name_conflicts_loop_no_exception values names t :
  check_name_conflicts_loop values names ≠ Exception t.
Proof.
  revert names. induction values as [|o values IH]; intros names; [done|].
  cbn [check_name_conflicts_loop]. case_decide; [apply IH|].
  destruct (name_cases o) as [[m Hm]|Hm]; rewrite Hm; [|done].
  case_decide; [done|apply IH].
Qed.

(** X26. The test of the names lets a group through exactly when the
    objects that become bones ([BONE] or [BOTH]) all have a name and no two
    of them have the same one; cubes and locators do not count. When it
    raises [NameConflictException], the name it reports is the name of two
    such objects. *)
Theorem check_name_conflicts_iff (d : list ((string * string) * McblendObject)) :
  (_check_name_conflicts d = Ok tt ↔
   ∃ names, Forall2 (λ o n, name o = Ok n) (filter is_bone d.*2) names ∧
            NoDup names) ∧
  (∀ n, _check_name_conflicts d = NameConflictException n →
     ∃ i j o o', (i < j)%nat ∧ d.*2 !! i = Some o ∧ d.*2 !! j = Some o' ∧
       is_bone o ∧ is_bone o' ∧ name o = Ok n ∧ name o' = Ok n).
Proof.
  unfold _check_name_conflicts. split.
  - apply (check_name_conflicts_loop_Ok d.*2 []), NoDup_nil_2.
  - intros n (j & o' & Hj & Hb' & Hn' & Hor)%check_name_conflicts_loop_conflict.
    destruct Hor as [Hor|(i & o & Hij & Hi & Hb & Hn)].
    + by apply elem_of_nil in Hor.
    + by exists i, j, o, o'.
Qed.

Lemma check_name_conflicts_iff_witness :
  ∃ i j o o', (i < j)%nat ∧ cube_and_copy.*2 !! i = Some o ∧
    cube_and_copy.*2 !! j = Some o' ∧
    is_bone o ∧ is_bone o' ∧ name o = Ok "Cube" ∧ name o' = Ok "Cube".
Proof.
  apply (proj2 (check_name_conflicts_iff cube_and_copy) "Cube").
  vm_compute. reflexivity.
Defined.

Lemma Forall2_filter_names values ns i o :
  Forall2 (λ o n, name o = Ok n) (filter is_bone values) ns →
  values !! i = Some o → is_bone o →
  ∃ k n, ns !! k = Some n ∧ name o = Ok n ∧
         k = length (filter is_bone (take i values)).
Proof.
  intros Hf Hi Hb.
  rewrite <- (take_drop_middle values i o Hi) in Hf.
  rewrite filter_app, filter_cons, decide_True in Hf by done.
  apply Forall2_app_inv_l in Hf as (ns1 & ns2 & Hf1 & Hf2 & ->).
  apply Forall2_cons_inv_l in Hf2 as (n & ns2' & Hn & _ & ->).
  exists (length (filter is_bone (take i values))), n.
  split_and!; [|done..].
  rewrite (Forall2_length _ _ _ Hf1). by rewrite list_lookup_middle.
Qed.

Lemma filter_take_lt (values : list McblendObject) i j o :
  (i < j)%nat → values !! i = Some o → is_bone o →
  (length (filter is_bone (take i values)) <
   length (filter is_bone (take j values)))%nat.
Proof.
  intros Hij Hi Hb.
  rewrite <- (take_drop_middle values i o Hi) at 2.
  replace j with (i + S (j - S i))%nat by lia.
  rewrite take_app_add' by (symmetry; apply length_take_le, Nat.lt_le_incl;
                            by apply lookup_lt_Some with o).
  cbn [take]. rewrite filter_app, filter_cons, decide_True by done.
  rewrite length_app. cbn. lia.
Qed.

(** X27. Two objects that become bones and are named [base] and
    [base.suffix] in Blender, as an object and its copy are, make the test
    of the names fail: the names count up to their first dot. *)
Theorem copies_conflict (d : list ((string * string) * McblendObject))
    (i j : nat) (o o' : McblendObject) (base suffix : string) :
  d.*2 !! i = Some o → d.*2 !! j = Some o' →
  is_bone o → is_bone o' →
  obj_type (thisobj o) ≠ "ARMATURE" → obj_type (thisobj o') ≠ "ARMATURE" →
  no_dot base →
  obj_name (thisobj o) = base →
  obj_name (thisobj o') = base +:+ "." +:+ suffix →
  _check_name_conflicts d = KeyError ∨
  ∃ n, _check_name_conflicts d = NameConflictException n.
Proof.
  intros Hi Hj Hb Hb' Ht Ht' Hbase Hn Hn'.
  assert (Hne : _check_name_conflicts d ≠ Ok tt).
  { unfold _check_name_conflicts.
    rewrite check_name_conflicts_loop_Ok by apply NoDup_nil_2.
    intros (ns & Hf & Hnd). rewrite app_nil_l in Hnd.
    destruct (Forall2_filter_names _ _ _ _ Hf Hi Hb) as (k & n & Hk & Hno & Ek).
    destruct (Forall2_filter_names _ _ _ _ Hf Hj Hb')
      as (k' & n' & Hk' & Hno' & Ek').
    rewrite name_not_armature in Hno, Hno' by done.
    rewrite Hn in Hno. rewrite Hn' in Hno'.
    rewrite split_first_no_dot in Hno by done.
    rewrite split_first_app in Hno' by done.
    assert (n = base) as -> by congruence.
    assert (n' = base) as -> by congruence.
    assert (k = k') as Hkk by (by apply (proj1 (NoDup_alt ns) Hnd k k' base)).
    assert (i ≠ j) as Hij.
    { intros ->. assert (o' = o) as -> by congruence.
      rewrite Hn in Hn'. clear -Hn' Hbase.
      induction base as [|c s IH]; [done|].
      apply IH.
      - unfold no_dot in *. cbn in Hbase. set_solver.
      - by injection Hn'. }
    subst k k'.
    destruct (Nat.lt_total i j) as [Hlt|[?|Hlt]]; [|done|].
    - pose proof (filter_take_lt _ _ _ _ Hlt Hi Hb). lia.
    - pose proof (filter_take_lt _ _ _ _ Hlt Hj Hb'). lia. }
  destruct (_check_name_conflicts d) as [[]| |n|t] eqn:E.
  - done.
  - by left.
  - right. by exists n.
  - by apply check_name_conflicts_loop_no_exception in E.
Qed.


Lemma copies_conflict_witness :
  _check_name_conflicts cube_and_copy = KeyError ∨
  ∃ n, _check_name_conflicts cube_and_copy = NameConflictException n.
Proof.
  apply (copies_conflict cube_and_copy 0 1 cube cube_copy "Cube" "001").
  - reflexivity.
  - reflexivity.
  - apply (bool_decide_unpack _). vm_compute. reflexivity.
  - apply (bool_decide_unpack _). vm_compute. reflexivity.
  - vm_compute. discriminate.
  - vm_compute. discriminate.
  - apply (bool_decide_unpack _). vm_compute. reflexivity.
  - reflexivity.
  - reflexivity.
Defined.

(** ** The parent bone *)

Lemma get_parent_mc_bone_loop_Ok obj obj_id r :
  get_parent_mc_bone_loop obj obj_id = Ok r →
  (r = obj_id ∧ obj_parent obj = None) ∨
  ∃ id k child a,
    r = Some id ∧
    (obj :: ancestors obj) !! k = Some child ∧
    obj_parent child = Some a ∧ id.1 = obj_name a ∧
    (∀ j c, (j < k)%nat → (obj :: ancestors obj) !! j = Some c →
       parent_type c = "OBJECT") ∧
    (∀ j c, (j < k)%nat → ancestors obj !! j = Some c →
       obj_type c ≠ "EMPTY" ∧ "mc_is_bone" ∉ dom (props c)) ∧
    ((parent_type child = "BONE" ∧ id.2 = parent_bone child) ∨
     (parent_type child = "OBJECT" ∧ id.2 = "" ∧
      (obj_type a = "EMPTY" ∨ "mc_is_bone" ∈ dom (props a) ∨
       obj_parent a = None))).
Proof.
  revert obj_id r. induction obj as [obj IH] using Object_parent_ind.
  intros obj_id r.
  destruct obj as [n t pr [p|] pt pb c b pbs];
    cbn [get_parent_mc_bone_loop];
    [|intros [= <-]; by left].
  specialize (IH p eq_refl). intros Hr. right.
  case_decide as Hbone.
  { injection Hr as <-.
    exists (obj_name p, pb), 0%nat, (Build_Object n t pr (Some p) pt pb c b pbs), p.
    split_and!; [done..|intros; lia|intros; lia|by left]. }
  case_decide as Hobj; [|done].
  case_decide as Hq.
  { injection Hr as <-.
    exists (obj_name p, ""), 0%nat,
      (Build_Object n t pr (Some p) pt pb c b pbs), p.
    split_and!; [done..|intros; lia|intros; lia|].
    right. split_and!; [done..|]. tauto. }
  apply IH in Hr as [[-> Hroot]|
    (id & k & child & a & -> & Hk & Ha & Hid & Hlinks & Hskip & Hcase)].
  - exists (obj_name p, ""), 0%nat,
      (Build_Object n t pr (Some p) pt pb c b pbs), p.
    split_and!; [done..|intros; lia|intros; lia|].
    right. split_and!; [done..|]. tauto.
  - exists id, (S k), child, a.
    split_and!; [done..| | |done].
    + intros [|j] c' Hj Hc'.
      * by injection Hc' as <-.
      * apply (Hlinks j); [lia|done].
    + intros [|j] c' Hj Hc'.
      * injection Hc' as <-. tauto.
      * apply (Hskip j); [lia|done].
Qed.

(** X28. [_get_parent_mc_bone] returns [None] only for an object without a
    parent. Otherwise it names an object above [obj]: it goes up through
    the links of type [OBJECT], passing the objects that are neither empties
    nor marked [mc_is_bone], and stops at the first link of type [BONE]
    (the armature and [parent_bone] make the id), at the first empty or
    object marked [mc_is_bone], or at the top of the chain, whatever
    object is there. *)
Theorem get_parent_mc_bone_nearest (obj : Object)
    (r : option (string * string)) :
  _get_parent_mc_bone obj = Ok r →
  match r with
  | None => obj_parent obj = None
  | Some id =>
      ∃ k child a,
        (obj :: ancestors obj) !! k = Some child ∧
        obj_parent child = Some a ∧ id.1 = obj_name a ∧
        (∀ j c, (j < k)%nat → (obj :: ancestors obj) !! j = Some c →
           parent_type c = "OBJECT") ∧
        (∀ j c, (j < k)%nat → ancestors obj !! j = Some c →
           obj_type c ≠ "EMPTY" ∧ "mc_is_bone" ∉ dom (props c)) ∧
        ((parent_type child = "BONE" ∧ id.2 = parent_bone child) ∨
         (parent_type child = "OBJECT" ∧ id.2 = "" ∧
          (obj_type a = "EMPTY" ∨ "mc_is_bone" ∈ dom (props a) ∨
           obj_parent a = None)))
  end.
Proof.
  intros [[-> Hroot]|(id & k & child & a & -> & H)]%get_parent_mc_bone_loop_Ok.
  - done.
  - by exists k, child, a.
Qed.

Lemma get_parent_mc_bone_nearest_witness :
  ∃ k child a,
    (holder :: ancestors holder) !! k = Some child ∧
    obj_parent child = Some a ∧ "body" = obj_name a ∧
    (∀ j c, (j < k)%nat → (holder :: ancestors holder) !! j = Some c →
       parent_type c = "OBJECT") ∧
    (∀ j c, (j < k)%nat → ancestors holder !! j = Some c →
       obj_type c ≠ "EMPTY" ∧ "mc_is_bone" ∉ dom (props c)) ∧
    ((parent_type child = "BONE" ∧ "" = parent_bone child) ∨
     (parent_type child = "OBJECT" ∧ "" = "" ∧
      (obj_type a = "EMPTY" ∨ "mc_is_bone" ∈ dom (props a) ∨
       obj_parent a = None))).
Proof.
  apply (get_parent_mc_bone_nearest holder (Some ("body", ""))).
  vm_compute. reflexivity.
Defined.

Lemma get_parent_mc_bone_Some obj r :
  _get_parent_mc_bone obj = Ok r → obj_parent obj ≠ None → r ≠ None.
Proof.
  intros [[-> Hroot]|(id & k & child & a & -> & H)]%get_parent_mc_bone_loop_Ok;
    [done|done].
Qed.


(** ** The group *)

Lemma getitem_cons kv (d : list ((string * string) * McblendObject)) key :
  getitem (kv :: d) key =
  if decide (kv.1 = key) then Ok kv.2 else getitem d key.
Proof.
  unfold getitem. cbn [list_find]. case_decide; [done|].
  by destruct (list_find _ d) as [[? ?]|].
Qed.

Lemma getitem_Ok (d : list ((string * string) * McblendObject)) key v :
  NoDup d.*1 → getitem d key = Ok v ↔ (key, v) ∈ d.
Proof.
  induction d as [|[k w] d IH]; intros Hnd.
  - split; [done|]. by intros ?%elem_of_nil.
  - rewrite fmap_cons in Hnd. apply NoDup_cons in Hnd as [Hk Hnd].
    rewrite getitem_cons, elem_of_cons. cbn [fst snd].
    case_decide as Hkey.
    + subst k. split.
      * intros [= ->]. by left.
      * intros [[= ->]|Hin]; [done|].
        exfalso. apply Hk. apply list_elem_of_fmap. by exists (key, v).
    + rewrite IH by done. split; [by right|].
      intros [[= -> ->]|Hin]; [done|done].
Qed.

Lemma getitem_KeyError (d : list ((string * string) * McblendObject)) key :
  key ∉ d.*1 → getitem d key = KeyError.
Proof.
  induction d as [|[k w] d IH]; [done|].
  rewrite fmap_cons, not_elem_of_cons, getitem_cons. cbn [fst].
  intros [Hk Hd]. rewrite decide_False by done. by apply IH.
Qed.

Lemma getitem_cases (d : list ((string * string) * McblendObject)) key :
  (∃ v, getitem d key = Ok v ∧ (key, v) ∈ d) ∨
  (getitem d key = KeyError ∧ key ∉ d.*1).
Proof.
  induction d as [|[k w] d IH].
  - right. split; [done|]. apply not_elem_of_nil.
  - rewrite getitem_cons. cbn [fst snd]. case_decide as Hk.
    + subst k. left. exists w. split; [done|]. by left.
    + destruct IH as [(v & Hv & Hin)|[He Hn]].
      * left. exists v. split; [done|]. by right.
      * right. split; [done|]. rewrite fmap_cons, not_elem_of_cons. done.
Qed.

Lemma setitem_keys key value (d : list ((string * string) * McblendObject)) :
  (setitem key value d).*1 =
  if decide (key ∈ d.*1) then d.*1 else (d.*1 ++ [key])%list.
Proof.
  unfold setitem. case_decide.
  - rewrite <- list_fmap_compose. apply list_fmap_ext.
    intros i [k v] _. cbn. by case_decide.
  - by rewrite fmap_app.
Qed.

Lemma setitem_NoDup key value (d : list ((string * string) * McblendObject)) :
  NoDup d.*1 → NoDup (setitem key value d).*1.
Proof.
  intros Hnd. rewrite setitem_keys. case_decide; [done|].
  apply NoDup_app. split_and!; [done| |apply NoDup_singleton].
  by intros x Hx ->%list_elem_of_singleton.
Qed.

Lemma setitem_elem key value (d : list ((string * string) * McblendObject)) kv :
  kv ∈ setitem key value d → kv = (key, value) ∨ kv ∈ d.
Proof.
  unfold setitem. case_decide.
  - intros (kv' & -> & Hin)%list_elem_of_fmap. case_decide; [by left|by right].
  - rewrite elem_of_app, list_elem_of_singleton. tauto.
Qed.

Lemma by_name_Ok {A} (item_name : A → string) key collection x :
  by_name item_name key collection = Ok x →
  x ∈ collection ∧ item_name x = key.
Proof.
  unfold by_name. destruct (list_find _ _) as [[i y]|] eqn:E; [|done].
  intros [= ->]. apply list_find_Some in E as (Hi & Hx & _).
  split; [by apply list_elem_of_lookup_2 with i|done].
Qed.

Lemma elem_of_loop_objects objects obj_id obj :
  (obj_id, obj) ∈ _loop_objects objects →
  obj ∈ objects ∧ obj_id.1 = obj_name obj ∧
  ((obj_type obj = "MESH" ∨ obj_type obj = "EMPTY") ∧ obj_id.2 = "" ∨
   obj_type obj = "ARMATURE" ∧
   ∃ bone, bone ∈ bones obj ∧ obj_id.2 = bone_name bone).
Proof.
  unfold _loop_objects. rewrite list_elem_of_bind.
  intros (o & Hin & Ho). revert Hin.
  case_decide as Ht; [|case_decide as Ha].
  - intros [= -> ->]%list_elem_of_singleton. split_and!; [done..|].
    left. split; [|done].
    rewrite !elem_of_cons in Ht. rewrite elem_of_nil in Ht. tauto.
  - intros (bone & [= -> ->] & Hb)%list_elem_of_fmap. split_and!; [done..|].
    right. split; [done|]. by exists bone.
  - by intros ?%elem_of_nil.
Qed.


(** What the first loop of [_load_objects] keeps true of an entry. *)
Lemma load_object_entry objects d obj_id obj d' :
  load_object d (obj_id, obj) = Ok d' →
  (obj_id, obj) ∈ _loop_objects objects →
  d' = d ∨
  ∃ v, d' = setitem obj_id v d ∧ thisobj_id v = obj_id ∧ thisobj v = obj ∧
       mcchildren v = [] ∧ classified v.
Proof.
  intros Hl (Hin & Hname & Hty)%elem_of_loop_objects.
  unfold load_object in Hl.
  case_decide as He; [|case_decide as Hm; [|case_decide as Ha]].
  - case_decide as Hp.
    + destruct (_get_parent_mc_bone obj) as [r| | |] eqn:Er; try done.
      injection Hl as <-. right. eexists. split; [done|].
      split_and!; [done..|].
      pose proof (get_parent_mc_bone_Some _ _ Er Hp) as Hr.
      unfold classified. cbn. case_decide as Hloc.
      * destruct Hloc as (_ & Hc & Hb). by split_and!.
      * left. split_and!; [done| |done].
        destruct (decide (children obj = 0%nat)); [|tauto].
        destruct (decide ("mc_is_bone" ∈ dom (props obj))); tauto.
    + injection Hl as <-. right. eexists. split; [done|].
      split_and!; [done..|].
      unfold classified. cbn. rewrite decide_False by tauto.
      left. split_and!; [done|by left|done].
  - case_decide as Hb.
    + injection Hl as <-. right. eexists. split; [done|].
      split_and!; [done..|]. unfold classified. cbn. by split_and!.
    + destruct (_get_parent_mc_bone obj) as [r| | |] eqn:Er; try done.
      injection Hl as <-. right. eexists. split; [done|].
      split_and!; [done..|].
      assert (obj_parent obj ≠ None) as Hp by tauto.
      pose proof (get_parent_mc_bone_Some _ _ Er Hp) as Hr.
      unfold classified. cbn. split_and!; [done|done|tauto|done].
  - destruct (by_name bone_name obj_id.2 (bones obj)) as [bone| | |] eqn:Eb;
      try done.
    apply by_name_Ok in Eb as [Hbone Hbn].
    case_decide as Hskip; injection Hl as <-; [by left|].
    right. eexists. split; [done|]. split_and!; [done..|].
    unfold classified. cbn. right. split; [done|].
    exists bone. split_and!; [done|done| |by destruct (bone_parent bone)].
    destruct (bone_parent bone); [by left|].
    destruct (decide (bone_children bone = 0%nat)); [tauto|by right].
  - injection Hl as <-. by left.
Qed.

Lemma load_objects_loop_inv objects d yielded d' :
  load_objects_loop d yielded = Ok d' →
  (∀ y, y ∈ yielded → y ∈ _loop_objects objects) →
  NoDup d.*1 →
  Forall (λ kv, thisobj_id kv.2 = kv.1 ∧ thisobj kv.2 ∈ objects ∧
                kv.1.1 = obj_name (thisobj kv.2) ∧
                mcchildren kv.2 = [] ∧ classified kv.2) d →
  NoDup d'.*1 ∧
  Forall (λ kv, thisobj_id kv.2 = kv.1 ∧ thisobj kv.2 ∈ objects ∧
                kv.1.1 = obj_name (thisobj kv.2) ∧
                mcchildren kv.2 = [] ∧ classified kv.2) d'.
Proof.
  revert d. induction yielded as [|[obj_id obj] yielded IH];
    intros d Hl Hy Hnd Hd.
  - injection Hl as <-. done.
  - cbn [load_objects_loop] in Hl.
    destruct (load_object d (obj_id, obj)) as [d1| | |] eqn:E1; try done.
    assert (Hin : (obj_id, obj) ∈ _loop_objects objects)
      by (apply Hy; by left).
    apply (IH d1 Hl); [intros y ?; apply Hy; by right| |].
    + destruct (load_object_entry objects _ _ _ _ E1 Hin)
        as [->|(v & -> & _)]; [done|by apply setitem_NoDup].
    + destruct (load_object_entry objects _ _ _ _ E1 Hin)
        as [->|(v & -> & Hid & Hobj & Hch & Hcl)]; [done|].
      apply Forall_forall. intros kv [->|Hkv]%setitem_elem.
      * apply elem_of_loop_objects in Hin as (Ho & Hn & _).
        cbn [fst snd]. rewrite Hobj. done.
      * by apply (proj1 (Forall_forall _ _) Hd).
Qed.

Lemma with_children_nil v : mcchildren v = [] → with_children [] v = v.
Proof. destruct v. cbn. by intros ->. Qed.

Lemma children_of_snoc (l : list ((string * string) * McblendObject)) kv key :
  children_of (l ++ [kv]) key =
  if decide (parentobj_id kv.2 = Some key)
  then (children_of l key ++ [kv.1])%list else children_of l key.
Proof.
  unfold children_of. rewrite filter_app, filter_cons, filter_nil.
  case_decide.
  - by rewrite fmap_app.
  - by rewrite app_nil_r.
Qed.

Lemma fill_children_eq (d : list ((string * string) * McblendObject)) :
  Forall (λ kv, mcchildren kv.2 = []) d →
  fill_children d =
  (λ kv, (kv.1, with_children (children_of d kv.1) kv.2)) <$> d.
Proof.
  intros Hd. unfold fill_children.
  assert (Hgen : ∀ l2 l1,
    foldl (λ acc kv,
             match parentobj_id kv.2 with
             | Some p => if decide (p ∈ acc.*1) then append_child p kv.1 acc
                         else acc
             | None => acc
             end)
      ((λ kv, (kv.1, with_children (children_of l1 kv.1) kv.2)) <$> d) l2 =
    (λ kv, (kv.1, with_children (children_of (l1 ++ l2) kv.1) kv.2)) <$> d).
  { induction l2 as [|kv l2 IH]; intros l1.
    - by rewrite app_nil_r.
    - cbn [foldl]. rewrite cons_middle, app_assoc, <- IH. f_equal.
      assert (Hkeys :
        ((λ kv, (kv.1, with_children (children_of l1 kv.1) kv.2)) <$> d).*1
        = d.*1).
      { rewrite <- list_fmap_compose. by apply list_fmap_ext. }
      rewrite Hkeys.
      destruct (parentobj_id kv.2) as [p|] eqn:Ep.
      + case_decide as Hp.
        * unfold append_child. rewrite <- list_fmap_compose.
          apply list_fmap_ext. intros i [k' v'] _. cbn [compose fst snd].
          rewrite children_of_snoc, Ep.
          destruct (decide (k' = p)) as [->|Hk].
          -- by rewrite decide_True.
          -- rewrite decide_False by congruence. done.
        * apply list_fmap_ext. intros i kv' Hi.
          rewrite children_of_snoc, Ep, decide_False; [done|].
          intros [= ->]. apply Hp, list_elem_of_fmap. exists kv'.
          split; [done|]. by apply list_elem_of_lookup_2 with i.
      + apply list_fmap_ext. intros i kv' _.
        by rewrite children_of_snoc, Ep, decide_False. }
  pose proof (Hgen d []) as Hg. rewrite app_nil_l in Hg.
  rewrite <- Hg. f_equal.
  symmetry. etransitivity; [|apply list_fmap_id].
  apply list_fmap_ext. intros i [k v] Hi. cbn.
  f_equal. apply with_children_nil.
  apply (proj1 (Forall_lookup _ _) Hd i (k, v) Hi).
Qed.

Lemma load_objects_Ok objects d :
  _load_objects objects = Ok d →
  ∃ d0, d = (λ kv, (kv.1, with_children (children_of d0 kv.1) kv.2)) <$> d0 ∧
        NoDup d0.*1 ∧
        Forall (λ kv, thisobj_id kv.2 = kv.1 ∧ thisobj kv.2 ∈ objects ∧
                      kv.1.1 = obj_name (thisobj kv.2) ∧
                      mcchildren kv.2 = [] ∧ classified kv.2) d0.
Proof.
  unfold _load_objects.
  destruct (load_objects_loop [] (_loop_objects objects))
    as [d0| | |] eqn:E; try done.
  intros [= <-]. exists d0.
  apply (load_objects_loop_inv objects) in E as [Hnd Hd];
    [|done|apply NoDup_nil_2|constructor].
  split_and!; [|done..].
  apply fill_children_eq. eapply Forall_impl; [exact Hd|]. cbn. tauto.
Qed.

(** X29. In a group that [_load_objects] has built, no id is held twice and
    the children lists are the parent ids read backwards: an object is in
    the children of the object its [parent] is, the children of an object
    all have it as their [parent], and no child is listed twice. *)
Theorem load_objects_children (objects : list Object)
    (d : list ((string * string) * McblendObject)) :
  _load_objects objects = Ok d →
  NoDup d.*1 ∧
  (∀ c oc op, getitem d c = Ok oc → parent d oc = Some op →
     c ∈ mcchildren op) ∧
  (∀ p op c, getitem d p = Ok op → c ∈ mcchildren op →
     ∃ oc, getitem d c = Ok oc ∧ parent d oc = Some op) ∧
  (∀ p op, getitem d p = Ok op → NoDup (mcchildren op)).
Proof.
  intros (d0 & -> & Hnd & Hd)%load_objects_Ok.
  assert (Hkeys :
    ((λ kv, (kv.1, with_children (children_of d0 kv.1) kv.2)) <$> d0).*1
    = d0.*1).
  { rewrite <- list_fmap_compose. by apply list_fmap_ext. }
  assert (Hget : ∀ k v,
    getitem ((λ kv, (kv.1, with_children (children_of d0 kv.1) kv.2)) <$> d0)
      k = Ok v ↔
    ∃ v0, (k, v0) ∈ d0 ∧ v = with_children (children_of d0 k) v0).
  { intros k v. rewrite getitem_Ok by (by rewrite Hkeys).
    rewrite list_elem_of_fmap. split.
    - intros ([k0 v0] & [= -> ->] & Hin). by exists v0.
    - intros (v0 & Hin & ->). by exists (k, v0). }
  split_and!.
  - by rewrite Hkeys.
  - intros c oc op (oc0 & Hc & ->)%Hget. unfold parent.
    cbn [parentobj_id with_children].
    destruct (parentobj_id oc0) as [p|] eqn:Ep; [|done].
    destruct (getitem _ p) as [op'| | |] eqn:Egp; try done.
    intros [= ->]. apply Hget in Egp as (op0 & Hp & ->).
    cbn [mcchildren with_children].
    unfold children_of. apply list_elem_of_fmap. exists (c, oc0).
    split; [done|]. by apply list_elem_of_filter.
  - intros p op c (op0 & Hp & ->)%Hget. cbn [mcchildren with_children].
    intros Hc. unfold children_of in Hc.
    apply list_elem_of_fmap in Hc
      as ([c' oc0] & -> & [Hpar Hin]%list_elem_of_filter).
    cbn [fst snd] in *. exists (with_children (children_of d0 c') oc0). split.
    + apply Hget. by exists oc0.
    + unfold parent. cbn [parentobj_id with_children]. rewrite Hpar.
      cbv iota beta.
      rewrite (proj2 (Hget p (with_children (children_of d0 p) op0)));
        [done|by exists op0].
  - intros p op (op0 & Hp & ->)%Hget. cbn. unfold children_of.
    revert Hnd. clear. induction d0 as [|kv d0 IH]; [constructor|].
    rewrite fmap_cons, NoDup_cons. intros [Hk Hnd].
    rewrite filter_cons. case_decide; [|by apply IH].
    rewrite fmap_cons. apply NoDup_cons. split; [|by apply IH].
    intros (kv' & Hkk & [_ Hin]%list_elem_of_filter)%list_elem_of_fmap.
    apply Hk, list_elem_of_fmap. by exists kv'.
Qed.

Lemma load_objects_children_witness :
  NoDup skeleton_group.*1 ∧
  (∀ c oc op, getitem skeleton_group c = Ok oc →
     parent skeleton_group oc = Some op → c ∈ mcchildren op) ∧
  (∀ p op c, getitem skeleton_group p = Ok op → c ∈ mcchildren op →
     ∃ oc, getitem skeleton_group c = Ok oc ∧
           parent skeleton_group oc = Some op) ∧
  (∀ p op, getitem skeleton_group p = Ok op → NoDup (mcchildren op)).
Proof.
  apply (load_objects_children skeleton skeleton_group).
  vm_compute. reflexivity.
Defined.

(** X30. What an object of the group is follows from what the Blender
    object is: a locator is an empty with a parent, without children and
    without [mc_is_bone]; a cube is a mesh with a parent and without
    [mc_is_bone]; locators and cubes always have a parent id; a mesh
    without a parent or marked [mc_is_bone] is both bone and cube and has
    no parent id, whatever its parent in Blender; every other empty and
    every bone of an armature that has a parent or children is a bone.
    The object is one of the selected objects and its id starts with the
    name of that object. *)
Theorem load_objects_classified (objects : list Object)
    (d : list ((string * string) * McblendObject))
    (k : string * string) (v : McblendObject) :
  _load_objects objects = Ok d → (k, v) ∈ d →
  thisobj_id v = k ∧ thisobj v ∈ objects ∧ k.1 = obj_name (thisobj v) ∧
  match mctype v with
  | LOCATOR =>
      obj_type (thisobj v) = "EMPTY" ∧ obj_parent (thisobj v) ≠ None ∧
      children (thisobj v) = 0%nat ∧
      ("mc_is_bone" ∉ dom (props (thisobj v))) ∧
      parentobj_id v ≠ None
  | CUBE =>
      obj_type (thisobj v) = "MESH" ∧ obj_parent (thisobj v) ≠ None ∧
      ("mc_is_bone" ∉ dom (props (thisobj v))) ∧ parentobj_id v ≠ None
  | BOTH =>
      obj_type (thisobj v) = "MESH" ∧
      (obj_parent (thisobj v) = None ∨
       "mc_is_bone" ∈ dom (props (thisobj v))) ∧
      parentobj_id v = None
  | BONE =>
      obj_type (thisobj v) = "EMPTY" ∧
      (obj_parent (thisobj v) = None ∨ children (thisobj v) ≠ 0%nat ∨
       "mc_is_bone" ∈ dom (props (thisobj v))) ∧
      (parentobj_id v = None ↔ obj_parent (thisobj v) = None) ∨
      obj_type (thisobj v) = "ARMATURE" ∧
      ∃ bone, bone ∈ bones (thisobj v) ∧ bone_name bone = (thisobj_id v).2 ∧
        (bone_parent bone ≠ None ∨ bone_children bone ≠ 0%nat) ∧
        parentobj_id v =
          (λ parent_name, (obj_name (thisobj v), parent_name))
            <$> bone_parent bone
  end.
Proof.
  intros (d0 & -> & Hnd & Hd)%load_objects_Ok
    ([k0 v0] & [= -> ->] & Hin)%list_elem_of_fmap.
  apply (proj1 (Forall_forall _ _) Hd) in Hin
    as (Hid & Hobj & Hname & _ & Hcl).
  cbn in *. split_and!; [done..|]. exact Hcl.
Qed.

Lemma load_objects_classified_witness :
  ("holder", "") = ("holder", "") ∧ holder ∈ skeleton ∧
  "holder" = obj_name holder ∧
  obj_type holder = "EMPTY" ∧ obj_parent holder ≠ None ∧
  children holder = 0%nat ∧ ("mc_is_bone" ∉ dom (props holder)) ∧
  Some ("body", "") ≠ None.
Proof.
  apply (load_objects_classified skeleton skeleton_group ("holder", "")
           {| thisobj_id := ("holder", ""); thisobj := holder;
              parentobj_id := Some ("body", ""); mcchildren := [];
              mctype := LOCATOR |}).
  - vm_compute. reflexivity.
  - do 2 right. left.
Defined.

(** The constructor at work: on the scene, and on a cube and its copy. *)
Example skeleton_group_run : McblendObjectGroup skeleton = Ok skeleton_group.
Proof. vm_compute. reflexivity. Qed.

Example cube_and_copy_run :
  McblendObjectGroup [thisobj cube; thisobj cube_copy]
  = NameConflictException "Cube".
Proof. vm_compute. reflexivity. Qed.

End common_facts.
